(** * Synchronized planarity front end of OGDF: a shallow embedding

    The development follows four source units:
    - [ClusterPlanarity.cpp]: the three entry points of
      [SyncPlanClusterPlanarityModule], the [SyncPlan] constructor that turns
      a cluster hierarchy into pipes, and [UndoInitCluster];
    - [NodeSPQRRotation::mapGraph];
    - [FilteringBFS] and [FilteringBFSIterator];
    - [GraphList.h]: the intrusive doubly linked lists [GraphListBase] and
      [GraphList] that hold the nodes, edges and adjacency entries.

    Pointers are natural-number handles, [nullptr] is [None], OGDF lists are
    Rocq lists, registered arrays ([NodeArray], [ClusterArray], ...) are
    finite maps. *)

From stdpp Require Import gmap list sets.

(** ** Entry points of [SyncPlanClusterPlanarityModule] *)

Module ClusterPlanarityModule.

(** A C++ call either returns a value or leaves by an exception. *)
Inductive outcome (Exn A : Type) : Type :=
  | Returned (a : A)
  | Raised (e : Exn).
Arguments Returned {Exn A} a.
Arguments Raised {Exn A} e.

(** The member functions of [SyncPlan] that the entry points call. *)
Inductive event : Type :=
  | EvMakeReduced
  | EvSolveReduced
  | EvEmbed.

#[global] Instance event_eq_dec : EqDecision event.
Proof. solve_decision. Defined.

Section Driver.
(** The engine is used through its interface only.  A [SyncPlan] object
    holds the pointers it was constructed with, so its state contains the
    graph, the cluster graph and the augmentation vector it works on. *)
Context {Graph ClusterGraph Engine AdjEntry Cluster Exn : Type}.

Definition Augmentation : Type := option (list (AdjEntry * AdjEntry)).

Record SyncPlan : Type := mkSyncPlan {
  sp_G : Graph;
  sp_CG : ClusterGraph;
  sp_augmentation : Augmentation;
  sp_engine : Engine;
}.

Variable SyncPlan_new : Graph → ClusterGraph → Augmentation → SyncPlan.
Variable makeReduced : SyncPlan → outcome Exn bool * SyncPlan.
Variable solveReduced : SyncPlan → outcome Exn bool * SyncPlan.
Variable embed : SyncPlan → outcome Exn unit * SyncPlan.

(** State of one run: the [SyncPlan] local and the calls made on it. *)
Record run : Type := mkRun {
  run_SP : SyncPlan;
  run_trace : list event;
}.

Definition M (A : Type) : Type := run → outcome Exn A * run.

Definition ret {A} (a : A) : M A := fun r => (Returned a, r).

Definition bind {A B} (m : M A) (k : A → M B) : M B := fun r =>
  match m r with
  | (Returned a, r') => k a r'
  | (Raised e, r') => (Raised e, r')
  end.

Notation "'let*' x ':=' m 'in' k" := (bind m (fun x => k))
  (at level 10, x name, m at level 100, k at level 200).

Definition call {A} (ev : event) (f : SyncPlan → outcome Exn A * SyncPlan) : M A :=
  fun r =>
    let (o, sp) := f (run_SP r) in
    (o, {| run_SP := sp; run_trace := run_trace r ++ [ev] |}).

(** [SP.makeReduced() && SP.solveReduced()], with the short circuit of
    [&&]. *)
Definition makeReduced_and_solveReduced : M bool :=
  let* b := call EvMakeReduced makeReduced in
  if b then call EvSolveReduced solveReduced else ret false.

Definition start (G : Graph) (CG : ClusterGraph) (aug : Augmentation) : run :=
  {| run_SP := SyncPlan_new G CG aug; run_trace := [] |}.

(** The caller's objects: the graph, the cluster graph and the module's
    [m_augmentation] member. *)
Record caller : Type := mkCaller {
  c_G : Graph;
  c_CG : ClusterGraph;
  m_augmentation : Augmentation;
}.

(** The destructive entry points run the engine on the caller's own
    objects: what the engine did to them is what the caller sees. *)
Definition write_through (c : caller) (sp : SyncPlan) (aug_used : bool) : caller :=
  {| c_G := sp_G sp; c_CG := sp_CG sp;
     m_augmentation := if aug_used then sp_augmentation sp else m_augmentation c |}.

Definition isClusterPlanarDestructive (c : caller)
  : outcome Exn bool * caller * list event :=
  let (o, r) := makeReduced_and_solveReduced (start (c_G c) (c_CG c) None) in
  (o, write_through c (run_SP r) false, run_trace r).

(** [if (SP.makeReduced() && SP.solveReduced()) { SP.embed(); ... } else
    { return false; }]: the result tells which branch was taken. *)
Definition embed_if_solved : M bool :=
  let* b := makeReduced_and_solveReduced in
  if b then (let* u := call EvEmbed embed in ret true) else ret false.

Definition clusterPlanarEmbedClusterPlanarGraph (c : caller)
  : outcome Exn bool * caller * list event :=
  let (o, r) := embed_if_solved (start (c_G c) (c_CG c) (m_augmentation c)) in
  (o, write_through c (run_SP r) true, run_trace r).

(** The engine built from [G], [CG], [aug], and what the conjunction
    [makeReduced() && solveReduced()] did on it. *)
Definition both_true (G : Graph) (CG : ClusterGraph) (aug : Augmentation) : Prop :=
  ∃ sp1, makeReduced (SyncPlan_new G CG aug) = (Returned true, sp1)
         ∧ (solveReduced sp1).1 = Returned true.

Definition one_false (G : Graph) (CG : ClusterGraph) (aug : Augmentation) : Prop :=
  (makeReduced (SyncPlan_new G CG aug)).1 = Returned false
  ∨ ∃ sp1, makeReduced (SyncPlan_new G CG aug) = (Returned true, sp1)
           ∧ (solveReduced sp1).1 = Returned false.

Definition conj_raised (G : Graph) (CG : ClusterGraph) (aug : Augmentation)
    (e : Exn) : Prop :=
  (makeReduced (SyncPlan_new G CG aug)).1 = Raised e
  ∨ ∃ sp1, makeReduced (SyncPlan_new G CG aug) = (Returned true, sp1)
           ∧ (solveReduced sp1).1 = Raised e.

(** *** The short-circuited conjunction *)

Lemma conj_run (r : run) :
  makeReduced_and_solveReduced r =
  match makeReduced (run_SP r) with
  | (Returned true, sp1) =>
      let (o, sp2) := solveReduced sp1 in
      (o, {| run_SP := sp2;
             run_trace := run_trace r ++ [EvMakeReduced; EvSolveReduced] |})
  | (Returned false, sp1) =>
      (Returned false,
       {| run_SP := sp1; run_trace := run_trace r ++ [EvMakeReduced] |})
  | (Raised e, sp1) =>
      (Raised e,
       {| run_SP := sp1; run_trace := run_trace r ++ [EvMakeReduced] |})
  end.
Proof.
  unfold makeReduced_and_solveReduced, bind, ret, call.
  destruct (makeReduced (run_SP r)) as [[[]|e] sp1]; simpl; try done.
  destruct (solveReduced sp1) as [o sp2]. by rewrite <- app_assoc.
Qed.

Lemma conj_outcome G CG aug :
  let res := makeReduced_and_solveReduced (start G CG aug) in
  (res.1 = Returned true ↔ both_true G CG aug)
  ∧ (res.1 = Returned false ↔ one_false G CG aug)
  ∧ (∀ e, res.1 = Raised e ↔ conj_raised G CG aug e)
  ∧ ((makeReduced (SyncPlan_new G CG aug)).1 ≠ Returned true →
     run_trace res.2 = [EvMakeReduced])
  ∧ ((makeReduced (SyncPlan_new G CG aug)).1 = Returned true →
     run_trace res.2 = [EvMakeReduced; EvSolveReduced]).
Proof.
  simpl. rewrite conj_run. unfold both_true, one_false, conj_raised, start. simpl.
  destruct (makeReduced (SyncPlan_new G CG aug)) as [[[]|e] sp1] eqn:Hmr; simpl.
  - destruct (solveReduced sp1) as [o sp2] eqn:Hsr; simpl.
    repeat split; try done.
    + intros ->. exists sp1. by rewrite Hsr.
    + intros (sp & [= <-] & H). by rewrite Hsr in H.
    + intros ->. right. exists sp1. by rewrite Hsr.
    + intros [[=] | (sp & [= <-] & H)]. by rewrite Hsr in H.
    + intros ->. right. exists sp1. by rewrite Hsr.
    + intros [[=] | (sp & [= <-] & H)]. by rewrite Hsr in H.
  - repeat split; try done.
    + intros (sp & [=] & _).
    + by left.
    + intros [[=] | (sp & [=] & _)].
  - repeat split; try done.
    + intros (sp & [=] & _).
    + intros [[=] | (sp & [=] & _)].
    + intros [= ->]. by left.
    + intros [[= ->] | (sp & [=] & _)]. done.
Qed.

(** Membership in an explicit trace. *)
Ltac trace_mem :=
  simpl; rewrite ?elem_of_app, ?elem_of_cons, ?elem_of_nil;
  first [ intuition discriminate | intuition auto ].

Lemma embed_if_solved_run (r : run) :
  embed_if_solved r =
  match makeReduced_and_solveReduced r with
  | (Returned true, r1) =>
      let (o, sp) := embed (run_SP r1) in
      (match o with Returned _ => Returned true | Raised e => Raised e end,
       {| run_SP := sp; run_trace := run_trace r1 ++ [EvEmbed] |})
  | (Returned false, r1) => (Returned false, r1)
  | (Raised e, r1) => (Raised e, r1)
  end.
Proof.
  unfold embed_if_solved, bind at 1.
  destruct (makeReduced_and_solveReduced r) as [[[]|e] r1]; try done.
  unfold bind, call, ret. by destruct (embed (run_SP r1)) as [[[]|e] sp].
Qed.

Lemma embed_if_solved_outcome G CG aug :
  let res := embed_if_solved (start G CG aug) in
  (EvEmbed ∈ run_trace res.2 ↔ both_true G CG aug)
  ∧ (res.1 = Returned false ↔ one_false G CG aug)
  ∧ (res.1 = Returned true → both_true G CG aug)
  ∧ (∀ e, conj_raised G CG aug e → res.1 = Raised e).
Proof.
  intros res. subst res. rewrite embed_if_solved_run, conj_run.
  unfold both_true, one_false, conj_raised, start; simpl.
  destruct (makeReduced (SyncPlan_new G CG aug)) as [[[]|e] sp1] eqn:Hmr; simpl.
  - destruct (solveReduced sp1) as [[[]|e] sp2] eqn:Hsr; simpl.
    + destruct (embed sp2) as [[[]|e] sp3]; simpl.
      * split_and!.
        -- split; [intros _; exists sp1; by rewrite Hsr | intros _; trace_mem].
        -- split; [done | intros [[=] | (sp & [= <-] & H)]; by rewrite Hsr in H].
        -- intros _. exists sp1. by rewrite Hsr.
        -- intros e [[=] | (sp & [= <-] & H)]. by rewrite Hsr in H.
      * split_and!.
        -- split; [intros _; exists sp1; by rewrite Hsr | intros _; trace_mem].
        -- split; [done | intros [[=] | (sp & [= <-] & H)]; by rewrite Hsr in H].
        -- done.
        -- intros e' [[=] | (sp & [= <-] & H)]. by rewrite Hsr in H.
    + split_and!.
      * split; [trace_mem | intros (sp & [= <-] & H); by rewrite Hsr in H].
      * split; [intros _; right; exists sp1; by rewrite Hsr | done].
      * done.
      * intros e [[=] | (sp & [= <-] & H)]. by rewrite Hsr in H.
    + split_and!.
      * split; [trace_mem | intros (sp & [= <-] & H); by rewrite Hsr in H].
      * split; [done | intros [[=] | (sp & [= <-] & H)]; by rewrite Hsr in H].
      * done.
      * intros e' [[=] | (sp & [= <-] & H)]. by rewrite Hsr in H.
  - split_and!.
    + split; [trace_mem | intros (sp & [=] & _)].
    + split; [by left | done].
    + done.
    + intros e [[=] | (sp & [=] & _)].
  - split_and!.
    + split; [trace_mem | intros (sp & [=] & _)].
    + split; [done | intros [[=] | (sp & [=] & _)]].
    + done.
    + intros e' [[= ->] | (sp & [=] & _)]. done.
Qed.

(** C4. Non-cluster-planarity is reported by the boolean result, never by an
    exception of the entry point's own: [isClusterPlanarDestructive] returns
    [true] exactly when [makeReduced] and then [solveReduced] both returned
    [true], returns [false] exactly when one of them returned [false], and
    leaves by an exception only when one of the two raised it; [solveReduced]
    is not called when [makeReduced] did not return [true].
    [clusterPlanarEmbedClusterPlanarGraph] calls [embed] exactly when both
    returned [true], and returns [false], without a call of [embed], exactly
    when one of them returned [false]. *)
Theorem boolean_reporting (c : caller) :
  let d := isClusterPlanarDestructive c in
  let p := clusterPlanarEmbedClusterPlanarGraph c in
  (d.1.1 = Returned true ↔ both_true (c_G c) (c_CG c) None)
  ∧ (d.1.1 = Returned false ↔ one_false (c_G c) (c_CG c) None)
  ∧ (∀ e, d.1.1 = Raised e ↔ conj_raised (c_G c) (c_CG c) None e)
  ∧ ((makeReduced (SyncPlan_new (c_G c) (c_CG c) None)).1 ≠ Returned true →
     EvSolveReduced ∉ d.2)
  ∧ (EvEmbed ∈ p.2 ↔ both_true (c_G c) (c_CG c) (m_augmentation c))
  ∧ (p.1.1 = Returned false ↔ one_false (c_G c) (c_CG c) (m_augmentation c))
  ∧ (p.1.1 = Returned false → EvEmbed ∉ p.2)
  ∧ (p.1.1 = Returned true → EvEmbed ∈ p.2).
Proof.
  unfold isClusterPlanarDestructive, clusterPlanarEmbedClusterPlanarGraph.
  pose proof (conj_outcome (c_G c) (c_CG c) None) as (Ht & Hf & He & Htr & _).
  pose proof (embed_if_solved_outcome (c_G c) (c_CG c) (m_augmentation c))
    as (Hemb & Hfalse & Htrue & _).
  simpl in *.
  destruct (makeReduced_and_solveReduced (start (c_G c) (c_CG c) None))
    as [o r]; simpl in *.
  destruct (embed_if_solved (start (c_G c) (c_CG c) (m_augmentation c)))
    as [o' r']; simpl in *.
  split_and!; try assumption.
  - intros H. rewrite (Htr H). trace_mem.
  - intros H1 H2%Hemb. apply Hfalse in H1.
    destruct H2 as (sp1 & Hmr & Hsr).
    destruct H1 as [H1 | (sp1' & Hmr' & Hsr')].
    + by rewrite Hmr in H1.
    + rewrite Hmr in Hmr'. injection Hmr' as <-. by rewrite Hsr in Hsr'.
  - intros H. by apply Hemb, Htrue.
Qed.

End Driver.

End ClusterPlanarityModule.

(** ** [clusterPlanarEmbed]: the engine runs on copies *)

Module ClusterPlanarEmbed.
Import ClusterPlanarityModule.

(** The calls an entry point may make on its engine, in their order. *)
Definition protocol (with_embed : bool) (t : list event) : Prop :=
  t = [EvMakeReduced] ∨ t = [EvMakeReduced; EvSolveReduced]
  ∨ (with_embed = true ∧ t = [EvMakeReduced; EvSolveReduced; EvEmbed]).

Section Copies.
(** [clusterPlanarEmbed] receives its graph and its cluster graph by
    reference and hands the engine the addresses of two locals.  Objects
    therefore live in a store, under their addresses, and a [SyncPlan] holds
    the three pointers it was constructed with. *)
Context {Graph ClusterGraph Engine AdjEntry Cluster Exn : Type}.

Record store : Type := mkStore {
  graphs : gmap nat Graph;
  clusterGraphs : gmap nat ClusterGraph;
  augmentations : gmap nat (list (AdjEntry * AdjEntry));
}.

Record SyncPlan : Type := mkSyncPlan {
  SP_G : nat;
  SP_CG : nat;
  SP_augmentation : option nat;
  SP_engine : Engine;
}.

(** The engine, through its interface: the constructor and the member
    functions work on the store and on the internal state of the object. *)
Variable SyncPlan_new : nat → nat → option nat → store → Engine * store.
Variable makeReduced : SyncPlan → store → outcome Exn bool * Engine * store.
Variable solveReduced : SyncPlan → store → outcome Exn bool * Engine * store.
Variable embed : SyncPlan → store → outcome Exn unit * Engine * store.

(** State of one run: the [SyncPlan] local, the store, and the calls made. *)
Record run : Type := mkRun {
  run_SP : SyncPlan;
  run_store : store;
  run_trace : list event;
}.

Definition call {A} (ev : event)
    (f : SyncPlan → store → outcome Exn A * Engine * store) (r : run)
  : outcome Exn A * run :=
  let '(o, e, σ) := f (run_SP r) (run_store r) in
  (o, {| run_SP := {| SP_G := SP_G (run_SP r); SP_CG := SP_CG (run_SP r);
                      SP_augmentation := SP_augmentation (run_SP r);
                      SP_engine := e |};
         run_store := σ; run_trace := run_trace r ++ [ev] |}).

(** [SP.makeReduced() && SP.solveReduced()]. *)
Definition makeReduced_and_solveReduced (r : run) : outcome Exn bool * run :=
  match call EvMakeReduced makeReduced r with
  | (Returned true, r1) => call EvSolveReduced solveReduced r1
  | (Returned false, r1) => (Returned false, r1)
  | (Raised e, r1) => (Raised e, r1)
  end.

(** [if (SP.makeReduced() && SP.solveReduced()) { SP.embed(); } else
    { return false; }]: the result tells which branch was taken. *)
Definition embed_if_solved (r : run) : outcome Exn bool * run :=
  match makeReduced_and_solveReduced r with
  | (Returned true, r1) =>
      match call EvEmbed embed r1 with
      | (Returned _, r2) => (Returned true, r2)
      | (Raised e, r2) => (Raised e, r2)
      end
  | (Returned false, r1) => (Returned false, r1)
  | (Raised e, r1) => (Raised e, r1)
  end.

(** Collaborators of [clusterPlanarEmbed]: the default constructor of
    [Graph], the graph a cluster graph is defined over, the copy constructor
    of [ClusterGraph] (which fills [Gcopy], whose address it is given, and
    [copyC]), the inverse [origE] of the edge copy map, and the writes of the
    success path. *)
Variable emptyGraph : Graph.
Variable constGraph : ClusterGraph → nat.
Variable copyClusterGraph : ClusterGraph → Graph → Graph → nat → Graph * ClusterGraph.
Variable clusters : ClusterGraph → list Cluster.
Variable copyC : ClusterGraph → Cluster → Cluster.
Variable origE_mapEndpoint : Graph → Graph → AdjEntry → AdjEntry.
Variable adjAvailable : ClusterGraph → bool → ClusterGraph.
Variable copyEmbedding : Graph → Graph → (AdjEntry → AdjEntry) → Graph.
Variable cluster_adjEntries : ClusterGraph → Cluster → list AdjEntry.
Variable set_cluster_adjEntries : ClusterGraph → Cluster → list AdjEntry → ClusterGraph.

Definition map_pair (f : AdjEntry → AdjEntry) (p : AdjEntry * AdjEntry) :=
  (f p.1, f p.2).

(** The end of the scope of the locals [Gcopy] and [CGcopy], by [return]
    or by an exception passing through. *)
Definition destroy_locals (Gcopy CGcopy : nat) (σ : store) : store :=
  {| graphs := delete Gcopy (graphs σ);
     clusterGraphs := delete CGcopy (clusterGraphs σ);
     augmentations := augmentations σ |}.

(** [clusterPlanarEmbed(CG, G)] of a module whose [m_augmentation] member
    is the given pointer.  [None] is the failure of the assertion or the use
    of a pointer that is not the address of an object. *)
Definition clusterPlanarEmbed (m_augmentation : option nat) (CG G : nat)
    (σ : store) : option (outcome Exn bool * store * list event) :=
  cg ← clusterGraphs σ !! CG;
  g ← graphs σ !! G;
  if decide (constGraph cg = G) then
    let Gcopy := fresh (dom (graphs σ)) in
    let CGcopy := fresh (dom (clusterGraphs σ)) in
    let '(gcopy, cgcopy) := copyClusterGraph cg g emptyGraph Gcopy in
    let origE := origE_mapEndpoint g gcopy in
    let σ1 := {| graphs := <[Gcopy := gcopy]> (graphs σ);
                 clusterGraphs := <[CGcopy := cgcopy]> (clusterGraphs σ);
                 augmentations := augmentations σ |} in
    let '(e, σ2) := SyncPlan_new Gcopy CGcopy m_augmentation σ1 in
    let '(o, r) :=
      embed_if_solved
        {| run_SP := {| SP_G := Gcopy; SP_CG := CGcopy;
                        SP_augmentation := m_augmentation; SP_engine := e |};
           run_store := σ2; run_trace := [] |} in
    let σ3 := run_store r in
    match o with
    | Returned true =>
        cg1 ← clusterGraphs σ3 !! CG;
        g1 ← graphs σ3 !! G;
        gcopy' ← graphs σ3 !! Gcopy;
        cgcopy' ← clusterGraphs σ3 !! CGcopy;
        let cg2 := adjAvailable cg1 true in
        let g2 := copyEmbedding gcopy' g1 origE in
        let cg3 :=
          foldl (fun cg' c =>
                   set_cluster_adjEntries cg' c
                     (origE <$> cluster_adjEntries cgcopy' (copyC cg c)))
                cg2 (clusters cg2) in
        augs ← match m_augmentation with
               | Some a =>
                   v ← augmentations σ3 !! a;
                   Some (<[a := map_pair origE <$> v]> (augmentations σ3))
               | None => Some (augmentations σ3)
               end;
        Some (Returned true,
              destroy_locals Gcopy CGcopy
                {| graphs := <[G := g2]> (graphs σ3);
                   clusterGraphs := <[CG := cg3]> (clusterGraphs σ3);
                   augmentations := augs |},
              run_trace r)
    | _ => Some (o, destroy_locals Gcopy CGcopy σ3, run_trace r)
    end
  else None.

(** *** What the engine may write *)

(** Between [σ] and [σ'] no graph other than the one at [g] and no cluster
    graph other than the one at [cg] was written, created or destroyed. *)
Definition writes_only (g cg : nat) (σ σ' : store) : Prop :=
  (∀ a, a ≠ g → graphs σ' !! a = graphs σ !! a)
  ∧ (∀ a, a ≠ cg → clusterGraphs σ' !! a = clusterGraphs σ !! a).

(** The engine reaches graphs and cluster graphs only through the two
    pointers its constructor was given. *)
Definition confined : Prop :=
  (∀ g cg aug σ, writes_only g cg σ (SyncPlan_new g cg aug σ).2)
  ∧ (∀ sp σ, writes_only (SP_G sp) (SP_CG sp) σ (makeReduced sp σ).2)
  ∧ (∀ sp σ, writes_only (SP_G sp) (SP_CG sp) σ (solveReduced sp σ).2)
  ∧ (∀ sp σ, writes_only (SP_G sp) (SP_CG sp) σ (embed sp σ).2).

Lemma writes_only_refl g cg σ : writes_only g cg σ σ.
Proof. by split. Qed.

Lemma writes_only_trans g cg σ1 σ2 σ3 :
  writes_only g cg σ1 σ2 → writes_only g cg σ2 σ3 → writes_only g cg σ1 σ3.
Proof.
  intros [H1 H2] [H3 H4]. split; intros a Ha.
  - by rewrite H3, H1.
  - by rewrite H4, H2.
Qed.

(** A call keeps the pointers of the object and appends its event. *)
Lemma call_spec {A} (ev : event)
    (f : SyncPlan → store → outcome Exn A * Engine * store) (r : run) :
  (∀ sp σ, writes_only (SP_G sp) (SP_CG sp) σ (f sp σ).2) →
  let r' := (call ev f r).2 in
  SP_G (run_SP r') = SP_G (run_SP r)
  ∧ SP_CG (run_SP r') = SP_CG (run_SP r)
  ∧ run_trace r' = run_trace r ++ [ev]
  ∧ writes_only (SP_G (run_SP r)) (SP_CG (run_SP r)) (run_store r) (run_store r').
Proof.
  intros Hf. unfold call. specialize (Hf (run_SP r) (run_store r)).
  destruct (f (run_SP r) (run_store r)) as [[o e] σ]. simpl. by split_and!.
Qed.

Lemma call_trace {A} (ev : event)
    (f : SyncPlan → store → outcome Exn A * Engine * store) (r : run) :
  run_trace (call ev f r).2 = run_trace r ++ [ev].
Proof.
  unfold call. by destruct (f (run_SP r) (run_store r)) as [[o e] σ].
Qed.

Lemma embed_if_solved_confined (r : run) :
  confined →
  let r' := (embed_if_solved r).2 in
  writes_only (SP_G (run_SP r)) (SP_CG (run_SP r)) (run_store r) (run_store r').
Proof.
  intros (_ & Hmr & Hsr & Hem). unfold embed_if_solved, makeReduced_and_solveReduced.
  pose proof (call_spec EvMakeReduced makeReduced r Hmr) as (HG1 & HC1 & _ & Hw1).
  destruct (call EvMakeReduced makeReduced r) as [[[]|e1] r1]; simpl in *; try done.
  pose proof (call_spec EvSolveReduced solveReduced r1 Hsr) as (HG2 & HC2 & _ & Hw2).
  rewrite HG1, HC1 in Hw2. rewrite HG1 in HG2. rewrite HC1 in HC2.
  destruct (call EvSolveReduced solveReduced r1) as [[[]|e2] r2]; simpl in *;
    try (by eapply writes_only_trans).
  pose proof (call_spec EvEmbed embed r2 Hem) as (_ & _ & _ & Hw3).
  rewrite HG2, HC2 in Hw3.
  destruct (call EvEmbed embed r2) as [[u|e3] r3]; simpl in *;
    eapply writes_only_trans; try done; by eapply writes_only_trans.
Qed.

Lemma embed_if_solved_on_copies_trace (r : run) :
  run_trace r = [] →
  protocol true (run_trace (embed_if_solved r).2)
  ∧ ((embed_if_solved r).1 = Returned true →
     run_trace (embed_if_solved r).2 = [EvMakeReduced; EvSolveReduced; EvEmbed]).
Proof.
  intros Hr. unfold embed_if_solved, makeReduced_and_solveReduced, protocol.
  pose proof (call_trace EvMakeReduced makeReduced r) as H1. rewrite Hr in H1.
  destruct (call EvMakeReduced makeReduced r) as [[[]|e1] r1]; simpl in *;
    [|by split; [left|]..].
  pose proof (call_trace EvSolveReduced solveReduced r1) as H2. rewrite H1 in H2.
  destruct (call EvSolveReduced solveReduced r1) as [[[]|e2] r2]; simpl in *;
    [|by split; [right; left|]..].
  pose proof (call_trace EvEmbed embed r2) as H3. rewrite H2 in H3.
  destruct (call EvEmbed embed r2) as [[u|e3] r3]; simpl in *;
    (split; [by right; right | done]).
Qed.

(** C9. [clusterPlanarEmbed] is atomic on failure.  The engine is built on
    the locals [Gcopy] and [CGcopy], whose addresses are not those of the
    caller's objects, and the caller's objects are written after [embed]
    only.  So, for an engine that reaches graphs and cluster graphs through
    the pointers of its constructor only, a call that does not return [true]
    (it returns [false], or an exception of the engine passes through)
    leaves every graph and every cluster graph of the store as it was, the
    caller's among them; the locals are gone. *)
Theorem clusterPlanarEmbed_atomic_on_failure (m_augmentation : option nat)
    (CG G : nat) (σ σ' : store) (o : outcome Exn bool) (t : list event) :
  confined →
  clusterPlanarEmbed m_augmentation CG G σ = Some (o, σ', t) →
  o ≠ Returned true →
  graphs σ' = graphs σ ∧ clusterGraphs σ' = clusterGraphs σ.
Proof.
  intros Hconf Hrun Ho. unfold clusterPlanarEmbed in Hrun.
  destruct (clusterGraphs σ !! CG) as [cg|]; [|done].
  destruct (graphs σ !! G) as [g|]; [|done]. simpl in Hrun.
  destruct (decide (constGraph cg = G)) as [_|]; [|done].
  set (Gcopy := fresh (dom (graphs σ))) in *.
  set (CGcopy := fresh (dom (clusterGraphs σ))) in *.
  assert (HG : graphs σ !! Gcopy = None).
  { apply not_elem_of_dom, is_fresh. }
  assert (HC : clusterGraphs σ !! CGcopy = None).
  { apply not_elem_of_dom, is_fresh. }
  destruct (copyClusterGraph cg g emptyGraph Gcopy) as [gcopy cgcopy].
  pose proof Hconf as (Hnew & _).
  specialize (Hnew Gcopy CGcopy m_augmentation
                {| graphs := <[Gcopy := gcopy]> (graphs σ);
                   clusterGraphs := <[CGcopy := cgcopy]> (clusterGraphs σ);
                   augmentations := augmentations σ |}).
  destruct (SyncPlan_new _ _ _ _) as [e σ2]. simpl in Hnew.
  pose proof (embed_if_solved_confined
                {| run_SP := {| SP_G := Gcopy; SP_CG := CGcopy;
                                SP_augmentation := m_augmentation; SP_engine := e |};
                   run_store := σ2; run_trace := [] |} Hconf) as Hrest.
  simpl in Hrest.
  destruct (embed_if_solved _) as [o' r]. simpl in Hrest.
  destruct (writes_only_trans _ _ _ _ _ Hnew Hrest) as [Hg Hc]. simpl in Hg, Hc.
  assert (o' = o ∧ σ' = destroy_locals Gcopy CGcopy (run_store r)) as [-> ->].
  { destruct o' as [[]|e']; [|by simplify_eq..].
    exfalso. apply Ho.
    repeat match type of Hrun with
           | (?m ≫= _) = Some _ => destruct m; simpl in Hrun; [|done]
           end.
    by simplify_eq. }
  simpl. split; apply map_eq; intros a.
  - destruct (decide (a = Gcopy)) as [->|Ha].
    + by rewrite lookup_delete_eq, HG.
    + by rewrite lookup_delete_ne, Hg, lookup_insert_ne.
  - destruct (decide (a = CGcopy)) as [->|Ha].
    + by rewrite lookup_delete_eq, HC.
    + by rewrite lookup_delete_ne, Hc, lookup_insert_ne.
Qed.

End Copies.

End ClusterPlanarEmbed.

(** A run in which [makeReduced] fails after the constructor and the
    reduction have already rewritten the graph they were given. *)
Module DriverExample.
Import ClusterPlanarityModule.

Definition SyncPlan_new (G CG : nat) (aug : option (list (nat * nat)))
  : @SyncPlan nat nat unit nat :=
  {| sp_G := G + 2; sp_CG := CG; sp_augmentation := match aug with Some _ => Some [] | None => None end;
     sp_engine := tt |}.

Definition makeReduced (sp : @SyncPlan nat nat unit nat)
  : outcome unit bool * @SyncPlan nat nat unit nat :=
  (Returned (sp_CG sp =? 0),
   {| sp_G := sp_G sp + 1; sp_CG := sp_CG sp;
      sp_augmentation := sp_augmentation sp; sp_engine := tt |}).

Definition solveReduced (sp : @SyncPlan nat nat unit nat)
  : outcome unit bool * @SyncPlan nat nat unit nat :=
  (Returned true, sp).

Definition embed (sp : @SyncPlan nat nat unit nat)
  : outcome unit unit * @SyncPlan nat nat unit nat :=
  (Returned tt, sp).

Definition input : @caller nat nat nat :=
  {| c_G := 7; c_CG := 5; m_augmentation := Some [(1, 2)] |}.

(** The destructive entry point changes the caller's graph also when it
    returns [false]. *)
Example isClusterPlanarDestructive_changes_G :
  isClusterPlanarDestructive SyncPlan_new makeReduced solveReduced input
  = (Returned false, {| c_G := 10; c_CG := 5; m_augmentation := Some [(1, 2)] |},
     [EvMakeReduced]).
Proof. reflexivity. Qed.

End DriverExample.

(** The same engine on a store: a graph is a number, a cluster graph a
    number with the address of its graph.  The constructor adds 2 to the
    graph it is given and clears the augmentation vector, [makeReduced]
    adds 1 and succeeds on the cluster graphs that hold 0. *)
Module CopiesExample.
Import ClusterPlanarityModule ClusterPlanarEmbed.

Abbreviation store := (@ClusterPlanarEmbed.store nat (nat * nat) nat).
Abbreviation SyncPlan := (@ClusterPlanarEmbed.SyncPlan unit).

Definition SyncPlan_new (g cg : nat) (aug : option nat) (σ : store)
  : unit * store :=
  (tt, {| graphs := alter (fun x => x + 2) g (graphs σ);
          clusterGraphs := clusterGraphs σ;
          augmentations := match aug with
                           | Some a => alter (fun _ => []) a (augmentations σ)
                           | None => augmentations σ
                           end |}).

Definition makeReduced (sp : SyncPlan) (σ : store)
  : outcome unit bool * unit * store :=
  (Returned (bool_decide (fst <$> clusterGraphs σ !! SP_CG sp = Some 0)), tt,
   {| graphs := alter (fun x => x + 1) (SP_G sp) (graphs σ);
      clusterGraphs := clusterGraphs σ;
      augmentations := augmentations σ |}).

Definition solveReduced (sp : SyncPlan) (σ : store)
  : outcome unit bool * unit * store := (Returned true, tt, σ).

Definition embed (sp : SyncPlan) (σ : store)
  : outcome unit unit * unit * store := (Returned tt, tt, σ).

Definition run_clusterPlanarEmbed :=
  clusterPlanarEmbed (Cluster := nat) SyncPlan_new makeReduced solveReduced embed
    0 snd (fun cg g _ Gcopy => (g, (cg.1, Gcopy))) (fun _ => [0]) (fun _ c => c)
    (fun _ _ adj => adj + 100) (fun cg _ => cg) (fun gcopy _ _ => gcopy)
    (fun _ _ => []) (fun cg _ _ => cg).

(** The caller's graph 7 at address 10, a cluster graph over it at address
    20, an augmentation vector at address 30. *)
Definition σ0 (content : nat) : store :=
  {| graphs := {[ 10 := 7 ]};
     clusterGraphs := {[ 20 := (content, 10) ]};
     augmentations := {[ 30 := [(1, 2)] ]} |}.

Lemma engine_confined : confined SyncPlan_new makeReduced solveReduced embed.
Proof.
  split_and!; intros; split; intros a Ha; simpl; try done;
    by rewrite lookup_alter_ne.
Qed.

Lemma clusterPlanarEmbed_atomic_on_failure_witness :
  confined SyncPlan_new makeReduced solveReduced embed
  ∧ ∃ σ',
      run_clusterPlanarEmbed (Some 30) 20 10 (σ0 5)
      = Some (Returned false, σ', [EvMakeReduced])
      ∧ graphs σ' = graphs (σ0 5) ∧ clusterGraphs σ' = clusterGraphs (σ0 5).
Proof.
  split; [exact engine_confined|].
  eexists. split; [vm_compute; reflexivity|].
  apply (clusterPlanarEmbed_atomic_on_failure (Cluster := nat)
           SyncPlan_new makeReduced solveReduced embed
           0 snd (fun cg g _ Gcopy => (g, (cg.1, Gcopy))) (fun _ => [0])
           (fun _ c => c) (fun _ _ adj => adj + 100) (fun cg _ => cg)
           (fun gcopy _ _ => gcopy) (fun _ _ => []) (fun cg _ _ => cg)
           (Some 30) 20 10 (σ0 5) _ (Returned false) [EvMakeReduced]
           engine_confined).
  - vm_compute. reflexivity.
  - discriminate.
Defined.

(** The failing call has cleared the caller's augmentation vector: the
    engine is given the caller's own vector, not a copy. *)
Example failure_clears_augmentation :
  (fun res => augmentations res.1.2 !! 30)
    <$> run_clusterPlanarEmbed (Some 30) 20 10 (σ0 5)
  = Some (Some []).
Proof. vm_compute. reflexivity. Qed.

(** On a cluster graph that holds 0 the call succeeds and the caller's graph
    receives the embedding of the copy, on which the constructor and
    [makeReduced] have worked. *)
Example success_writes_G :
  (fun res => (res.1.1, graphs res.1.2 !! 10, dom (graphs res.1.2), res.2))
    <$> run_clusterPlanarEmbed (Some 30) 20 10 (σ0 0)
  = Some (Returned true, Some 10, {[ 10 ]},
          [EvMakeReduced; EvSolveReduced; EvEmbed]).
Proof. vm_compute. reflexivity. Qed.

End CopiesExample.

(** ** [FilteringBFS] *)

Module FilteringBFS.

Section BFS.
(** The graph being searched: [n->adjEntries] and [adj->twinNode()].  The
    search never changes it. *)
Context {adjEntry : Type}.
Variable adjEntries : nat → list adjEntry.
Variable twinNode : adjEntry → nat.

(** [m_visited] is a [NodeArray<bool>] initialised to [false]; it is kept as
    the set of nodes whose flag is [true]. *)
Record FilteringBFS : Type := mkBFS {
  m_pending : list nat;
  m_visited : gset nat;
  m_visit : adjEntry → bool;
  m_descend : nat → bool;
}.

(** [FilteringBFS()]. *)
Definition default_bfs : FilteringBFS :=
  {| m_pending := []; m_visited := ∅;
     m_visit := fun _ => true; m_descend := fun _ => true |}.

(** [FilteringBFS(G, nodes, visit, descend_from)], for a container as for an
    initializer list: the queue holds [nodes] in order. *)
Definition new_bfs (nodes : list nat) (visit : adjEntry → bool)
    (descend_from : nat → bool) : FilteringBFS :=
  {| m_pending := foldl (fun q n => q ++ [n]) [] nodes; m_visited := ∅;
     m_visit := visit; m_descend := descend_from |}.

Definition hasVisited (b : FilteringBFS) (n : nat) : bool :=
  bool_decide (n ∈ m_visited b).

Definition valid (b : FilteringBFS) : bool :=
  match m_pending b with [] => false | _ :: _ => true end.

(** [current()]; [None] is the failure of [OGDF_ASSERT(!m_pending.empty())]. *)
Definition current (b : FilteringBFS) : option nat := head (m_pending b).

(** The loop [while (!m_pending.empty() && m_visited[m_pending.top()])
    m_pending.pop()]. *)
Fixpoint drain (visited : gset nat) (pending : list nat) : list nat :=
  match pending with
  | [] => []
  | top :: rest =>
      if bool_decide (top ∈ visited) then drain visited rest else pending
  end.

(** One round of [for (adjEntry adj : n->adjEntries)] in [next()]. *)
Definition enqueue (visited : gset nat) (visit : adjEntry → bool)
    (pending : list nat) (adj : adjEntry) : list nat :=
  let twin := twinNode adj in
  if negb (bool_decide (twin ∈ visited)) && visit adj
  then pending ++ [twin] else pending.

(** [next()]; [None] is the failure of one of its two assertions. *)
Definition next (b : FilteringBFS) : option FilteringBFS :=
  match m_pending b with
  | [] => None
  | n :: rest =>
      if bool_decide (n ∈ m_visited b) then None
      else
        let visited := {[n]} ∪ m_visited b in
        let pending :=
          if m_descend b n
          then foldl (enqueue visited (m_visit b)) rest (adjEntries n)
          else rest in
        Some {| m_pending := drain visited pending; m_visited := visited;
                m_visit := m_visit b; m_descend := m_descend b |}
  end.

Definition append (n : nat) (b : FilteringBFS) : FilteringBFS :=
  {| m_pending := m_pending b ++ [n]; m_visited := m_visited b ∖ {[n]};
     m_visit := m_visit b; m_descend := m_descend b |}.

Definition setVisitFilter (mVisit : adjEntry → bool) (b : FilteringBFS) : FilteringBFS :=
  {| m_pending := m_pending b; m_visited := m_visited b;
     m_visit := mVisit; m_descend := m_descend b |}.

Definition setDescendFilter (mDescend : nat → bool) (b : FilteringBFS) : FilteringBFS :=
  {| m_pending := m_pending b; m_visited := m_visited b;
     m_visit := m_visit b; m_descend := mDescend |}.

(** The states a client can bring a search into. *)
Inductive reachable : FilteringBFS → Prop :=
  | reach_default : reachable default_bfs
  | reach_new nodes visit descend : reachable (new_bfs nodes visit descend)
  | reach_next b b' : reachable b → next b = Some b' → reachable b'
  | reach_append b n : reachable b → reachable (append n b)
  | reach_setVisitFilter b f : reachable b → reachable (setVisitFilter f b)
  | reach_setDescendFilter b f : reachable b → reachable (setDescendFilter f b).

(** The iterator loop [for (node n : bfs)]: [*it] while [it != end], then
    [++it].  It calls [next()] only; [fuel] bounds the number of rounds. *)
Fixpoint traverse (fuel : nat) (b : FilteringBFS) : list nat :=
  match fuel with
  | 0 => []
  | S fuel' =>
      match current b with
      | None => []
      | Some n =>
          n :: match next b with
               | Some b' => traverse fuel' b'
               | None => []
               end
      end
  end.

(** The invariant: a non-empty queue starts with an unvisited node. *)
Definition front_unvisited (b : FilteringBFS) : Prop :=
  ∀ n, current b = Some n → n ∉ m_visited b.

Lemma pending_of_new (nodes : list nat) :
  foldl (fun q n => q ++ [n]) [] nodes = nodes.
Proof.
  enough (∀ q, foldl (fun q n => q ++ [n]) q nodes = q ++ nodes) as H by apply H.
  induction nodes as [|n nodes IH]; intros q; simpl.
  - by rewrite app_nil_r.
  - by rewrite IH, <- app_assoc.
Qed.

Lemma drain_front visited pending n :
  head (drain visited pending) = Some n → n ∉ visited.
Proof.
  induction pending as [|top rest IH]; simpl; [done|].
  case_bool_decide as Hv; [done|]. by intros [= <-].
Qed.

Lemma front_unvisited_next b b' :
  next b = Some b' → front_unvisited b'.
Proof.
  unfold next. destruct (m_pending b) as [|n rest]; [done|].
  case_bool_decide; [done|]. intros [= <-] m. simpl. apply drain_front.
Qed.

Lemma front_unvisited_append b n :
  front_unvisited b → front_unvisited (append n b).
Proof.
  unfold front_unvisited, current, append; simpl. intros Hb m.
  destruct (m_pending b) as [|top rest]; simpl.
  - intros [= <-]. rewrite elem_of_difference, elem_of_singleton. tauto.
  - intros [= <-]. specialize (Hb top eq_refl).
    rewrite elem_of_difference. tauto.
Qed.

Lemma front_unvisited_reachable b : reachable b → front_unvisited b.
Proof.
  induction 1 as [|nodes visit descend|b b' _ _ Hn|b n _ IH|b f _ IH|b f _ IH].
  - by intros n.
  - intros n _. simpl. apply not_elem_of_empty.
  - by eapply front_unvisited_next.
  - by apply front_unvisited_append.
  - exact IH.
  - exact IH.
Qed.

(** Under the invariant the two assertions of [next()] hold whenever the
    queue is not empty, and [next()] flags exactly the node it pops. *)
Lemma next_defined b n :
  front_unvisited b → current b = Some n →
  ∃ b', next b = Some b' ∧ m_visited b' = {[n]} ∪ m_visited b.
Proof.
  unfold front_unvisited, current, next. intros Hb Hc.
  destruct (m_pending b) as [|top rest]; [done|]. simpl in *.
  injection Hc as ->. specialize (Hb n eq_refl).
  rewrite bool_decide_eq_false_2 by done. eauto.
Qed.

Lemma traverse_fresh fuel b :
  front_unvisited b →
  NoDup (traverse fuel b) ∧ ∀ n, n ∈ traverse fuel b → n ∉ m_visited b.
Proof.
  revert b. induction fuel as [|fuel IH]; intros b Hb; simpl.
  - split; [constructor | by intros n ?%elem_of_nil].
  - destruct (current b) as [n|] eqn:Hc.
    2: { split; [constructor | by intros n ?%elem_of_nil]. }
    destruct (next_defined b n Hb Hc) as (b' & Hn & Hv). rewrite Hn.
    destruct (IH b' (front_unvisited_next _ _ Hn)) as [Hnd Hfresh].
    split.
    + constructor; [|done]. intros Hin%Hfresh. apply Hin. rewrite Hv.
      apply elem_of_union_l. by apply elem_of_singleton.
    + intros m [->|Hin%Hfresh]%elem_of_cons; [by apply Hb|].
      intros Hm. apply Hin. rewrite Hv. by apply elem_of_union_r.
Qed.

(** C10. In every state a client can reach, a non-empty queue starts with an
    unvisited node, so [current()] never returns a visited node and the
    assertions of [next()] hold; in a traversal that only calls [next()], no
    node is returned by [current()] twice, and none that was already
    visited. *)
Theorem current_never_visited (b : FilteringBFS) :
  reachable b →
  (∀ n, current b = Some n → hasVisited b n = false)
  ∧ (valid b = true →
     ∃ n b', current b = Some n ∧ next b = Some b'
             ∧ m_visited b' = {[n]} ∪ m_visited b
             ∧ ∀ m, current b' = Some m → hasVisited b' m = false)
  ∧ (∀ fuel, NoDup (traverse fuel b)
             ∧ ∀ n, n ∈ traverse fuel b → hasVisited b n = false).
Proof.
  intros Hr. pose proof (front_unvisited_reachable b Hr) as Hb.
  unfold hasVisited. split_and!.
  - intros n Hc. apply bool_decide_eq_false_2. by apply Hb.
  - unfold valid. intros Hv.
    destruct (m_pending b) as [|n rest] eqn:Hp; [done|].
    assert (Hc : current b = Some n) by (unfold current; by rewrite Hp).
    destruct (next_defined b n Hb Hc) as (b' & Hn & Hvis).
    exists n, b'. split_and!; try done.
    intros m Hm. apply bool_decide_eq_false_2.
    by apply (front_unvisited_next _ _ Hn).
  - intros fuel. destruct (traverse_fresh fuel b Hb) as [Hnd Hfresh].
    split; [done|]. intros n Hin. apply bool_decide_eq_false_2. by apply Hfresh.
Qed.

End BFS.

End FilteringBFS.

(** A search of the triangle on 0, 1, 2. *)
Module BFSExample.
Import FilteringBFS.

Definition adjEntries (n : nat) : list (nat * nat) :=
  if decide (n < 3) then [(n, (n + 1) mod 3); (n, (n + 2) mod 3)] else [].

Definition twinNode (adj : nat * nat) : nat := adj.2.

Definition start : FilteringBFS (adjEntry := nat * nat) :=
  new_bfs [0] (fun _ => true) (fun _ => true).

Example triangle_order : traverse adjEntries twinNode 10 start = [0; 1; 2].
Proof. vm_compute. reflexivity. Qed.

(** With [append] a node comes back: the flag of 0 is reset. *)
Example append_revisits :
  (next adjEntries twinNode start ≫= fun b =>
   next adjEntries twinNode (append 0 b) ≫= fun b' =>
   next adjEntries twinNode b' ≫= current)
  = Some 0.
Proof. vm_compute. reflexivity. Qed.

Lemma current_never_visited_witness :
  reachable adjEntries twinNode start
  ∧ (∀ fuel, NoDup (traverse adjEntries twinNode fuel start)
             ∧ ∀ n, n ∈ traverse adjEntries twinNode fuel start →
                    hasVisited start n = false).
Proof.
  split; [apply reach_new|].
  apply (current_never_visited adjEntries twinNode start (reach_new _ _ _ _ _)).
Defined.

End BFSExample.

(** ** [NodeSPQRRotation::mapGraph] *)

Module NodeSPQRRotation.

Inductive PCNodeType : Type := PNode | CNode | Leaf.

#[global] Instance PCNodeType_eq_dec : EqDecision PCNodeType.
Proof. solve_decision. Defined.

(** A [PCNode] together with the part of the tree below it.  [index] is the
    node's slot in the arrays registered with the tree. *)
#[warnings="-register-all"]
Inductive PCNode : Type :=
  | mkPCNode (index : nat) (nodeType : PCNodeType) (children : list PCNode).

Definition index (p : PCNode) : nat :=
  match p with mkPCNode i _ _ => i end.

Definition nodeType (p : PCNode) : PCNodeType :=
  match p with mkPCNode _ t _ => t end.

Definition children (p : PCNode) : list PCNode :=
  match p with mkPCNode _ _ cs => cs end.

(** Modelled from the spec: [pc_tree::FilteringPCTreeDFS] (PCTreeIterators.h
    is not among the sources).  With its default filters the walk started at
    a node yields that node and every node below it, each once; the order in
    which it does so plays no role in [mapGraph]. *)
Fixpoint FilteringPCTreeDFS (start : PCNode) : list PCNode :=
  match start with
  | mkPCNode _ _ cs => start :: concat (map FilteringPCTreeDFS cs)
  end.

(** Graph handles; [None] is [nullptr]. *)
Definition node : Type := option nat.
Definition edge : Type := option nat.
Definition graph_ptr : Type := option nat.

(** The members of [NodePCRotation] that [mapGraph] reads or writes.
    [m_rootNode] is the PC-tree ([None] for an empty tree); the two handle
    arrays hold [nullptr] where nothing was stored, the bundle array an empty
    list. *)
Record NodePCRotation : Type := mkRotation {
  m_G : graph_ptr;
  m_n : node;
  m_rootNode : option PCNode;
  m_graphNodeForInnerNode : gmap nat node;
  m_incidentEdgeForLeaf : gmap nat edge;
  knowsPartnerEdges : bool;
  m_bundleEdgesForLeaf : gmap nat (list edge);
}.

Definition nodes_of_tree (r : NodePCRotation) : list PCNode :=
  match m_rootNode r with
  | Some root => FilteringPCTreeDFS root
  | None => []
  end.

(** Modelled from the spec: [PCTree::getLeaves()] (PCTree.h is not among the
    sources): the nodes of the tree whose type is [Leaf]. *)
Definition getLeaves (r : NodePCRotation) : list PCNode :=
  filter (fun p => nodeType p = Leaf) (nodes_of_tree r).

Section MapGraph.
Variable nodes : node → node.
Variable edges : edge → edge.

(** Body of the first loop: [node& gn = m_graphNodeForInnerNode[n]; if (gn !=
    nullptr) gn = nodes(gn);]. *)
Definition map_inner (arr : gmap nat node) (n : PCNode) : gmap nat node :=
  match arr !!! index n with
  | Some h => <[index n := nodes (Some h)]> arr
  | None => arr
  end.

(** Body of the second loop. *)
Definition map_leaf (knows : bool)
    (arrs : gmap nat edge * gmap nat (list edge)) (l : PCNode)
  : gmap nat edge * gmap nat (list edge) :=
  let ie :=
    match arrs.1 !!! index l with
    | Some e => <[index l := edges (Some e)]> arrs.1
    | None => arrs.1
    end in
  let be :=
    if knows then <[index l := edges <$> (arrs.2 !!! index l)]> arrs.2
    else arrs.2 in
  (ie, be).

(** [mapGraph(G, nodes, edges)]; [None] is the failure of
    [OGDF_ASSERT(G != nullptr)]. *)
Definition mapGraph (G : graph_ptr) (r : NodePCRotation) : option NodePCRotation :=
  match G with
  | None => None
  | Some _ =>
      let gn := foldl map_inner (m_graphNodeForInnerNode r) (nodes_of_tree r) in
      let arrs :=
        foldl (map_leaf (knowsPartnerEdges r))
              (m_incidentEdgeForLeaf r, m_bundleEdgesForLeaf r) (getLeaves r) in
      Some {| m_G := G; m_n := nodes (m_n r); m_rootNode := m_rootNode r;
              m_graphNodeForInnerNode := gn;
              m_incidentEdgeForLeaf := arrs.1;
              knowsPartnerEdges := knowsPartnerEdges r;
              m_bundleEdgesForLeaf := arrs.2 |}
  end.

(** What the guarded assignments do to a handle. *)
Definition map_handle (f : option nat → option nat) (h : option nat) : option nat :=
  match h with Some x => f (Some x) | None => None end.

(** Distinct nodes of a PC-tree have distinct indices. *)
Definition distinct_indices (r : NodePCRotation) : Prop :=
  NoDup (index <$> nodes_of_tree r).

#[global] Instance distinct_indices_dec r : Decision (distinct_indices r).
Proof. unfold distinct_indices. apply _. Defined.

End MapGraph.

(** *** Updating an array slot by slot *)

Section Slots.
Context {V : Type} `{!Inhabited V}.
Variable g : V → V.
Variable step : gmap nat V → nat → gmap nat V.
Hypothesis step_at : ∀ arr k, step arr k !!! k = g (arr !!! k).
Hypothesis step_other : ∀ arr k j, k ≠ j → step arr k !!! j = arr !!! j.

Lemma foldl_step_other (ks : list nat) (arr : gmap nat V) (j : nat) :
  j ∉ ks → foldl step arr ks !!! j = arr !!! j.
Proof.
  revert arr. induction ks as [|k ks IH]; intros arr Hj; simpl; [done|].
  apply not_elem_of_cons in Hj as [Hne Hj].
  rewrite IH by done. by apply step_other.
Qed.

Lemma foldl_step_at (ks : list nat) (arr : gmap nat V) (j : nat) :
  NoDup ks → j ∈ ks → foldl step arr ks !!! j = g (arr !!! j).
Proof.
  revert arr. induction ks as [|k ks IH]; intros arr Hnd Hj; simpl.
  - by apply elem_of_nil in Hj.
  - apply NoDup_cons in Hnd as [Hk Hnd].
    apply elem_of_cons in Hj as [->|Hj].
    + rewrite foldl_step_other by done. apply step_at.
    + rewrite IH by done. f_equal. apply step_other. by intros ->.
Qed.

End Slots.

Section MapGraphFacts.
Variable nodes : node → node.
Variable edges : edge → edge.

Lemma foldl_by_index {A} (step : A → nat → A) (a : A) (l : list PCNode) :
  foldl (fun a p => step a (index p)) a l = foldl step a (index <$> l).
Proof. revert a. induction l as [|p l IH]; intros a; simpl; [done|]. apply IH. Qed.

Definition inner_slot (arr : gmap nat node) (i : nat) : gmap nat node :=
  match arr !!! i with
  | Some h => <[i := nodes (Some h)]> arr
  | None => arr
  end.

Definition leaf_slot (arr : gmap nat edge) (i : nat) : gmap nat edge :=
  match arr !!! i with
  | Some e => <[i := edges (Some e)]> arr
  | None => arr
  end.

Definition bundle_slot (arr : gmap nat (list edge)) (i : nat) : gmap nat (list edge) :=
  <[i := edges <$> (arr !!! i)]> arr.

Lemma inner_slot_at arr k : inner_slot arr k !!! k = map_handle nodes (arr !!! k).
Proof.
  unfold inner_slot. destruct (arr !!! k) as [h|] eqn:E; simpl.
  - by rewrite lookup_total_insert_eq.
  - done.
Qed.

Lemma inner_slot_other arr k j : k ≠ j → inner_slot arr k !!! j = arr !!! j.
Proof.
  intros. unfold inner_slot.
  destruct (arr !!! k); [by rewrite lookup_total_insert_ne|done].
Qed.

Lemma leaf_slot_at arr k : leaf_slot arr k !!! k = map_handle edges (arr !!! k).
Proof.
  unfold leaf_slot. destruct (arr !!! k) as [h|] eqn:E; simpl.
  - by rewrite lookup_total_insert_eq.
  - done.
Qed.

Lemma leaf_slot_other arr k j : k ≠ j → leaf_slot arr k !!! j = arr !!! j.
Proof.
  intros. unfold leaf_slot.
  destruct (arr !!! k); [by rewrite lookup_total_insert_ne|done].
Qed.

Lemma map_leaf_split knows ie be (ls : list PCNode) :
  foldl (map_leaf edges knows) (ie, be) ls
  = (foldl leaf_slot ie (index <$> ls),
     if knows then foldl bundle_slot be (index <$> ls) else be).
Proof.
  revert ie be. induction ls as [|l ls IH]; intros ie be; simpl.
  - by destruct knows.
  - unfold map_leaf at 2. simpl. rewrite IH. by destruct knows.
Qed.

Lemma leaves_distinct r : distinct_indices r → NoDup (index <$> getLeaves r).
Proof.
  unfold distinct_indices, getLeaves.
  induction (nodes_of_tree r) as [|p l IH]; simpl; [done|].
  rewrite NoDup_cons. intros [Hp Hl]. rewrite filter_cons.
  case_decide; simpl; [|by apply IH].
  apply NoDup_cons. split; [|by apply IH].
  intros (q & Hq & Hin)%list_elem_of_fmap. apply Hp.
  apply list_elem_of_fmap. exists q. split; [done|].
  by apply list_elem_of_filter in Hin as [_ ?].
Qed.

(** C8. After [mapGraph(G, nodes, edges)] the rotation refers to [G]; [m_n]
    is [nodes(m_n)]; the graph node stored for a PC-node of the tree is
    [nodes(h)] where it was a non-null [h], and still null where it was null;
    the incident edge stored for a leaf is [edges(e)] where it was a non-null
    [e] and still null where it was null; when partner edges are known every
    bundle edge of every leaf is mapped through [edges]; no other slot of the
    three arrays changes, and the PC-tree is the same. *)
Theorem mapGraph_remaps (G : nat) (r : NodePCRotation) :
  distinct_indices r →
  ∃ r', mapGraph nodes edges (Some G) r = Some r'
    ∧ m_G r' = Some G
    ∧ m_n r' = nodes (m_n r)
    ∧ m_rootNode r' = m_rootNode r
    ∧ getLeaves r' = getLeaves r
    ∧ knowsPartnerEdges r' = knowsPartnerEdges r
    ∧ (∀ p, p ∈ nodes_of_tree r →
         m_graphNodeForInnerNode r' !!! index p
         = map_handle nodes (m_graphNodeForInnerNode r !!! index p))
    ∧ (∀ i, i ∉ index <$> nodes_of_tree r →
         m_graphNodeForInnerNode r' !!! i = m_graphNodeForInnerNode r !!! i)
    ∧ (∀ l, l ∈ getLeaves r →
         m_incidentEdgeForLeaf r' !!! index l
         = map_handle edges (m_incidentEdgeForLeaf r !!! index l))
    ∧ (∀ i, i ∉ index <$> getLeaves r →
         m_incidentEdgeForLeaf r' !!! i = m_incidentEdgeForLeaf r !!! i)
    ∧ (knowsPartnerEdges r = true →
         (∀ l, l ∈ getLeaves r →
            m_bundleEdgesForLeaf r' !!! index l
            = edges <$> (m_bundleEdgesForLeaf r !!! index l))
         ∧ (∀ i, i ∉ index <$> getLeaves r →
            m_bundleEdgesForLeaf r' !!! i = m_bundleEdgesForLeaf r !!! i))
    ∧ (knowsPartnerEdges r = false →
         m_bundleEdgesForLeaf r' = m_bundleEdgesForLeaf r).
Proof.
  intros Hnd. pose proof (leaves_distinct r Hnd) as Hndl.
  eexists. split; [reflexivity|]. simpl.
  rewrite map_leaf_split. simpl.
  change (foldl (map_inner nodes)) with
    (foldl (fun a p => inner_slot a (index p))).
  rewrite foldl_by_index.
  split_and!; try done.
  - intros p Hp. apply (foldl_step_at (map_handle nodes) inner_slot);
      auto using inner_slot_at, inner_slot_other.
    by apply list_elem_of_fmap_2.
  - intros i Hi. apply (foldl_step_other inner_slot);
      auto using inner_slot_other.
  - intros l Hl. apply (foldl_step_at (map_handle edges) leaf_slot);
      auto using leaf_slot_at, leaf_slot_other.
    by apply list_elem_of_fmap_2.
  - intros i Hi. apply (foldl_step_other leaf_slot);
      auto using leaf_slot_other.
  - intros ->. split.
    + intros l Hl. apply (foldl_step_at (fmap edges) bundle_slot); try done.
      * intros arr k. unfold bundle_slot. by rewrite lookup_total_insert_eq.
      * intros arr k j Hne. unfold bundle_slot. by rewrite lookup_total_insert_ne.
      * by apply list_elem_of_fmap_2.
    + intros i Hi. apply (foldl_step_other bundle_slot); try done.
      intros arr k j Hne. unfold bundle_slot. by rewrite lookup_total_insert_ne.
  - by intros ->.
Qed.

End MapGraphFacts.

End NodeSPQRRotation.

(** A rotation whose PC-tree has a P-node root, a C-node below it and three
    leaves, remapped into a copy of the graph whose handles are shifted. *)
Module MapGraphExample.
Import NodeSPQRRotation.

Definition tree : PCNode :=
  mkPCNode 0 PNode
    [mkPCNode 1 Leaf []; mkPCNode 3 CNode [mkPCNode 4 Leaf []]; mkPCNode 2 Leaf []].

Definition rotation : NodePCRotation :=
  {| m_G := Some 0; m_n := Some 5; m_rootNode := Some tree;
     m_graphNodeForInnerNode := {[0 := Some 5; 3 := Some 6]};
     m_incidentEdgeForLeaf := {[1 := Some 10; 2 := None; 4 := Some 12]};
     knowsPartnerEdges := true;
     m_bundleEdgesForLeaf := {[1 := [Some 20; Some 21]; 4 := [Some 22]]} |}.

Definition nodes (h : node) : node := (fun x => x + 100) <$> h.
Definition edges (h : edge) : edge := (fun x => x + 1000) <$> h.

Example mapGraph_run :
  (fun r => (m_n r,
             (fun i => m_graphNodeForInnerNode r !!! i) <$> [0; 1; 3],
             (fun i => m_incidentEdgeForLeaf r !!! i) <$> [1; 2; 4],
             (fun i => m_bundleEdgesForLeaf r !!! i) <$> [1; 2; 4]))
    <$> mapGraph nodes edges (Some 1) rotation
  = Some (Some 105,
          [Some 105; None; Some 106],
          [Some 1010; None; Some 1012],
          [[Some 1020; Some 1021]; []; [Some 1022]]).
Proof. vm_compute. reflexivity. Qed.

Lemma mapGraph_remaps_witness :
  distinct_indices rotation
  ∧ ∃ r', mapGraph nodes edges (Some 1) rotation = Some r'
          ∧ m_n r' = Some 105
          ∧ m_rootNode r' = Some tree.
Proof.
  assert (Hd : distinct_indices rotation).
  { apply (bool_decide_unpack _). vm_compute. exact I. }
  split; [exact Hd|].
  destruct (mapGraph_remaps nodes edges 1 rotation Hd)
    as (r' & Hr & _ & Hn & Ht & _).
  exists r'. split; [exact Hr|]. split; [exact Hn | exact Ht].
Defined.

End MapGraphExample.


(** ** The [SyncPlan] constructor and [UndoInitCluster] *)

Module SyncPlan.

(** *** The graph *)

(** An adjacency entry, with the two fields the constructor reads: the node
    it belongs to and the node at the other end of its edge.  The direction
    of an edge plays no role here and is left out. *)
Record adjEntry : Type := mkAdj {
  theNode : nat;
  theEdge : nat;
  twinNode : nat;
}.

#[global] Instance adjEntry_eq_dec : EqDecision adjEntry.
Proof. solve_decision. Defined.

(** [adj->twin()]: the other half of the same edge. *)
Definition twin (adj : adjEntry) : adjEntry :=
  {| theNode := twinNode adj; theEdge := theEdge adj; twinNode := theNode adj |}.

(** Modelled from the spec: [Graph] (Graph.h is not among the sources), "a
    mutable node/edge set with adjacency-entry doubly linked lists per node".
    [nodes] is the list [G.nodes], [adjEntriesOf] holds [n->adjEntries] for
    every node, the two counters hand out indices. *)
Record Graph : Type := mkGraph {
  nodes : list nat;
  adjEntriesOf : gmap nat (list adjEntry);
  nodeIdCount : nat;
  edgeIdCount : nat;
}.

Definition adjEntries (G : Graph) (n : nat) : list adjEntry :=
  adjEntriesOf G !!! n.

Definition degree (G : Graph) (n : nat) : nat := length (adjEntries G n).

Definition set_adjEntries (G : Graph) (n : nat) (l : list adjEntry) : Graph :=
  {| nodes := nodes G; adjEntriesOf := <[n := l]> (adjEntriesOf G);
     nodeIdCount := nodeIdCount G; edgeIdCount := edgeIdCount G |}.

(** Modelled from the spec: [Graph::newNode()]: a node with the next free
    index and no incident edge. *)
Definition newNode (G : Graph) : nat * Graph :=
  (nodeIdCount G,
   {| nodes := nodes G ++ [nodeIdCount G];
      adjEntriesOf := <[nodeIdCount G := []]> (adjEntriesOf G);
      nodeIdCount := S (nodeIdCount G); edgeIdCount := edgeIdCount G |}).

(** Modelled from the spec: [Graph::delNode(v)], for a node whose edges have
    been moved away. *)
Definition delNode (G : Graph) (v : nat) : Graph :=
  {| nodes := filter (fun x => x ≠ v) (nodes G);
     adjEntriesOf := delete v (adjEntriesOf G);
     nodeIdCount := nodeIdCount G; edgeIdCount := edgeIdCount G |}.

(** Modelled from the spec: [Graph::reverseAdjEdges(v)]. *)
Definition reverseAdjEdges (G : Graph) (v : nat) : Graph :=
  set_adjEntries G v (reverse (adjEntries G v)).

(** In a list of adjacency entries, the entry of edge [e] gives way to
    [new]; the other entries keep their places. *)
Definition replace_entry (e : nat) (new : adjEntry) (l : list adjEntry)
  : list adjEntry :=
  (fun a => if decide (theEdge a = e) then new else a) <$> l.

(** Modelled from the spec: [splitEdge(G, adj, new_adj_to_node,
    new_adj_to_twin)] (GraphUtils.h is not among the sources), "every edge
    crossing the cluster boundary is rerouted to attach to cn/pn instead of
    its original endpoint".  The edge of [adj] is cut in two: the node of
    [adj] is now joined to [new_adj_to_node], the node of its twin to
    [new_adj_to_twin], by a new edge.  At the two old end points the entries
    keep their places in the cyclic order; the two new nodes receive their
    entries at the end of their lists. *)
Definition splitEdge (G : Graph) (adj : adjEntry)
    (new_adj_to_node new_adj_to_twin : nat) : Graph :=
  let m := theNode adj in
  let n := twinNode adj in
  let e := theEdge adj in
  let e' := edgeIdCount G in
  let G1 := set_adjEntries G m
              (replace_entry e (mkAdj m e new_adj_to_node) (adjEntries G m)) in
  let G2 := set_adjEntries G1 new_adj_to_node
              (adjEntries G1 new_adj_to_node ++ [mkAdj new_adj_to_node e m]) in
  let G3 := set_adjEntries G2 n
              (replace_entry e (mkAdj n e' new_adj_to_twin) (adjEntries G2 n)) in
  let G4 := set_adjEntries G3 new_adj_to_twin
              (adjEntries G3 new_adj_to_twin ++ [mkAdj new_adj_to_twin e' n]) in
  {| nodes := nodes G4; adjEntriesOf := adjEntriesOf G4;
     nodeIdCount := nodeIdCount G4; edgeIdCount := S e' |}.

(** *** The cluster graph *)

(** A cluster with the clusters below it. *)
#[warnings="-register-all"]
Inductive ClusterTree : Type :=
  | mkCluster (index : nat) (children : list ClusterTree).

Definition index (t : ClusterTree) : nat :=
  match t with mkCluster i _ => i end.

Definition children (t : ClusterTree) : list ClusterTree :=
  match t with mkCluster _ cs => cs end.

(** Modelled from the spec: the post-order list of the clusters that
    [firstPostOrderCluster()] and [pSucc()] walk, "children before parents,
    root last". *)
Fixpoint postOrder (t : ClusterTree) : list nat :=
  match t with
  | mkCluster i cs => concat (map postOrder cs) ++ [i]
  end.

(** The pairs (child, parent) of the tree. *)
Fixpoint child_parent (t : ClusterTree) : list (nat * nat) :=
  match t with
  | mkCluster i cs =>
      ((fun c => (index c, i)) <$> cs) ++ concat (map child_parent cs)
  end.

(** Modelled from the spec: [ClusterGraph] (ClusterGraph.h is not among the
    sources), "a rooted tree of clusters overlaid on the node set; each node
    belongs to exactly one cluster; each cluster owns a list of its
    directly-assigned nodes".  [cluster_nodes] holds [c->nodes] by cluster
    index, [m_nodeMap] is what [clusterOf] reads. *)
Record ClusterGraph : Type := mkClusterGraph {
  tree : ClusterTree;
  cluster_nodes : gmap nat (list nat);
  m_nodeMap : gmap nat nat;
}.

Definition rootCluster (cg : ClusterGraph) : nat := index (tree cg).

Definition clusterOf (cg : ClusterGraph) (v : nat) : option nat :=
  m_nodeMap cg !! v.

(** [c->parent()]; [None] for the root. *)
Definition parent (cg : ClusterGraph) (c : nat) : option nat :=
  (fun r => r.2.2) <$> list_find (fun cp => cp.1 = c) (child_parent (tree cg)).

Definition c_nodes (cg : ClusterGraph) (c : nat) : list nat :=
  cluster_nodes cg !!! c.

(** Modelled from the spec: [ClusterGraph::unassignNode(v)]: [v] leaves the
    list of its cluster. *)
Definition unassignNode (cg : ClusterGraph) (v : nat) : ClusterGraph :=
  match m_nodeMap cg !! v with
  | Some old =>
      {| tree := tree cg;
         cluster_nodes :=
           <[old := filter (fun x => x ≠ v) (c_nodes cg old)]> (cluster_nodes cg);
         m_nodeMap := delete v (m_nodeMap cg) |}
  | None => cg
  end.

(** Modelled from the spec: [ClusterGraph::reassignNode(v, c)]: [v] leaves
    its cluster and is appended to the nodes of [c]. *)
Definition reassignNode (cg : ClusterGraph) (v c : nat) : ClusterGraph :=
  let cg' := unassignNode cg v in
  {| tree := tree cg';
     cluster_nodes := <[c := c_nodes cg' c ++ [v]]> (cluster_nodes cg');
     m_nodeMap := <[v := c]> (m_nodeMap cg') |}.

(** *** Pipes *)

(** Modelled from the spec: [PMatching] (PMatching.h is not among the
    sources): the registered pipes, in the order of their registration. *)
Abbreviation PMatching := (list (nat * nat)).

(** Modelled from the spec: "[matchNodes(n, t)]: registers a new pipe;
    requires [deg(n) == deg(t)]".  [None] is the failure of that
    requirement. *)
Definition matchNodes (G : Graph) (M : PMatching) (n t : nat) : option PMatching :=
  if decide (degree G n = degree G t) then Some (M ++ [(n, t)]) else None.

(** Modelled from the spec: "[getTwin(n)]: lookup of a gray node's pipe
    partner". *)
Definition getTwin (M : PMatching) (n : nat) : option nat :=
  match list_find (fun p => p.1 = n ∨ p.2 = n) M with
  | Some (_, (a, b)) => Some (if decide (a = n) then b else a)
  | None => None
  end.

(** Modelled from the spec: "[removeMatching(n, t)]: deregisters a pipe". *)
Definition removeMatching (M : PMatching) (n t : nat) : PMatching :=
  filter (fun p => p ≠ (n, t) ∧ p ≠ (t, n)) M.

(** Modelled from the spec: "[getIncidentEdgeBijection(n, bij)]: produces the
    cyclic-order-respecting pairing of [n]'s adjacency entries with [t]'s":
    the entries of [n] in order, each with the entry of [t] met at the same
    step when the list of [t] is walked backwards. *)
Definition getIncidentEdgeBijection (G : Graph) (M : PMatching) (n : nat)
  : option (list (adjEntry * adjEntry)) :=
  t ← getTwin M n;
  Some (zip (adjEntries G n) (reverse (adjEntries G t))).


(** Modelled from the spec: [join(G, u, v, bij)] (GraphUtils.h is not among
    the sources), "join each pipe pair by merging their incident-edge
    bijections into direct edges (removing the two gray nodes)": for every
    pair of the bijection the two neighbours are joined by one edge, which
    takes the places the two old entries had; then [u] and [v] are deleted. *)
Definition join_pair (G : Graph) (p : adjEntry * adjEntry) : Graph :=
  let x := twinNode p.1 in
  let y := twinNode p.2 in
  let e := theEdge p.1 in
  let G1 := set_adjEntries G x (replace_entry e (mkAdj x e y) (adjEntries G x)) in
  set_adjEntries G1 y (replace_entry (theEdge p.2) (mkAdj y e x) (adjEntries G1 y)).

Definition join (G : Graph) (u v : nat) (bij : list (adjEntry * adjEntry)) : Graph :=
  delNode (delNode (foldl join_pair G bij) u) v.

(** Modelled from the spec: [SyncPlan::nodeFromIndex]: the node of the graph
    with that index, if there is one. *)
Definition nodeFromIndex (G : Graph) (i : nat) : option nat :=
  if decide (i ∈ nodes G) then Some i else None.

(** *** [FrozenCluster] and the state of the engine *)

(** The [int] fields use -1 for "none"; here that is [None]. *)
Record FrozenCluster : Type := mkFrozen {
  fc_index : nat;
  fc_parent : option nat;
  fc_parent_node : option nat;
  fc_nodes : list nat;
}.

(** What the constructor and [UndoInitCluster] work on: the graph, the
    cluster graph observing it, the pipes, and the frozen clusters of the
    [UndoInitCluster] record. *)
Record state : Type := mkState {
  G : Graph;
  cg : ClusterGraph;
  matchings : PMatching;
  clusters : list FrozenCluster;
}.

(** The cluster graph observes its graph: a new node starts in the root
    cluster, a deleted node leaves its cluster. *)
Definition newNode_observed (G : Graph) (cg : ClusterGraph)
  : nat * Graph * ClusterGraph :=
  let (v, G') := newNode G in
  (v, G', reassignNode cg v (rootCluster cg)).

(** [UndoInitCluster::UndoInitCluster]: every cluster of the post-order walk
    is frozen and put in front of the ones frozen before. *)
Definition freeze (cg : ClusterGraph) (c : nat) : FrozenCluster :=
  {| fc_index := c; fc_parent := parent cg c; fc_parent_node := None;
     fc_nodes := c_nodes cg c |}.

Definition UndoInitCluster_new (cg : ClusterGraph) : list FrozenCluster :=
  foldl (fun clusters c => freeze cg c :: clusters) [] (postOrder (tree cg)).

(** The clusters that [for (cluster c = cg->firstPostOrderCluster();
    c != cg->rootCluster(); c = c->pSucc())] visits. *)
Fixpoint until_root (root : nat) (walk : list nat) : list nat :=
  match walk with
  | [] => []
  | c :: rest => if decide (c = root) then [] else c :: until_root root rest
  end.

(** [c != cg->clusterOf(adj->twinNode())]. *)
Definition crossing (cg : ClusterGraph) (c : nat) (adj : adjEntry) : Prop :=
  clusterOf cg (twinNode adj) ≠ Some c.

#[global] Instance crossing_dec cg c adj : Decision (crossing cg c adj).
Proof. unfold crossing. apply _. Defined.

(** One round of [for (node n : c->nodes)]; the second component is
    [count]. *)
Definition reroute_node (cg : ClusterGraph) (c pn cn : nat)
    (acc : Graph * nat) (n : nat) : Graph * nat :=
  if decide (n = cn) then acc
  else
    let adjEntries := filter (crossing cg c) (adjEntries acc.1 n) in
    (foldl (fun G adj => splitEdge G (twin adj) pn cn) acc.1 adjEntries,
     acc.2 + length adjEntries).

(** [*fc_it] for a reverse iterator that has been advanced [fc_it] times,
    with [OGDF_ASSERT(fc_it != op->clusters.rend())]. *)
Definition fc_at (clusters : list FrozenCluster) (fc_it : nat)
  : option (nat * FrozenCluster) :=
  if decide (fc_it < length clusters)
  then (fun fc => (length clusters - 1 - fc_it, fc))
         <$> clusters !! (length clusters - 1 - fc_it)
  else None.

Definition with_parent_node (cn : nat) (fc : FrozenCluster) : FrozenCluster :=
  {| fc_index := fc_index fc; fc_parent := fc_parent fc;
     fc_parent_node := Some cn; fc_nodes := fc_nodes fc |}.

(** [OGDF_ASSERT(fc_it->index == c->index()); fc_it->parent_node =
    cn->index();]. *)
Definition set_parent_node (clusters : list FrozenCluster) (fc_it c cn : nat)
  : option (list FrozenCluster) :=
  match fc_at clusters fc_it with
  | Some (i, fc) =>
      if decide (fc_index fc = c)
      then Some (<[i := with_parent_node cn fc]> clusters)
      else None
  | None => None
  end.

(** Body of the first loop of the constructor, for the cluster [c]; [None]
    is the failure of an assertion. *)
Definition process_cluster (s : state) (fc_it c : nat) : option state :=
  p ← parent (cg s) c;
  let '(cn, G1, cg1) := newNode_observed (G s) (cg s) in
  let '(pn, G2, cg2) := newNode_observed G1 cg1 in
  let cg3 := reassignNode cg2 cn c in
  let cg4 := reassignNode cg3 pn p in
  clusters' ← set_parent_node (clusters s) fc_it c cn;
  let '(G3, count) := foldl (reroute_node cg4 c pn cn) (G2, 0) (c_nodes cg4 c) in
  let G4 := if decide (count = 0) then G3 else reverseAdjEdges G3 pn in
  M ← matchNodes G4 (matchings s) cn pn;
  Some {| G := G4; cg := cg4; matchings := M; clusters := clusters' |}.

Fixpoint reroute_clusters (s : state) (fc_it : nat) (cs : list nat)
  : option (state * nat) :=
  match cs with
  | [] => Some (s, fc_it)
  | c :: rest =>
      s' ← process_cluster s fc_it c;
      reroute_clusters s' (S fc_it) rest
  end.

(** [while (!c->nodes.empty()) cg->reassignNode(c->nodes.front(),
    cg->rootCluster())]; [None] when [fuel] rounds do not empty the list. *)
Fixpoint flatten_cluster (fuel : nat) (cg : ClusterGraph) (c : nat)
  : option ClusterGraph :=
  match c_nodes cg c with
  | [] => Some cg
  | front :: _ =>
      match fuel with
      | 0 => None
      | S fuel' =>
          flatten_cluster fuel' (reassignNode cg front (rootCluster cg)) c
      end
  end.

Fixpoint flatten_clusters (cg : ClusterGraph) (cs : list nat)
  : option ClusterGraph :=
  match cs with
  | [] => Some cg
  | c :: rest =>
      cg' ← flatten_cluster (length (c_nodes cg c)) cg c;
      flatten_clusters cg' rest
  end.

(** [SyncPlan::SyncPlan(g, cg, augmentation)] without an augmentation trace
    and without attributes.  [ResetIndices], [initComponents] and
    [rebuildHeap] touch none of the four components and are left out. *)
Definition SyncPlan_new (G0 : Graph) (cg0 : ClusterGraph) : option state :=
  let op := UndoInitCluster_new cg0 in
  let walk := until_root (rootCluster cg0) (postOrder (tree cg0)) in
  '(s, fc_it) ← reroute_clusters
                  {| G := G0; cg := cg0; matchings := []; clusters := op |} 0 walk;
  '(_, fc) ← fc_at (clusters s) fc_it;
  if decide (fc_index fc = rootCluster cg0 ∧ S fc_it = length (clusters s))
  then
    cg' ← flatten_clusters (cg s) walk;
    Some {| G := G s; cg := cg'; matchings := matchings s; clusters := clusters s |}
  else None.

(** *** [UndoInitCluster::undo] *)

(** Modelled from the spec: an adjacency entry that is kept across a [join]
    is held by the index of its edge.  [join], "merging their incident-edge
    bijections into direct edges", keeps the edge of [pair.first], of which
    [pair.first->twin()] is the other half. *)
Definition kept_entry (pair : adjEntry * adjEntry) : nat := theEdge pair.1.

(** What [undo] works on: the engine [pq]; of the cluster graph, besides
    what the engine state holds of it, the boundary lists [c->adjEntries] and
    the flag that [adjAvailable] sets; and the augmentation trace of the
    [UndoInitCluster] record, [None] for [nullptr].  A pair of the trace
    holds [pred], which is [nullptr] at first, and [curr]. *)
Record undoing : Type := mkUndoing {
  pq : state;
  c_adjEntries : gmap nat (list nat);
  adjAvailable : bool;
  augmentation : option (list (option nat * nat));
}.

(** One round of [for (const PipeBijPair& pair : bij)].  The accumulator
    holds [c->adjEntries], the trace, [bc_nr] and [pred]; [bicomps] is read
    by the edge of the entry. *)
Definition trace_pair (bicomps : nat → Z)
    (acc : list nat * option (list (option nat * nat)) * Z * option nat)
    (pair : adjEntry * adjEntry)
  : list nat * option (list (option nat * nat)) * Z * option nat :=
  let '(adjs, aug, bc_nr, pred) := acc in
  let curr := kept_entry pair in
  match aug with
  | Some trace =>
      if decide (bicomps (theEdge pair.1) ≠ bc_nr)
      then (adjs ++ [curr], Some (trace ++ [(pred, curr)]),
            bicomps (theEdge pair.1), Some curr)
      else (adjs ++ [curr], aug, bc_nr, Some curr)
  | None => (adjs ++ [curr], None, bc_nr, Some curr)
  end.

(** [processCluster(pq, c, parent_node, bicomps)]; [None] is the failure of
    an assertion, among them the one of [bij.front()] on an empty list. *)
Definition processCluster (bicomps : nat → Z) (u : undoing) (c : nat)
    (parent_node : option nat) : option undoing :=
  let s := pq u in
  i ← parent_node;
  n ← nodeFromIndex (G s) i;
  t ← getTwin (matchings s) n;
  bij ← getIncidentEdgeBijection (G s) (matchings s) t;
  let M := removeMatching (matchings s) n t in
  let G1 := join (G s) t n bij in
  let cg1 := unassignNode (unassignNode (cg s) t) n in
  bc_nr ← match augmentation u with
          | Some _ => (fun pair => bicomps (theEdge pair.1)) <$> head bij
          | None => Some (-1)%Z
          end;
  let '(adjs, aug, _, _) :=
    foldl (trace_pair bicomps)
      (c_adjEntries u !!! c, augmentation u, bc_nr, None) bij in
  Some {| pq := {| G := G1; cg := cg1; matchings := M; clusters := clusters s |};
          c_adjEntries := <[c := adjs]> (c_adjEntries u);
          adjAvailable := adjAvailable u;
          augmentation := aug |}.

(** [cg->reassignNode(pq.nodeFromIndex(n), c)] for the nodes of a frozen
    cluster. *)
Fixpoint reassign_nodes (G : Graph) (cg : ClusterGraph) (c : nat) (ns : list nat)
  : option ClusterGraph :=
  match ns with
  | [] => Some cg
  | n :: rest =>
      v ← nodeFromIndex G n;
      reassign_nodes G (reassignNode cg v c) c rest
  end.

(** Body of [for (FrozenCluster& fc : clusters)]; [cluster_index] knows the
    clusters of the tree. *)
Definition undo_cluster (bicomps : nat → Z) (u : undoing) (fc : FrozenCluster)
  : option undoing :=
  let root := rootCluster (cg (pq u)) in
  u1 ← (if decide (fc_index fc = root)
        then (if decide (fc_parent fc = None) then Some u else None)
        else
          p ← fc_parent fc;
          if decide (p ∈ postOrder (tree (cg (pq u)))
                     ∧ fc_index fc ∈ postOrder (tree (cg (pq u))))
          then processCluster bicomps u (fc_index fc) (fc_parent_node fc)
          else None);
  cg' ← reassign_nodes (G (pq u1)) (cg (pq u1)) (fc_index fc) (fc_nodes fc);
  Some {| pq := {| G := G (pq u1); cg := cg'; matchings := matchings (pq u1);
                   clusters := clusters (pq u1) |};
          c_adjEntries := c_adjEntries u1;
          adjAvailable := adjAvailable u1;
          augmentation := augmentation u1 |}.

Fixpoint undo_clusters (bicomps : nat → Z) (u : undoing) (fcs : list FrozenCluster)
  : option undoing :=
  match fcs with
  | [] => Some u
  | fc :: rest => u' ← undo_cluster bicomps u fc; undo_clusters bicomps u' rest
  end.

Section Undo.
(** Functions of OGDF that [undo] calls and whose code is not among the
    sources: [biconnectedComponents], which numbers the biconnected
    component of every edge; the edge registry [pq.edge_reg], read by the
    index of an edge; and the three checks of [Graph] and [ClusterGraph] that
    close [undo] where [OGDF_DEBUG] is defined, each of which fails an
    assertion when it does not hold. *)
Variable biconnectedComponents : Graph → nat → Z.
Variable edge_reg : state → nat → option nat.
Variable Graph_consistencyCheck : Graph → bool.
Variable ClusterGraph_consistencyCheck : undoing → bool.
Variable representsCombEmbedding : undoing → bool.

(** [undo] up to [cg->adjAvailable(true)].  [bicomps] is read only where
    there is an augmentation trace, for which it has been computed. *)
Definition unflatten (u : undoing) : option undoing :=
  let bicomps := biconnectedComponents (G (pq u)) in
  let root := rootCluster (cg (pq u)) in
  u' ← undo_clusters bicomps
         {| pq := pq u; c_adjEntries := <[root := []]> (c_adjEntries u);
            adjAvailable := adjAvailable u; augmentation := augmentation u |}
         (clusters (pq u));
  Some {| pq := pq u'; c_adjEntries := c_adjEntries u'; adjAvailable := true;
          augmentation := augmentation u' |}.

(** The block that closes [undo] where [OGDF_DEBUG] is defined, as
    [OGDF_ASSERT] is: [true] when none of its assertions fails. *)
Definition closing_checks (u : undoing) : bool :=
  forallb (fun c =>
             forallb (fun adj => bool_decide (edge_reg (pq u) adj = Some adj))
                     (c_adjEntries u !!! c))
          (until_root (rootCluster (cg (pq u))) (postOrder (tree (cg (pq u)))))
  && Graph_consistencyCheck (G (pq u))
  && ClusterGraph_consistencyCheck u
  && representsCombEmbedding u.

(** [UndoInitCluster::undo(pq)]. *)
Definition undo (u : undoing) : option undoing :=
  u' ← unflatten u;
  if closing_checks u' then Some u' else None.

End Undo.

(** *** Well-formed inputs *)

(** Every adjacency entry lies in the list of its own node, and both its
    ends carry indices the graph has handed out; the node list has no
    repetition. *)
Definition wf_graph (G : Graph) : Prop :=
  NoDup (nodes G)
  ∧ Forall (fun v => v < nodeIdCount G) (nodes G)
  ∧ map_Forall (fun n l =>
      Forall (fun a => theNode a = n ∧ n < nodeIdCount G
                       ∧ twinNode a < nodeIdCount G) l) (adjEntriesOf G).

(** "Each node belongs to exactly one cluster": the lists [c->nodes] and the
    map behind [clusterOf] agree, every node of the graph has a cluster of
    the tree, and cluster indices are not shared. *)
Definition wf_clusters (G : Graph) (cg : ClusterGraph) : Prop :=
  NoDup (postOrder (tree cg))
  ∧ map_Forall (fun c l => NoDup l ∧ Forall (fun v => m_nodeMap cg !! v = Some c) l)
      (cluster_nodes cg)
  ∧ map_Forall (fun v c => v ∈ nodes G ∧ c ∈ postOrder (tree cg)
                           ∧ v ∈ c_nodes cg c) (m_nodeMap cg)
  ∧ Forall (fun v => is_Some (m_nodeMap cg !! v)) (nodes G).

#[global] Instance wf_graph_dec G : Decision (wf_graph G).
Proof. unfold wf_graph. apply _. Defined.

#[global] Instance wf_clusters_dec G cg : Decision (wf_clusters G cg).
Proof. unfold wf_clusters. apply _. Defined.

(** *** The cluster tree *)

Section ClusterTreeInd.
Variable P : ClusterTree → Prop.
Hypothesis step : ∀ i cs, Forall P cs → P (mkCluster i cs).

Fixpoint ClusterTree_ind_nested (t : ClusterTree) : P t :=
  match t with
  | mkCluster i cs =>
      step i cs
        ((fix go (l : list ClusterTree) : Forall P l :=
            match l with
            | [] => Forall_nil_2 P
            | t' :: l' => Forall_cons_2 P t' l' (ClusterTree_ind_nested t') (go l')
            end) cs)
  end.
End ClusterTreeInd.

Lemma postOrder_last t : ∃ l, postOrder t = l ++ [index t].
Proof. destruct t as [i cs]. simpl. eauto. Qed.

Lemma index_in_postOrder t : index t ∈ postOrder t.
Proof.
  destruct (postOrder_last t) as [l ->]. apply elem_of_app. right.
  by apply list_elem_of_singleton.
Qed.

Lemma elem_of_concat_map {A B} (f : A → list B) (l : list A) (y : B) :
  y ∈ concat (map f l) ↔ ∃ x, x ∈ l ∧ y ∈ f x.
Proof.
  induction l as [|x l IH]; simpl.
  - split; [by intros ?%elem_of_nil | by intros (x & ?%elem_of_nil & _)].
  - rewrite elem_of_app, IH. split.
    + intros [H | (x' & H1 & H2)].
      * exists x. split; [apply elem_of_cons; by left | done].
      * exists x'. split; [apply elem_of_cons; by right | done].
    + intros (x' & [->|H1]%elem_of_cons & H2); [by left | right; eauto].
Qed.

(** Both components of a (child, parent) pair are clusters of the tree. *)
Lemma child_parent_in_postOrder t c p :
  (c, p) ∈ child_parent t → c ∈ postOrder t ∧ p ∈ postOrder t.
Proof.
  revert c p. induction t as [i cs IH] using ClusterTree_ind_nested.
  intros c p. simpl. rewrite !elem_of_app, list_elem_of_fmap.
  rewrite !elem_of_concat_map, !list_elem_of_singleton.
  rewrite Forall_forall in IH.
  intros [(t & [= -> ->] & Ht) | (t & Ht & Hcp)].
  - split; [left; exists t; split; [done|apply index_in_postOrder] | by right].
  - destruct (IH t Ht c p Hcp) as [Hc Hp]. split; left; eauto.
Qed.

(** Children strictly before parents. *)
Lemma child_before_parent t c p :
  (c, p) ∈ child_parent t →
  ∃ l1 l2 l3, postOrder t = l1 ++ c :: l2 ++ p :: l3.
Proof.
  revert c p. induction t as [i cs IH] using ClusterTree_ind_nested.
  intros c p. simpl. rewrite elem_of_app, list_elem_of_fmap, elem_of_concat_map.
  rewrite Forall_forall in IH.
  intros [(t & [= -> ->] & Ht) | (t & Ht & Hcp)].
  - apply list_elem_of_split in Ht as (cs1 & cs2 & ->).
    rewrite map_app, concat_app. simpl.
    destruct (postOrder_last t) as [l ->].
    exists (concat (map postOrder cs1) ++ l), (concat (map postOrder cs2)), [].
    by rewrite <- !app_assoc.
  - destruct (IH t Ht c p Hcp) as (l1 & l2 & l3 & Heq).
    apply list_elem_of_split in Ht as (cs1 & cs2 & ->).
    rewrite map_app, concat_app. simpl. rewrite Heq.
    exists (concat (map postOrder cs1) ++ l1), l2,
      (l3 ++ concat (map postOrder cs2) ++ [i]).
    by rewrite <- !app_assoc; simpl; rewrite <- !app_assoc.
Qed.

(** Every cluster but the root has a parent. *)
Lemma non_root_has_parent t c :
  c ∈ postOrder t → c ≠ index t → ∃ p, (c, p) ∈ child_parent t.
Proof.
  revert c. induction t as [i cs IH] using ClusterTree_ind_nested.
  intros c. simpl. rewrite elem_of_app, elem_of_concat_map, list_elem_of_singleton.
  rewrite Forall_forall in IH.
  intros [(t & Ht & Hc) | ->] Hne; [|done].
  destruct (decide (c = index t)) as [->|Hne'].
  - exists i. apply elem_of_app. left. apply list_elem_of_fmap. eauto.
  - destruct (IH t Ht c Hc Hne') as [p Hp]. exists p.
    apply elem_of_app. right. apply elem_of_concat_map. eauto.
Qed.

Lemma until_root_app root l1 l2 :
  root ∉ l1 → until_root root (l1 ++ root :: l2) = l1.
Proof.
  induction l1 as [|c l1 IH]; simpl; intros Hr.
  - by rewrite decide_True.
  - apply not_elem_of_cons in Hr as [Hne Hr].
    rewrite decide_False by done. by rewrite IH.
Qed.

(** With distinct indices the walk visits every cluster but the root, in
    post-order. *)
Lemma until_root_postOrder t :
  NoDup (postOrder t) →
  postOrder t = until_root (index t) (postOrder t) ++ [index t].
Proof.
  destruct (postOrder_last t) as [l Hl]. rewrite Hl. intros Hnd.
  apply NoDup_app in Hnd as (_ & Hdis & _).
  rewrite until_root_app; [done|].
  intros Hin. apply (Hdis _ Hin). by apply list_elem_of_singleton.
Qed.

Lemma parent_Some cg c p :
  parent cg c = Some p → (c, p) ∈ child_parent (tree cg).
Proof.
  unfold parent. intros Hp. apply fmap_Some in Hp as ([i [c' p']] & Hf & ->).
  apply list_find_Some in Hf as (Hl & Hc & _). simpl in *. subst c'.
  apply list_elem_of_lookup. eauto.
Qed.

Lemma parent_is_Some cg c :
  c ∈ postOrder (tree cg) → c ≠ rootCluster cg → is_Some (parent cg c).
Proof.
  intros Hc Hne. destruct (non_root_has_parent _ _ Hc Hne) as [p Hp].
  unfold parent. apply fmap_is_Some.
  destruct (list_find (fun cp => cp.1 = c) (child_parent (tree cg))) eqn:E; [done|].
  exfalso. rewrite list_find_None, Forall_forall in E. by apply (E _ Hp).
Qed.

(** A cluster is not its own parent when indices are distinct. *)
Lemma parent_ne cg c p :
  NoDup (postOrder (tree cg)) → parent cg c = Some p →
  p ≠ c ∧ c ≠ rootCluster cg ∧ c ∈ postOrder (tree cg) ∧ p ∈ postOrder (tree cg).
Proof.
  intros Hnd Hp%parent_Some.
  destruct (child_parent_in_postOrder _ _ _ Hp) as [Hc Hpin].
  destruct (child_before_parent _ _ _ Hp) as (l1 & l2 & l3 & Heq).
  rewrite Heq in Hnd.
  apply NoDup_app in Hnd as (_ & _ & Hnd). apply NoDup_cons in Hnd as [Hc' _].
  split_and!; try done.
  - intros ->. apply Hc'. apply elem_of_app. right. by left.
  - intros ->. unfold rootCluster in *.
    destruct (postOrder_last (tree cg)) as [l Hl]. rewrite Hl in Heq.
    destruct l3 as [|x l3 _] using rev_ind.
    + replace (l1 ++ index (tree cg) :: l2 ++ [p])
        with ((l1 ++ index (tree cg) :: l2) ++ [p]) in Heq
        by (by rewrite <- app_assoc).
      apply app_inj_tail in Heq as [_ <-].
      apply Hc'. apply elem_of_app. right. by left.
    + replace (l1 ++ index (tree cg) :: l2 ++ p :: l3 ++ [x])
        with ((l1 ++ index (tree cg) :: l2 ++ p :: l3) ++ [x]) in Heq
        by (rewrite <- app_assoc; simpl; by rewrite <- app_assoc).
      apply app_inj_tail in Heq as [_ <-].
      apply Hc'. apply elem_of_app. right. right. apply elem_of_app. right.
      by apply list_elem_of_singleton.
Qed.

(** *** Reading the graph and the cluster graph after an update *)

Lemma elem_of_lookup_total_list {A} (m : gmap nat (list A)) (k : nat) (x : A) :
  x ∈ m !!! k ↔ ∃ l, m !! k = Some l ∧ x ∈ l.
Proof.
  rewrite lookup_total_alt. destruct (m !! k) as [l|]; simpl.
  - split; [eauto | by intros (l' & [= <-] & ?)].
  - split; [by intros ?%elem_of_nil | by intros (l' & [=] & _)].
Qed.

Lemma adjEntries_set G n l w :
  adjEntries (set_adjEntries G n l) w = if decide (w = n) then l else adjEntries G w.
Proof.
  unfold adjEntries, set_adjEntries; simpl. case_decide as H.
  - subst. by rewrite lookup_total_insert_eq.
  - by rewrite lookup_total_insert_ne.
Qed.

(** [wf_graph] and [wf_clusters], read through the accessors. *)
Lemma wf_graph_spec G :
  wf_graph G ↔
  NoDup (nodes G)
  ∧ (∀ v, v ∈ nodes G → v < nodeIdCount G)
  ∧ (∀ n a, a ∈ adjEntries G n →
       theNode a = n ∧ n < nodeIdCount G ∧ twinNode a < nodeIdCount G).
Proof.
  unfold wf_graph, adjEntries. rewrite Forall_forall, map_Forall_lookup.
  split; intros (H1 & H2 & H3); split_and!; try done.
  - intros n a (l & Hl & Ha)%elem_of_lookup_total_list.
    specialize (H3 n l Hl). rewrite Forall_forall in H3. by apply H3.
  - intros n l Hl. apply Forall_forall. intros a Ha. apply H3.
    apply elem_of_lookup_total_list. eauto.
Qed.

Definition wf_clusters_on (ns : list nat) (cg : ClusterGraph) : Prop :=
  NoDup (postOrder (tree cg))
  ∧ (∀ c, NoDup (c_nodes cg c))
  ∧ (∀ c v, v ∈ c_nodes cg c → clusterOf cg v = Some c)
  ∧ (∀ v c, clusterOf cg v = Some c →
       v ∈ ns ∧ c ∈ postOrder (tree cg) ∧ v ∈ c_nodes cg c)
  ∧ (∀ v, v ∈ ns → is_Some (clusterOf cg v)).

Lemma wf_clusters_spec G cg : wf_clusters G cg ↔ wf_clusters_on (nodes G) cg.
Proof.
  unfold wf_clusters, wf_clusters_on, c_nodes, clusterOf.
  rewrite Forall_forall, !map_Forall_lookup.
  split; intros (H1 & H2 & H3 & H4).
  - split_and!; try done.
    + intros c. rewrite lookup_total_alt.
      destruct (cluster_nodes cg !! c) as [l|] eqn:E; simpl; [|constructor].
      by apply (H2 c l).
    + intros c v (l & Hl & Hv)%elem_of_lookup_total_list.
      destruct (H2 c l Hl) as [_ HF]. rewrite Forall_forall in HF. by apply HF.
  - destruct H4 as [H4 H5]. split_and!; try done.
    intros c l Hl. split.
    + specialize (H2 c). by rewrite lookup_total_alt, Hl in H2.
    + apply Forall_forall. intros v Hv. apply H3.
      apply elem_of_lookup_total_list. eauto.
Qed.

Lemma clusterOf_unassign cg v w :
  clusterOf (unassignNode cg v) w = if decide (w = v) then None else clusterOf cg w.
Proof.
  unfold clusterOf, unassignNode.
  destruct (m_nodeMap cg !! v) as [old|] eqn:E; simpl.
  - case_decide; subst; [by rewrite lookup_delete_eq | by rewrite lookup_delete_ne].
  - case_decide; subst; done.
Qed.

Lemma c_nodes_unassign cg v d :
  c_nodes (unassignNode cg v) d =
  if decide (clusterOf cg v = Some d)
  then filter (fun x => x ≠ v) (c_nodes cg d) else c_nodes cg d.
Proof.
  unfold clusterOf, unassignNode, c_nodes.
  destruct (m_nodeMap cg !! v) as [old|] eqn:E; simpl.
  - case_decide as H.
    + injection H as ->. by rewrite lookup_total_insert_eq.
    + rewrite lookup_total_insert_ne; [done|]. by intros ->.
  - done.
Qed.

Lemma tree_unassign cg v : tree (unassignNode cg v) = tree cg.
Proof. unfold unassignNode. by destruct (m_nodeMap cg !! v). Qed.

Lemma tree_reassign cg v c : tree (reassignNode cg v c) = tree cg.
Proof. unfold reassignNode. simpl. apply tree_unassign. Qed.

Lemma rootCluster_reassign cg v c :
  rootCluster (reassignNode cg v c) = rootCluster cg.
Proof. unfold rootCluster. by rewrite tree_reassign. Qed.

Lemma clusterOf_reassign cg v c w :
  clusterOf (reassignNode cg v c) w = if decide (w = v) then Some c else clusterOf cg w.
Proof.
  unfold reassignNode. unfold clusterOf at 1. simpl. case_decide as H.
  - subst. by rewrite lookup_insert_eq.
  - rewrite lookup_insert_ne by done.
    pose proof (clusterOf_unassign cg v w) as Hu. unfold clusterOf at 1 in Hu.
    by rewrite Hu, decide_False.
Qed.

Lemma c_nodes_reassign_raw cg v c d :
  c_nodes (reassignNode cg v c) d =
  c_nodes (unassignNode cg v) d ++ (if decide (d = c) then [v] else []).
Proof.
  unfold reassignNode. unfold c_nodes at 1. simpl. case_decide as H.
  - subst. by rewrite lookup_total_insert_eq.
  - rewrite lookup_total_insert_ne by done. by rewrite app_nil_r.
Qed.

Lemma filter_ne_id (v : nat) (l : list nat) :
  v ∉ l → filter (fun x => x ≠ v) l = l.
Proof.
  induction l as [|x l IH]; [done|]. intros [Hne Hv]%not_elem_of_cons.
  rewrite filter_cons, decide_True by done. by rewrite IH.
Qed.

(** When lists and map agree, a node is filtered out of its own list only,
    so the lists after [unassignNode] and [reassignNode] have one form. *)
Lemma c_nodes_unassign_wf ns cg v d :
  wf_clusters_on ns cg →
  c_nodes (unassignNode cg v) d = filter (fun x => x ≠ v) (c_nodes cg d).
Proof.
  intros (_ & _ & Hin & _). rewrite c_nodes_unassign. case_decide as H; [done|].
  symmetry. apply filter_ne_id. intros Hv. by apply H, Hin.
Qed.

Lemma c_nodes_reassign ns cg v c d :
  wf_clusters_on ns cg →
  c_nodes (reassignNode cg v c) d =
  filter (fun x => x ≠ v) (c_nodes cg d) ++ (if decide (d = c) then [v] else []).
Proof.
  intros Hwf. by rewrite c_nodes_reassign_raw, (c_nodes_unassign_wf ns).
Qed.

Lemma elem_of_filter_ne (v x : nat) (l : list nat) :
  x ∈ filter (fun y => y ≠ v) l ↔ x ≠ v ∧ x ∈ l.
Proof. exact (list_elem_of_filter (fun y => y ≠ v) l x). Qed.

(** [reassignNode] keeps lists and map in agreement; the node may be new to
    the graph. *)
Lemma wf_clusters_reassign ns ns' cg v c :
  wf_clusters_on ns cg →
  c ∈ postOrder (tree cg) →
  (∀ w, w ∈ ns' ↔ w ∈ ns ∨ w = v) →
  wf_clusters_on ns' (reassignNode cg v c).
Proof.
  intros Hwf Hc Hns. pose proof Hwf as (H1 & H2 & H3 & H4 & H5).
  unfold wf_clusters_on. rewrite tree_reassign. split_and!; [done|..].
  - intros d. rewrite (c_nodes_reassign ns) by done.
    apply NoDup_app. split_and!.
    + apply NoDup_filter, H2.
    + intros x [Hx _]%elem_of_filter_ne. case_decide; [|by intros ?%elem_of_nil].
      by intros ->%list_elem_of_singleton.
    + case_decide; [apply NoDup_singleton | constructor].
  - intros d w. rewrite (c_nodes_reassign ns), clusterOf_reassign by done.
    rewrite elem_of_app, elem_of_filter_ne.
    intros [[Hne Hw] | Hw].
    + rewrite decide_False by done. by apply H3.
    + case_decide; [|by apply elem_of_nil in Hw].
      apply list_elem_of_singleton in Hw. subst. by rewrite decide_True.
  - intros w d. rewrite clusterOf_reassign, (c_nodes_reassign ns) by done.
    rewrite Hns, elem_of_app, elem_of_filter_ne. case_decide as Hw.
    + intros [= <-]. subst w. split_and!; [by right | done |].
      right. rewrite decide_True by done. by apply list_elem_of_singleton.
    + intros Hd. destruct (H4 w d Hd) as (? & ? & ?). split_and!; auto.
  - intros w. rewrite Hns, clusterOf_reassign. case_decide; [done|].
    intros [Hw | ->]; [by apply H5 | done].
Qed.

(** [unassignNode] for a node that leaves the graph. *)
Lemma wf_clusters_unassign ns ns' cg v :
  wf_clusters_on ns cg →
  (∀ w, w ∈ ns' ↔ w ∈ ns ∧ w ≠ v) →
  wf_clusters_on ns' (unassignNode cg v).
Proof.
  intros Hwf Hns. pose proof Hwf as (H1 & H2 & H3 & H4 & H5).
  unfold wf_clusters_on. rewrite tree_unassign. split_and!; [done|..].
  - intros d. rewrite (c_nodes_unassign_wf ns) by done. apply NoDup_filter, H2.
  - intros d w. rewrite (c_nodes_unassign_wf ns), clusterOf_unassign by done.
    rewrite elem_of_filter_ne. intros [Hne Hw].
    rewrite decide_False by done. by apply H3.
  - intros w d. rewrite clusterOf_unassign, (c_nodes_unassign_wf ns) by done.
    rewrite Hns, elem_of_filter_ne. case_decide as Hw; [done|].
    intros Hd. destruct (H4 w d Hd) as (? & ? & ?). split_and!; auto.
  - intros w. rewrite Hns, clusterOf_unassign. intros [Hw Hne].
    rewrite decide_False by done. by apply H5.
Qed.

(** *** Splitting edges *)

Lemma nodes_set_adjEntries G n l : nodes (set_adjEntries G n l) = nodes G.
Proof. done. Qed.

Lemma wf_graph_set_adjEntries G n l :
  wf_graph G → n < nodeIdCount G →
  (∀ a, a ∈ l → theNode a = n ∧ twinNode a < nodeIdCount G) →
  wf_graph (set_adjEntries G n l).
Proof.
  rewrite !wf_graph_spec. intros (H1 & H2 & H3) Hn Hl. split_and!; try done.
  intros w a. rewrite adjEntries_set. case_decide as Hw.
  - subst. intros Ha. destruct (Hl a Ha). by split_and!.
  - apply H3.
Qed.

Lemma elem_of_replace_entry e new l a :
  a ∈ replace_entry e new l → a = new ∨ a ∈ l.
Proof.
  unfold replace_entry. intros (b & -> & Hb)%list_elem_of_fmap.
  case_decide; auto.
Qed.

Lemma length_replace_entry e new l : length (replace_entry e new l) = length l.
Proof. unfold replace_entry. apply length_fmap. Qed.

Lemma wf_graph_counts G G' :
  nodes G' = nodes G → adjEntriesOf G' = adjEntriesOf G →
  nodeIdCount G' = nodeIdCount G → wf_graph G → wf_graph G'.
Proof. unfold wf_graph. by intros -> -> ->. Qed.

(** [splitEdge] keeps the graph well formed. *)
Lemma wf_graph_splitEdge G a u v :
  wf_graph G →
  theNode a < nodeIdCount G → twinNode a < nodeIdCount G →
  u < nodeIdCount G → v < nodeIdCount G →
  wf_graph (splitEdge G a u v).
Proof.
  intros Hwf Hm Hn Hu Hv. unfold splitEdge.
  set (G1 := set_adjEntries G _ _).
  set (G2 := set_adjEntries G1 _ _).
  set (G3 := set_adjEntries G2 _ _).
  set (G4 := set_adjEntries G3 _ _).
  assert (Hwf1 : wf_graph G1).
  { apply wf_graph_set_adjEntries; [done..|].
    intros b [->|Hb]%elem_of_replace_entry; [done|].
    apply wf_graph_spec in Hwf as (_ & _ & H3).
    destruct (H3 _ _ Hb) as (? & ? & ?). done. }
  assert (Hwf2 : wf_graph G2).
  { apply wf_graph_set_adjEntries; [done..|].
    intros b [Hb | ->%list_elem_of_singleton]%elem_of_app; [|done].
    apply wf_graph_spec in Hwf1 as (_ & _ & H3).
    destruct (H3 _ _ Hb) as (? & ? & ?). done. }
  assert (Hwf3 : wf_graph G3).
  { apply wf_graph_set_adjEntries; [done..|].
    intros b [->|Hb]%elem_of_replace_entry; [done|].
    apply wf_graph_spec in Hwf2 as (_ & _ & H3).
    destruct (H3 _ _ Hb) as (? & ? & ?). done. }
  assert (Hwf4 : wf_graph G4).
  { apply wf_graph_set_adjEntries; [done..|].
    intros b [Hb | ->%list_elem_of_singleton]%elem_of_app; [|done].
    apply wf_graph_spec in Hwf3 as (_ & _ & H3).
    destruct (H3 _ _ Hb) as (? & ? & ?). done. }
  by apply (wf_graph_counts G4).
Qed.

Lemma adjEntries_counts G G' w :
  adjEntriesOf G' = adjEntriesOf G → adjEntries G' w = adjEntries G w.
Proof. unfold adjEntries. by intros ->. Qed.

(** The four lists [splitEdge] writes, when its four nodes are distinct. *)
Lemma adjEntries_splitEdge_node_side G a u v :
  u ≠ v → u ≠ theNode a → u ≠ twinNode a →
  adjEntries (splitEdge G a u v) u
  = adjEntries G u ++ [mkAdj u (theEdge a) (theNode a)].
Proof.
  intros Huv Hum Hun. unfold splitEdge.
  rewrite (adjEntries_counts (set_adjEntries _ v _)) by done.
  rewrite adjEntries_set, decide_False by done.
  rewrite adjEntries_set, decide_False by done.
  rewrite adjEntries_set, decide_True by done.
  by rewrite adjEntries_set, decide_False by done.
Qed.

Lemma adjEntries_splitEdge_twin_side G a u v :
  u ≠ v → v ≠ theNode a → v ≠ twinNode a →
  adjEntries (splitEdge G a u v) v
  = adjEntries G v ++ [mkAdj v (edgeIdCount G) (twinNode a)].
Proof.
  intros Huv Hvm Hvn. unfold splitEdge.
  rewrite (adjEntries_counts (set_adjEntries _ v _)) by done.
  rewrite adjEntries_set, decide_True by done.
  rewrite adjEntries_set, decide_False by done.
  rewrite adjEntries_set, decide_False by done.
  by rewrite adjEntries_set, decide_False by done.
Qed.

Lemma adjEntries_splitEdge_other G a u v w :
  w ≠ u → w ≠ v → w ≠ theNode a → w ≠ twinNode a →
  adjEntries (splitEdge G a u v) w = adjEntries G w.
Proof.
  intros Hu Hv Hm Hn. unfold splitEdge.
  rewrite (adjEntries_counts (set_adjEntries _ v _)) by done.
  by rewrite !adjEntries_set, !decide_False by done.
Qed.

Lemma degree_set_replace G n e new w :
  degree (set_adjEntries G n (replace_entry e new (adjEntries G n))) w = degree G w.
Proof.
  unfold degree. rewrite adjEntries_set. case_decide; [|done].
  subst. apply length_replace_entry.
Qed.

Lemma degree_set_other G n l w :
  w ≠ n → degree (set_adjEntries G n l) w = degree G w.
Proof. intros. unfold degree. by rewrite adjEntries_set, decide_False. Qed.

Lemma degree_splitEdge_ends G a u v w :
  w ≠ u → w ≠ v → degree (splitEdge G a u v) w = degree G w.
Proof.
  intros Hu Hv. unfold splitEdge.
  transitivity (degree (set_adjEntries G (theNode a)
    (replace_entry (theEdge a) (mkAdj (theNode a) (theEdge a) u)
       (adjEntries G (theNode a)))) w); [|apply degree_set_replace].
  set (G1 := set_adjEntries G (theNode a) _).
  transitivity (degree (set_adjEntries G1 u
    (adjEntries G1 u ++ [mkAdj u (theEdge a) (theNode a)])) w);
    [|by apply degree_set_other].
  set (G2 := set_adjEntries G1 u _).
  transitivity (degree (set_adjEntries G2 (twinNode a)
    (replace_entry (theEdge a) (mkAdj (twinNode a) (edgeIdCount G) v)
       (adjEntries G2 (twinNode a)))) w); [|apply degree_set_replace].
  set (G3 := set_adjEntries G2 (twinNode a) _).
  unfold degree. rewrite (adjEntries_counts (set_adjEntries G3 v _)) by done.
  by rewrite adjEntries_set, decide_False.
Qed.

(** What the crossing entries of one node do to the two gray nodes. *)
Definition pn_entry (pn : nat) (x : adjEntry) : adjEntry :=
  mkAdj pn (theEdge x) (twinNode x).

Definition cn_entry (cn e0 : nat) (i : nat) (x : adjEntry) : adjEntry :=
  mkAdj cn (e0 + i) (theNode x).

Definition split_all (pn cn : nat) (G : Graph) (xs : list adjEntry) : Graph :=
  foldl (fun G adj => splitEdge G (twin adj) pn cn) G xs.

Lemma split_all_spec pn cn n xs G :
  pn ≠ cn → n ≠ pn → n ≠ cn →
  (∀ x, x ∈ xs → theNode x = n ∧ twinNode x ≠ pn ∧ twinNode x ≠ cn) →
  adjEntries (split_all pn cn G xs) pn = adjEntries G pn ++ (pn_entry pn <$> xs)
  ∧ adjEntries (split_all pn cn G xs) cn
    = adjEntries G cn ++ imap (cn_entry cn (edgeIdCount G)) xs
  ∧ edgeIdCount (split_all pn cn G xs) = edgeIdCount G + length xs
  ∧ nodes (split_all pn cn G xs) = nodes G
  ∧ nodeIdCount (split_all pn cn G xs) = nodeIdCount G
  ∧ (∀ w, w ≠ pn → w ≠ cn → w ≠ n → (∀ x, x ∈ xs → twinNode x ≠ w) →
       adjEntries (split_all pn cn G xs) w = adjEntries G w).
Proof.
  intros Hpc Hnp Hnc. revert G.
  induction xs as [|x xs IH]; intros G Hxs; simpl.
  - rewrite !app_nil_r, Nat.add_0_r. by split_and!.
  - destruct (Hxs x) as (Hx1 & Hx2 & Hx3); [by left|].
    destruct (IH (splitEdge G (twin x) pn cn)) as (I1 & I2 & I3 & I4 & I5 & I6).
    { intros y Hy. apply Hxs. by right. }
    unfold split_all in *. rewrite I1, I2, I3, I4, I5.
    rewrite adjEntries_splitEdge_node_side; simpl; [|congruence..].
    rewrite adjEntries_splitEdge_twin_side; simpl; [|congruence..].
    split_and!.
    + by rewrite <- app_assoc.
    + rewrite <- app_assoc. simpl. f_equal. unfold cn_entry at 2.
      rewrite Nat.add_0_r. f_equal. apply imap_ext. intros i y _. simpl.
      unfold cn_entry. f_equal. lia.
    + simpl. lia.
    + done.
    + done.
    + intros w Hwp Hwc Hwn Hw. rewrite I6; try done.
      * apply adjEntries_splitEdge_other; simpl; try done.
        -- intros ->. by apply (Hw x); [left|].
        -- congruence.
      * intros y Hy. apply Hw. by right.
Qed.

Lemma wf_graph_split_all pn cn xs G :
  wf_graph G → pn < nodeIdCount G → cn < nodeIdCount G →
  (∀ x, x ∈ xs → theNode x < nodeIdCount G ∧ twinNode x < nodeIdCount G) →
  wf_graph (split_all pn cn G xs) ∧ nodeIdCount (split_all pn cn G xs) = nodeIdCount G.
Proof.
  revert G. induction xs as [|x xs IH]; intros G Hwf Hp Hc Hxs; simpl; [done|].
  destruct (Hxs x) as [Hx1 Hx2]; [by left|].
  destruct (IH (splitEdge G (twin x) pn cn)) as [IH1 IH2]; try done.
  - by apply wf_graph_splitEdge.
  - intros y Hy. apply Hxs. by right.
Qed.

(** *** The perimeter-crossing edges of a cluster *)

(** The perimeter-crossing entries of the nodes [L] of cluster [c] in the
    graph [G], in the order in which the constructor meets them. *)
Definition crossing_entries (cg : ClusterGraph) (c cn : nat) (G : Graph)
    (L : list nat) : list adjEntry :=
  L ≫= fun n =>
    if decide (n = cn) then [] else filter (crossing cg c) (adjEntries G n).

Lemma filter_ext_in {A} (P Q : A → Prop) `{∀ x, Decision (P x)}
    `{∀ x, Decision (Q x)} (l : list A) :
  (∀ x, x ∈ l → P x ↔ Q x) → filter P l = filter Q l.
Proof.
  induction l as [|x l IH]; intros Hl; [done|].
  rewrite !filter_cons.
  rewrite IH by (intros y Hy; apply Hl; by right).
  destruct (decide (P x)) as [HP|HP], (decide (Q x)) as [HQ|HQ]; try done.
  - exfalso. apply HQ, Hl; [by left | done].
  - exfalso. apply HP, Hl; [by left | done].
Qed.

Lemma reroute_node_split cg c pn cn G count n :
  reroute_node cg c pn cn (G, count) n
  = if decide (n = cn) then (G, count)
    else (split_all pn cn G (filter (crossing cg c) (adjEntries G n)),
          count + length (filter (crossing cg c) (adjEntries G n))).
Proof. unfold reroute_node, split_all. by case_decide. Qed.

Lemma reroute_nodes_spec cg c pn cn Gs L G count :
  pn ≠ cn → NoDup L → pn ∉ L →
  (∀ n, n ∈ L → n ≠ cn → clusterOf cg n = Some c) →
  (∀ n x, n ∈ L → n ≠ cn → x ∈ adjEntries Gs n →
     theNode x = n ∧ twinNode x ≠ pn ∧ twinNode x ≠ cn) →
  (∀ n, n ∈ L → n ≠ cn → adjEntries G n = adjEntries Gs n) →
  adjEntries (foldl (reroute_node cg c pn cn) (G, count) L).1 pn
  = adjEntries G pn ++ (pn_entry pn <$> crossing_entries cg c cn Gs L)
  ∧ adjEntries (foldl (reroute_node cg c pn cn) (G, count) L).1 cn
    = adjEntries G cn
      ++ imap (cn_entry cn (edgeIdCount G)) (crossing_entries cg c cn Gs L)
  ∧ (foldl (reroute_node cg c pn cn) (G, count) L).2
    = count + length (crossing_entries cg c cn Gs L)
  ∧ edgeIdCount (foldl (reroute_node cg c pn cn) (G, count) L).1
    = edgeIdCount G + length (crossing_entries cg c cn Gs L)
  ∧ nodes (foldl (reroute_node cg c pn cn) (G, count) L).1 = nodes G
  ∧ nodeIdCount (foldl (reroute_node cg c pn cn) (G, count) L).1 = nodeIdCount G.
Proof.
  intros Hpc Hnd Hp Hcl Hent Hsame. revert G count Hsame.
  induction L as [|n L IH]; intros G count Hsame; cbn [foldl].
  - unfold crossing_entries. simpl. rewrite !app_nil_r, !Nat.add_0_r. by split_and!.
  - apply NoDup_cons in Hnd as [HnL Hnd].
    apply not_elem_of_cons in Hp as [Hpn Hp].
    assert (HclL : ∀ n', n' ∈ L → n' ≠ cn → clusterOf cg n' = Some c)
      by (intros; apply Hcl; [by right | done]).
    assert (HentL : ∀ n' x, n' ∈ L → n' ≠ cn → x ∈ adjEntries Gs n' →
              theNode x = n' ∧ twinNode x ≠ pn ∧ twinNode x ≠ cn)
      by (intros n' x ?; apply Hent; by right).
    unfold crossing_entries. rewrite bind_cons. fold (crossing_entries cg c cn Gs L).
    rewrite reroute_node_split. destruct (decide (n = cn)) as [->|Hncn].
    + rewrite app_nil_l. apply IH; try done.
      intros n' Hn' ?. apply Hsame; [by right | done].
    + rewrite (Hsame n) by (done || by left).
      set (xs := filter (crossing cg c) (adjEntries Gs n)).
      assert (Hxs : ∀ x, x ∈ xs →
                theNode x = n ∧ twinNode x ≠ pn ∧ twinNode x ≠ cn).
      { intros x [_ Hx]%list_elem_of_filter. apply Hent; [by left | done | done]. }
      destruct (split_all_spec pn cn n xs G Hpc (not_eq_sym Hpn) Hncn Hxs)
        as (S1 & S2 & S3 & S4 & S5 & S6).
      specialize (IH Hnd Hp HclL HentL (split_all pn cn G xs) (count + length xs)).
      destruct IH as (I1 & I2 & I3 & I4 & I5 & I6).
      { intros n' Hn' Hn'cn. rewrite S6.
        - apply Hsame; [by right | done].
        - intros ->. done.
        - done.
        - intros ->. done.
        - intros x [Hcr _]%list_elem_of_filter Heq. apply Hcr.
          rewrite Heq. by apply HclL. }
      rewrite I1, I2, I3, I4, I5, I6, S1, S2, S3, S4, S5.
      rewrite length_app, fmap_app, imap_app. split_and!.
      * by rewrite <- app_assoc.
      * rewrite <- app_assoc. do 2 f_equal. apply imap_ext. intros i x _.
        unfold cn_entry. f_equal. lia.
      * lia.
      * lia.
      * done.
      * done.
Qed.

Lemma wf_graph_reroute_nodes cg c pn cn L G count :
  wf_graph G → pn < nodeIdCount G → cn < nodeIdCount G →
  wf_graph (foldl (reroute_node cg c pn cn) (G, count) L).1.
Proof.
  revert G count. induction L as [|n L IH]; intros G count Hwf Hp Hc; simpl; [done|].
  rewrite reroute_node_split. case_decide; [by apply IH|].
  destruct (wf_graph_split_all pn cn
              (filter (crossing cg c) (adjEntries G n)) G) as [Hwf' Hcount];
    try done.
  - intros x [_ Hx]%list_elem_of_filter.
    apply wf_graph_spec in Hwf as (_ & _ & H3).
    destruct (H3 _ _ Hx) as (-> & ? & ?). done.
  - apply IH; [done | by rewrite Hcount..].
Qed.

(** *** New nodes *)

Lemma wf_graph_newNode G :
  wf_graph G → wf_graph (newNode G).2.
Proof.
  rewrite !wf_graph_spec. intros (H1 & H2 & H3). simpl. split_and!.
  - apply NoDup_app. split_and!; [done | | apply NoDup_singleton].
    intros v Hv ->%list_elem_of_singleton. apply H2 in Hv. lia.
  - intros v [Hv | ->%list_elem_of_singleton]%elem_of_app; [apply H2 in Hv|]; lia.
  - intros n a. unfold adjEntries. simpl.
    destruct (decide (n = nodeIdCount G)) as [->|Hne].
    + rewrite lookup_total_insert_eq. by intros ?%elem_of_nil.
    + rewrite lookup_total_insert_ne by done. intros Ha.
      destruct (H3 n a Ha) as (? & ? & ?). split_and!; [done | lia..].
Qed.

Lemma adjEntries_newNode G w :
  adjEntries (newNode G).2 w
  = if decide (w = nodeIdCount G) then [] else adjEntries G w.
Proof.
  unfold adjEntries. simpl. case_decide.
  - subst. by rewrite lookup_total_insert_eq.
  - by rewrite lookup_total_insert_ne.
Qed.

Lemma wf_graph_reverseAdjEdges G v :
  wf_graph G → wf_graph (reverseAdjEdges G v).
Proof.
  intros Hwf. pose proof Hwf as (_ & _ & H3)%wf_graph_spec.
  unfold reverseAdjEdges.
  destruct (adjEntries G v) as [|a l] eqn:E.
  - assert (wf_graph (set_adjEntries G v [])) as H; [|done].
    apply wf_graph_spec in Hwf as (H1 & H2 & _). apply wf_graph_spec.
    split_and!; try done. intros n b. rewrite adjEntries_set.
    case_decide; [by intros ?%elem_of_nil | apply H3].
  - rewrite <- E. apply wf_graph_set_adjEntries; [done| |].
    + destruct (H3 v a) as (_ & ? & _); [rewrite E; by left | done].
    + intros b Hb. rewrite elem_of_reverse in Hb.
      destruct (H3 _ _ Hb) as (? & ? & ?). done.
Qed.

(** *** The two gray nodes of a cluster *)

Lemma fresh_not_in_lists ns cg k d :
  wf_clusters_on ns cg → k ∉ ns → k ∉ c_nodes cg d.
Proof.
  intros (_ & _ & H3 & H4 & _) Hk Hin. apply Hk.
  by destruct (H4 k d (H3 d k Hin)) as (? & _).
Qed.

Lemma filter_ne_same (v : nat) : filter (fun x => x ≠ v) [v] = [].
Proof. by rewrite filter_cons, decide_False by (intros ?; done). Qed.

Lemma filter_ne_diff (v w : nat) : w ≠ v → filter (fun x => x ≠ v) [w] = [w].
Proof. intros. by rewrite filter_cons, decide_True. Qed.

(** The cluster graph after [newNode] twice and the two [reassignNode]
    calls that follow. *)
Definition gray_assigned (cg : ClusterGraph) (cn pn c p : nat) : ClusterGraph :=
  let cg1 := reassignNode cg cn (rootCluster cg) in
  let cg2 := reassignNode cg1 pn (rootCluster cg1) in
  reassignNode (reassignNode cg2 cn c) pn p.

Lemma gray_assigned_spec ns cg cn pn c p :
  wf_clusters_on ns cg → cn ∉ ns → pn ∉ ns → cn ≠ pn →
  c ∈ postOrder (tree cg) → p ∈ postOrder (tree cg) →
  wf_clusters_on (ns ++ [cn; pn]) (gray_assigned cg cn pn c p)
  ∧ tree (gray_assigned cg cn pn c p) = tree cg
  ∧ (∀ w, clusterOf (gray_assigned cg cn pn c p) w
          = if decide (w = pn) then Some p
            else if decide (w = cn) then Some c else clusterOf cg w)
  ∧ (∀ d, c_nodes (gray_assigned cg cn pn c p) d
          = c_nodes cg d ++ (if decide (d = c) then [cn] else [])
                         ++ (if decide (d = p) then [pn] else [])).
Proof.
  intros Hwf Hcn Hpn Hne Hc Hp. unfold gray_assigned. cbv zeta.
  rewrite rootCluster_reassign.
  set (root := rootCluster cg).
  assert (Hroot : root ∈ postOrder (tree cg)) by apply index_in_postOrder.
  set (cg1 := reassignNode cg cn root).
  assert (Hwf1 : wf_clusters_on (ns ++ [cn]) cg1).
  { apply (wf_clusters_reassign ns); [done..|].
    intros w. rewrite elem_of_app, list_elem_of_singleton. done. }
  set (cg2 := reassignNode cg1 pn root).
  assert (Hwf2 : wf_clusters_on (ns ++ [cn; pn]) cg2).
  { apply (wf_clusters_reassign (ns ++ [cn])); [done | by unfold cg1; rewrite tree_reassign |].
    intros w. rewrite !elem_of_app, !elem_of_cons, !elem_of_nil. tauto. }
  set (cg3 := reassignNode cg2 cn c).
  assert (Hwf3 : wf_clusters_on (ns ++ [cn; pn]) cg3).
  { apply (wf_clusters_reassign (ns ++ [cn; pn]));
      [done | by unfold cg2, cg1; rewrite !tree_reassign |].
    intros w. rewrite !elem_of_app, !elem_of_cons, !elem_of_nil.
    split; [tauto | intros [?| ->]; tauto]. }
  split_and!.
  - apply (wf_clusters_reassign (ns ++ [cn; pn]));
      [done | by unfold cg3, cg2, cg1; rewrite !tree_reassign |].
    intros w. rewrite !elem_of_app, !elem_of_cons, !elem_of_nil.
    split; [tauto | intros [?| ->]; tauto].
  - unfold cg3, cg2, cg1. by rewrite !tree_reassign.
  - intros w. unfold cg3, cg2, cg1. rewrite !clusterOf_reassign.
    repeat case_decide; try done; congruence.
  - intros d.
    rewrite (c_nodes_reassign (ns ++ [cn; pn])) by done. unfold cg3.
    rewrite (c_nodes_reassign (ns ++ [cn; pn])) by done. unfold cg2.
    rewrite (c_nodes_reassign (ns ++ [cn])) by done. unfold cg1.
    rewrite (c_nodes_reassign ns) by done.
    pose proof (fresh_not_in_lists ns cg cn d Hwf Hcn) as Hcnd.
    pose proof (fresh_not_in_lists ns cg pn d Hwf Hpn) as Hpnd.
    rewrite !filter_app.
    rewrite (filter_ne_id cn (c_nodes cg d)) by done.
    rewrite (filter_ne_id pn (c_nodes cg d)) by done.
    rewrite (filter_ne_id cn (c_nodes cg d)) by done.
    rewrite (filter_ne_id pn (c_nodes cg d)) by done.
    rewrite <- !app_assoc. f_equal.
    destruct (decide (d = root)), (decide (d = c)), (decide (d = p));
      rewrite ?filter_nil, ?filter_ne_same, ?filter_nil,
        ?(filter_ne_diff pn cn), ?filter_ne_same, ?filter_nil,
        ?(filter_ne_diff cn pn), ?filter_ne_same, ?filter_nil,
        ?(filter_ne_diff pn cn), ?filter_ne_same by done;
      done.
Qed.

(** The perimeter-crossing entries of cluster [c]: for the nodes of [c] in
    the order of [c->nodes], their adjacency entries whose other end lies in
    another cluster, in the order of [n->adjEntries]. *)
Definition perimeter_entries (G : Graph) (cg : ClusterGraph) (c : nat)
  : list adjEntry :=
  c_nodes cg c ≫= fun n => filter (crossing cg c) (adjEntries G n).

Lemma bind_ext_in {A B} (f g : A → list B) (l : list A) :
  (∀ x, x ∈ l → f x = g x) → l ≫= f = l ≫= g.
Proof.
  induction l as [|x l IH]; intros Hl; [done|].
  rewrite !bind_cons, IH, Hl; [done | by left |].
  intros y Hy. apply Hl. by right.
Qed.

Lemma crossing_entries_perimeter G cg c p :
  wf_graph G → wf_clusters_on (nodes G) cg →
  c ∈ postOrder (tree cg) → p ∈ postOrder (tree cg) → p ≠ c →
  let cn := nodeIdCount G in
  let pn := S cn in
  crossing_entries (gray_assigned cg cn pn c p) c cn (newNode (newNode G).2).2
    (c_nodes (gray_assigned cg cn pn c p) c)
  = perimeter_entries G cg c.
Proof.
  intros HwfG Hwf Hc Hp Hpc cn pn.
  pose proof HwfG as (_ & Hlt & Hadj)%wf_graph_spec.
  assert (Hcn : cn ∉ nodes G) by (intros ?%Hlt; unfold cn in *; lia).
  assert (Hpn : pn ∉ nodes G) by (intros ?%Hlt; unfold pn, cn in *; lia).
  destruct (gray_assigned_spec (nodes G) cg cn pn c p) as (_ & _ & Hcl & Hno);
    [done | done | done | unfold pn; lia | done | done |].
  rewrite Hno, decide_True, decide_False, app_nil_r by done.
  unfold crossing_entries, perimeter_entries.
  rewrite bind_app. simpl. rewrite decide_True, app_nil_r by done. simpl.
  apply bind_ext_in. intros n Hn.
  assert (Hnlt : n < cn).
  { destruct Hwf as (_ & _ & H3 & H4 & _).
    destruct (H4 n c (H3 c n Hn)) as (Hin & _). by apply Hlt. }
  rewrite decide_False by lia.
  unfold adjEntries at 1. simpl.
  rewrite !lookup_total_insert_ne by (unfold cn in *; lia).
  fold (adjEntries G n).
  apply filter_ext_in. intros x Hx. unfold crossing. rewrite Hcl.
  destruct (Hadj n x Hx) as (_ & _ & Ht).
  by rewrite !decide_False by (unfold pn, cn in *; lia).
Qed.

(** *** One round of the first loop *)

Lemma fc_at_Some clusters fc_it fc :
  fc_it < length clusters →
  clusters !! (length clusters - 1 - fc_it) = Some fc →
  fc_at clusters fc_it = Some (length clusters - 1 - fc_it, fc).
Proof. intros Hlt Hfc. unfold fc_at. by rewrite decide_True, Hfc. Qed.

Lemma adjEntries_newNode_twice G w :
  adjEntries (newNode (newNode G).2).2 w
  = if decide (w = S (nodeIdCount G)) then []
    else if decide (w = nodeIdCount G) then [] else adjEntries G w.
Proof.
  rewrite adjEntries_newNode.
  change (nodeIdCount (newNode G).2) with (S (nodeIdCount G)).
  case_decide; [done|]. apply adjEntries_newNode.
Qed.

Lemma bind_Some_eq {A B} (x : A) (f : A → option B) : Some x ≫= f = f x.
Proof. done. Qed.

(** [process_cluster], with its local variables named. *)
Lemma process_cluster_eq s fc_it c p :
  parent (cg s) c = Some p →
  process_cluster s fc_it c
  = (set_parent_node (clusters s) fc_it c (nodeIdCount (G s)) ≫= fun clusters' =>
     matchNodes
       (if decide ((foldl (reroute_node
                             (gray_assigned (cg s) (nodeIdCount (G s))
                                (S (nodeIdCount (G s))) c p)
                             c (S (nodeIdCount (G s))) (nodeIdCount (G s)))
                      ((newNode (newNode (G s)).2).2, 0)
                      (c_nodes (gray_assigned (cg s) (nodeIdCount (G s))
                                  (S (nodeIdCount (G s))) c p) c)).2 = 0)
        then (foldl (reroute_node
                       (gray_assigned (cg s) (nodeIdCount (G s))
                          (S (nodeIdCount (G s))) c p)
                       c (S (nodeIdCount (G s))) (nodeIdCount (G s)))
                ((newNode (newNode (G s)).2).2, 0)
                (c_nodes (gray_assigned (cg s) (nodeIdCount (G s))
                            (S (nodeIdCount (G s))) c p) c)).1
        else reverseAdjEdges
               (foldl (reroute_node
                         (gray_assigned (cg s) (nodeIdCount (G s))
                            (S (nodeIdCount (G s))) c p)
                         c (S (nodeIdCount (G s))) (nodeIdCount (G s)))
                  ((newNode (newNode (G s)).2).2, 0)
                  (c_nodes (gray_assigned (cg s) (nodeIdCount (G s))
                              (S (nodeIdCount (G s))) c p) c)).1
               (S (nodeIdCount (G s))))
       (matchings s) (nodeIdCount (G s)) (S (nodeIdCount (G s))) ≫= fun M =>
     Some {| G := if decide ((foldl (reroute_node
                             (gray_assigned (cg s) (nodeIdCount (G s))
                                (S (nodeIdCount (G s))) c p)
                             c (S (nodeIdCount (G s))) (nodeIdCount (G s)))
                      ((newNode (newNode (G s)).2).2, 0)
                      (c_nodes (gray_assigned (cg s) (nodeIdCount (G s))
                                  (S (nodeIdCount (G s))) c p) c)).2 = 0)
        then (foldl (reroute_node
                       (gray_assigned (cg s) (nodeIdCount (G s))
                          (S (nodeIdCount (G s))) c p)
                       c (S (nodeIdCount (G s))) (nodeIdCount (G s)))
                ((newNode (newNode (G s)).2).2, 0)
                (c_nodes (gray_assigned (cg s) (nodeIdCount (G s))
                            (S (nodeIdCount (G s))) c p) c)).1
        else reverseAdjEdges
               (foldl (reroute_node
                         (gray_assigned (cg s) (nodeIdCount (G s))
                            (S (nodeIdCount (G s))) c p)
                         c (S (nodeIdCount (G s))) (nodeIdCount (G s)))
                  ((newNode (newNode (G s)).2).2, 0)
                  (c_nodes (gray_assigned (cg s) (nodeIdCount (G s))
                              (S (nodeIdCount (G s))) c p) c)).1
               (S (nodeIdCount (G s)));
             cg := gray_assigned (cg s) (nodeIdCount (G s))
                     (S (nodeIdCount (G s))) c p;
             matchings := M; clusters := clusters' |}).
Proof.
  intros Hp. unfold process_cluster. rewrite Hp, bind_Some_eq.
  unfold newNode_observed.
  change (newNode (G s)) with (nodeIdCount (G s), (newNode (G s)).2).
  cbv beta iota.
  change (newNode (newNode (G s)).2)
    with (S (nodeIdCount (G s)), (newNode (newNode (G s)).2).2).
  cbv beta iota zeta.
  fold (gray_assigned (cg s) (nodeIdCount (G s)) (S (nodeIdCount (G s))) c p).
  destruct (set_parent_node _ _ _ _) as [clusters'|]; [|done].
  rewrite !bind_Some_eq.
  by destruct (foldl _ _ _) as [G3 count].
Qed.

Lemma process_cluster_spec s fc_it c fc :
  wf_graph (G s) → wf_clusters_on (nodes (G s)) (cg s) →
  c ∈ postOrder (tree (cg s)) → c ≠ rootCluster (cg s) →
  fc_it < length (clusters s) →
  clusters s !! (length (clusters s) - 1 - fc_it) = Some fc →
  fc_index fc = c →
  ∃ p s',
    parent (cg s) c = Some p
    ∧ process_cluster s fc_it c = Some s'
    ∧ wf_graph (G s') ∧ wf_clusters_on (nodes (G s')) (cg s')
    ∧ tree (cg s') = tree (cg s)
    ∧ nodes (G s') = nodes (G s) ++ [nodeIdCount (G s); S (nodeIdCount (G s))]
    ∧ nodeIdCount (G s') = S (S (nodeIdCount (G s)))
    ∧ edgeIdCount (G s')
      = edgeIdCount (G s) + length (perimeter_entries (G s) (cg s) c)
    ∧ (∀ w, clusterOf (cg s') w
            = if decide (w = S (nodeIdCount (G s))) then Some p
              else if decide (w = nodeIdCount (G s)) then Some c
              else clusterOf (cg s) w)
    ∧ (∀ d, c_nodes (cg s') d
            = c_nodes (cg s) d
              ++ (if decide (d = c) then [nodeIdCount (G s)] else [])
              ++ (if decide (d = p) then [S (nodeIdCount (G s))] else []))
    ∧ adjEntries (G s') (nodeIdCount (G s))
      = imap (cn_entry (nodeIdCount (G s)) (edgeIdCount (G s)))
          (perimeter_entries (G s) (cg s) c)
    ∧ adjEntries (G s') (S (nodeIdCount (G s)))
      = reverse (pn_entry (S (nodeIdCount (G s)))
                   <$> perimeter_entries (G s) (cg s) c)
    ∧ matchings s' = matchings s ++ [(nodeIdCount (G s), S (nodeIdCount (G s)))]
    ∧ clusters s'
      = <[length (clusters s) - 1 - fc_it :=
            with_parent_node (nodeIdCount (G s)) fc]> (clusters s).
Proof.
  intros HwfG Hwf Hc Hroot Hlt Hfc Hidx.
  pose proof Hwf as (Hnd & _).
  destruct (parent_is_Some (cg s) c Hc Hroot) as [p Hp].
  destruct (parent_ne (cg s) c p Hnd Hp) as (Hpc & _ & _ & Hpin).
  pose proof HwfG as (_ & Hnlt & Hadj)%wf_graph_spec.
  rewrite (process_cluster_eq s fc_it c p Hp).
  pose proof (crossing_entries_perimeter (G s) (cg s) c p HwfG Hwf Hc Hpin Hpc)
    as HX. cbv zeta in HX.
  assert (HwfG2 : wf_graph (newNode (newNode (G s)).2).2)
    by (apply wf_graph_newNode, wf_graph_newNode, HwfG).
  assert (HG2n : nodes (newNode (newNode (G s)).2).2
                 = nodes (G s) ++ [nodeIdCount (G s); S (nodeIdCount (G s))]).
  { unfold newNode. cbn [snd nodes nodeIdCount]. by rewrite <- app_assoc. }
  assert (HG2c : nodeIdCount (newNode (newNode (G s)).2).2
                 = S (S (nodeIdCount (G s)))) by done.
  assert (HG2e : edgeIdCount (newNode (newNode (G s)).2).2 = edgeIdCount (G s))
    by done.
  pose proof (adjEntries_newNode_twice (G s)) as HG2adj.
  remember (newNode (newNode (G s)).2).2 as G2 eqn:HG2.
  remember (nodeIdCount (G s)) as cn eqn:Hcneq.
  remember (S cn) as pn eqn:Hpneq.
  assert (Hcn : cn ∉ nodes (G s)) by (intros ?%Hnlt; lia).
  assert (Hpn : pn ∉ nodes (G s)) by (intros ?%Hnlt; lia).
  assert (Hcp : cn ≠ pn) by lia.
  destruct (gray_assigned_spec (nodes (G s)) (cg s) cn pn c p)
    as (Hwf4 & Htree & Hcl & Hno); try done.
  remember (gray_assigned (cg s) cn pn c p) as cg4 eqn:Hcg4.
  assert (HG2cn : adjEntries G2 cn = []).
  { rewrite HG2adj. rewrite decide_False by lia. by rewrite decide_True. }
  assert (HG2pn : adjEntries G2 pn = []).
  { rewrite HG2adj. by rewrite decide_True. }
  pose proof HwfG2 as (_ & _ & Hadj2)%wf_graph_spec.
  pose proof Hwf4 as (_ & HndL & HinL & _).
  destruct (reroute_nodes_spec cg4 c pn cn G2 (c_nodes cg4 c) G2 0)
    as (R1 & R2 & R3 & R4 & R5 & R6).
  { done. }
  { apply HndL. }
  { intros Hin%HinL. rewrite Hcl, decide_True in Hin by done. congruence. }
  { intros n Hn _. by apply HinL. }
  { intros n x Hn Hncn Hx.
    assert (Hnpn : n ≠ pn).
    { intros ->. apply HinL in Hn. rewrite Hcl, decide_True in Hn by done.
      congruence. }
    destruct (Hadj2 n x Hx) as (Hth & _ & _). split; [done|].
    rewrite HG2adj in Hx. rewrite !decide_False in Hx by lia.
    destruct (Hadj n x Hx) as (_ & _ & Htw). lia. }
  { done. }
  rewrite HX in R1, R2, R3, R4. rewrite HG2pn in R1. rewrite HG2cn, HG2e in R2.
  rewrite HG2e in R4. rewrite app_nil_l in R1, R2. rewrite Nat.add_0_l in R3.
  remember (perimeter_entries (G s) (cg s) c) as X eqn:HXeq.
  remember (foldl (reroute_node cg4 c pn cn) (G2, 0) (c_nodes cg4 c)) as r eqn:Hr.
  assert (HwfG3 : wf_graph r.1).
  { rewrite Hr. apply wf_graph_reroute_nodes; [done | rewrite HG2c; lia..]. }
  remember (if decide (r.2 = 0) then r.1 else reverseAdjEdges r.1 pn) as G4
    eqn:HG4.
  assert (HwfG4 : wf_graph G4).
  { rewrite HG4. case_decide; [done | by apply wf_graph_reverseAdjEdges]. }
  assert (HG4n : nodes G4 = nodes (G s) ++ [cn; pn]).
  { rewrite HG4. case_decide;
      [|change (nodes (reverseAdjEdges r.1 pn)) with (nodes r.1)];
      by rewrite R5, HG2n. }
  assert (HG4c : nodeIdCount G4 = S (S cn)).
  { rewrite HG4. case_decide;
      [|change (nodeIdCount (reverseAdjEdges r.1 pn)) with (nodeIdCount r.1)];
      rewrite R6, HG2c; lia. }
  assert (HG4e : edgeIdCount G4 = edgeIdCount (G s) + length X).
  { rewrite HG4. case_decide;
      [|change (edgeIdCount (reverseAdjEdges r.1 pn)) with (edgeIdCount r.1)];
      by rewrite R4. }
  assert (HG4cn : adjEntries G4 cn = imap (cn_entry cn (edgeIdCount (G s))) X).
  { rewrite HG4. case_decide; [done|]. unfold reverseAdjEdges.
    by rewrite adjEntries_set, decide_False. }
  assert (HG4pn : adjEntries G4 pn = reverse (pn_entry pn <$> X)).
  { rewrite HG4. case_decide as H0.
    - rewrite R1. rewrite R3 in H0.
      apply length_zero_iff_nil in H0. by rewrite H0.
    - unfold reverseAdjEdges. by rewrite adjEntries_set, decide_True, R1. }
  exists p.
  exists {| G := G4; cg := cg4; matchings := matchings s ++ [(cn, pn)];
            clusters := <[length (clusters s) - 1 - fc_it :=
                            with_parent_node cn fc]> (clusters s) |}.
  split; [done|]. split.
  - unfold set_parent_node. rewrite (fc_at_Some _ _ fc) by done.
    rewrite decide_True by done. rewrite bind_Some_eq.
    unfold matchNodes, degree. rewrite HG4cn, HG4pn.
    rewrite length_imap, length_reverse, length_fmap, decide_True by done.
    by rewrite bind_Some_eq.
  - cbn [G cg matchings clusters]. rewrite HG4n.
    clear Hr HG4 HG2 Hcg4. subst pn. by split_and!.
Qed.

(** *** The first loop of the constructor *)

(** The frozen cluster of [c], the [j]-th cluster of the post-order walk,
    once [k] clusters have been processed: the [k] first clusters know
    their gray node. *)
Definition frozen_entry (cg0 : ClusterGraph) (n0 k j c : nat) : FrozenCluster :=
  {| fc_index := c; fc_parent := parent cg0 c;
     fc_parent_node := if decide (j < k) then Some (n0 + 2 * j) else None;
     fc_nodes := c_nodes cg0 c |}.

(** The pipes registered by the [k] first rounds. *)
Definition pipes (n0 k : nat) : PMatching :=
  (fun j => (n0 + 2 * j, S (n0 + 2 * j))) <$> seq 0 k.

Record loop_inv (G0 : Graph) (cg0 : ClusterGraph) (k : nat) (s : state) : Prop := {
  inv_wf_graph : wf_graph (G s);
  inv_wf_clusters : wf_clusters_on (nodes (G s)) (cg s);
  inv_tree : tree (cg s) = tree cg0;
  inv_nodeIdCount : nodeIdCount (G s) = nodeIdCount G0 + 2 * k;
  inv_nodes : nodes (G s) = nodes G0 ++ seq (nodeIdCount G0) (2 * k);
  inv_matchings : matchings s = pipes (nodeIdCount G0) k;
  inv_clusters :
    clusters s
    = reverse (imap (frozen_entry cg0 (nodeIdCount G0) k) (postOrder (tree cg0)));
  inv_original : ∀ v, v ∈ nodes G0 →
    v < nodeIdCount G0 ∧ clusterOf (cg s) v = clusterOf cg0 v;
  inv_gray : ∀ j c, j < k → postOrder (tree cg0) !! j = Some c →
    clusterOf (cg s) (nodeIdCount G0 + 2 * j) = Some c
    ∧ clusterOf (cg s) (S (nodeIdCount G0 + 2 * j)) = parent cg0 c;
}.

Lemma foldl_cons_reverse {A B} (f : A → B) (l : list A) (acc : list B) :
  foldl (fun acc x => f x :: acc) acc l = reverse (f <$> l) ++ acc.
Proof.
  revert acc. induction l as [|x l IH]; intros acc; simpl; [done|].
  rewrite IH, reverse_cons, <- app_assoc. done.
Qed.

Lemma UndoInitCluster_new_frozen cg0 n0 :
  UndoInitCluster_new cg0
  = reverse (imap (frozen_entry cg0 n0 0) (postOrder (tree cg0))).
Proof.
  unfold UndoInitCluster_new. rewrite foldl_cons_reverse, app_nil_r. f_equal.
  rewrite <- (imap_const (freeze cg0)). apply imap_ext. intros j c _.
  unfold frozen_entry, freeze. simpl. destruct (decide (j < 0)); [lia | done].
Qed.

Lemma frozen_step cg0 n0 k c (post : list nat) :
  post !! k = Some c →
  <[length post - 1 - k :=
      with_parent_node (n0 + 2 * k) (frozen_entry cg0 n0 k k c)]>
    (reverse (imap (frozen_entry cg0 n0 k) post))
  = reverse (imap (frozen_entry cg0 n0 (S k)) post).
Proof.
  intros Hk. pose proof (lookup_lt_Some _ _ _ Hk) as Hlt.
  apply list_eq. intros i. rewrite list_lookup_insert.
  rewrite length_reverse, length_imap.
  destruct (decide (i < length post)) as [Hi|Hi].
  2: { rewrite decide_False by lia.
       rewrite !lookup_ge_None_2; [done | |];
         rewrite length_reverse, length_imap; lia. }
  rewrite !reverse_lookup by (rewrite length_imap; lia).
  rewrite !length_imap, !list_lookup_imap.
  case_decide as Hc.
  - destruct Hc as [<- _].
    replace (length post - S (length post - 1 - k)) with k by lia.
    rewrite Hk. simpl. f_equal. unfold with_parent_node, frozen_entry. simpl.
    by rewrite decide_True by lia.
  - destruct (post !! (length post - S i)) as [c'|] eqn:E; [|done]. simpl.
    f_equal. unfold frozen_entry. f_equal.
    assert (length post - S i ≠ k) by lia.
    repeat case_decide; try done; lia.
Qed.

Lemma pipes_S n0 k : pipes n0 (S k) = pipes n0 k ++ [(n0 + 2 * k, S (n0 + 2 * k))].
Proof. unfold pipes. by rewrite seq_S, fmap_app. Qed.

Lemma gray_seq_S n0 k :
  seq n0 (2 * S k) = seq n0 (2 * k) ++ [n0 + 2 * k; S (n0 + 2 * k)].
Proof.
  replace (2 * S k) with (2 * k + 2) by lia. rewrite seq_app. simpl.
  repeat f_equal; lia.
Qed.

Lemma loop_inv_start G0 cg0 :
  wf_graph G0 → wf_clusters G0 cg0 →
  loop_inv G0 cg0 0
    {| G := G0; cg := cg0; matchings := []; clusters := UndoInitCluster_new cg0 |}.
Proof.
  intros HG Hcg.
  split; simpl;
    [done | by apply wf_clusters_spec | done | lia | by rewrite app_nil_r | done
    | apply UndoInitCluster_new_frozen | | intros; lia].
  intros v Hv. split; [|done].
  apply wf_graph_spec in HG as (_ & H2 & _). by apply H2.
Qed.

Lemma loop_inv_lookup_frozen G0 cg0 k s c :
  loop_inv G0 cg0 k s → postOrder (tree cg0) !! k = Some c →
  k < length (clusters s)
  ∧ clusters s !! (length (clusters s) - 1 - k)
    = Some (frozen_entry cg0 (nodeIdCount G0) k k c)
  ∧ length (clusters s) = length (postOrder (tree cg0)).
Proof.
  intros Hinv Hk. pose proof (lookup_lt_Some _ _ _ Hk) as Hlt.
  rewrite (inv_clusters _ _ _ _ Hinv), length_reverse, length_imap.
  split_and!; [done | | done].
  rewrite reverse_lookup by (rewrite length_imap; lia).
  rewrite length_imap, list_lookup_imap.
  replace (length _ - S (length _ - 1 - k)) with k by lia.
  by rewrite Hk.
Qed.

(** A round keeps the invariant. *)
Lemma loop_inv_step G0 cg0 k s c :
  loop_inv G0 cg0 k s → postOrder (tree cg0) !! k = Some c →
  c ≠ rootCluster cg0 →
  ∃ s', process_cluster s k c = Some s' ∧ loop_inv G0 cg0 (S k) s'.
Proof.
  intros Hinv Hk Hroot.
  destruct (loop_inv_lookup_frozen _ _ _ _ _ Hinv Hk) as (Hlt & Hfc & Hlen).
  destruct Hinv as [HwfG Hwf Htree Hcount Hnodes HM Hcl Horig Hgray].
  destruct (process_cluster_spec s k c
              (frozen_entry cg0 (nodeIdCount G0) k k c) HwfG Hwf) as
    (p & s' & Hp & Hs' & HwfG' & Hwf' & Htree' & Hn' & Hc' & _ & Hclu & _ & _ & _
       & HM' & Hcl'); try done.
  - rewrite Htree. apply list_elem_of_lookup. eauto.
  - unfold rootCluster in *. by rewrite Htree.
  - exists s'. split; [done|]. split; try done.
    + by rewrite Htree'.
    + rewrite Hc', Hcount. lia.
    + rewrite Hn', Hnodes, Hcount, gray_seq_S. by rewrite <- app_assoc.
    + by rewrite HM', HM, Hcount, pipes_S.
    + rewrite Hcl', Hlen, Hcl, Hcount. by apply frozen_step.
    + intros v Hv. destruct (Horig v Hv) as [Hlt0 Hv0]. split; [done|].
      rewrite Hclu, !decide_False by lia. done.
    + intros j c' Hj Hc'j. rewrite !Hclu, Hcount.
      assert (Hpar : parent (cg s) c = parent cg0 c)
        by (unfold parent; by rewrite Htree).
      destruct (decide (j = k)) as [->|Hjk].
      * rewrite Hk in Hc'j. injection Hc'j as <-.
        rewrite decide_False, decide_True by lia.
        rewrite decide_True by done. by rewrite <- Hpar.
      * rewrite !decide_False by lia. apply Hgray; [lia | done].
Qed.

Lemma reroute_clusters_app s k l1 l2 :
  reroute_clusters s k (l1 ++ l2)
  = reroute_clusters s k l1 ≫= fun r => reroute_clusters r.1 r.2 l2.
Proof.
  revert s k. induction l1 as [|c l1 IH]; intros s k; simpl; [done|].
  destruct (process_cluster s k c) as [s'|]; simpl; [apply IH | done].
Qed.

Lemma reroute_clusters_inv G0 cg0 pre cs rest s :
  postOrder (tree cg0) = pre ++ cs ++ rest →
  rootCluster cg0 ∉ cs →
  loop_inv G0 cg0 (length pre) s →
  ∃ s', reroute_clusters s (length pre) cs = Some (s', length pre + length cs)
        ∧ loop_inv G0 cg0 (length pre + length cs) s'.
Proof.
  revert pre s. induction cs as [|c cs IH]; intros pre s Hpost Hroot Hinv; simpl.
  - exists s. by rewrite Nat.add_0_r.
  - apply not_elem_of_cons in Hroot as [Hne Hroot].
    destruct (loop_inv_step G0 cg0 (length pre) s c) as (s1 & Hs1 & Hinv1);
      [done | | done |].
    { rewrite Hpost. simpl. by apply list_lookup_middle. }
    rewrite Hs1. simpl.
    destruct (IH (pre ++ [c]) s1) as (s' & Hs' & Hinv').
    + by rewrite Hpost, <- app_assoc.
    + done.
    + by rewrite length_app, Nat.add_1_r.
    + rewrite length_app, Nat.add_1_r in Hs', Hinv'. simpl in *.
      exists s'. replace (length pre + S (length cs))
        with (S (length pre) + length cs) by lia. done.
Qed.

(** *** Flattening *)

Lemma flatten_cluster_spec ns c fuel cg :
  wf_clusters_on ns cg → c ≠ rootCluster cg →
  length (c_nodes cg c) ≤ fuel →
  ∃ cg', flatten_cluster fuel cg c = Some cg'
    ∧ wf_clusters_on ns cg' ∧ tree cg' = tree cg
    ∧ (∀ d, c_nodes cg' d
            = if decide (d = c) then []
              else if decide (d = rootCluster cg)
                   then c_nodes cg d ++ c_nodes cg c else c_nodes cg d)
    ∧ (∀ v, clusterOf cg' v
            = if decide (clusterOf cg v = Some c) then Some (rootCluster cg)
              else clusterOf cg v).
Proof.
  revert cg. induction fuel as [|fuel IH]; intros cg Hwf Hroot Hlen.
  - destruct (c_nodes cg c) as [|v rest] eqn:E; [|simpl in Hlen; lia].
    exists cg. simpl. rewrite E. split_and!; try done.
    + intros d. destruct (decide (d = c)) as [->|]; [done|].
      case_decide; [by rewrite ?E, ?app_nil_r | done].
    + intros v. case_decide as Hv; [|done].
      destruct Hwf as (_ & _ & _ & H4 & _). destruct (H4 v c Hv) as (_ & _ & Hin).
      rewrite E in Hin. by apply elem_of_nil in Hin.
  - cbn [flatten_cluster]. destruct (c_nodes cg c) as [|v rest] eqn:E.
    + exists cg. split_and!; try done.
      * intros d. destruct (decide (d = c)) as [->|]; [done|].
        case_decide; [by rewrite ?E, ?app_nil_r | done].
      * intros w. case_decide as Hv; [|done].
        destruct Hwf as (_ & _ & _ & H4 & _).
        destruct (H4 w c Hv) as (_ & _ & Hin).
        rewrite E in Hin. by apply elem_of_nil in Hin.
    + pose proof Hwf as (_ & Hnd & H3 & H4 & _).
      assert (Hvc : clusterOf cg v = Some c) by (apply H3; rewrite E; by left).
      destruct (H4 v c Hvc) as (Hvns & _ & _).
      assert (Hvrest : v ∉ rest).
      { specialize (Hnd c). rewrite E in Hnd. by apply NoDup_cons in Hnd as []. }
      set (cg1 := reassignNode cg v (rootCluster cg)).
      assert (Hwf1 : wf_clusters_on ns cg1).
      { apply (wf_clusters_reassign ns); [done | apply index_in_postOrder |].
        intros w. split; [by left | by intros [?| ->]]. }
      assert (Hno1 : ∀ d, c_nodes cg1 d
                = if decide (d = c) then rest
                  else if decide (d = rootCluster cg) then c_nodes cg d ++ [v]
                       else c_nodes cg d).
      { intros d. unfold cg1. rewrite (c_nodes_reassign ns) by done.
        destruct (decide (d = c)) as [->|Hdc].
        - rewrite E, filter_cons, decide_False by (intros ?; done).
          rewrite filter_ne_id by done.
          rewrite decide_False by done. by rewrite app_nil_r.
        - rewrite filter_ne_id.
          + case_decide; [done | by rewrite app_nil_r].
          + intros Hin%H3. congruence. }
      destruct (IH cg1) as (cg' & Hfl & Hwf' & Htree & Hno' & Hcl'); [done | | |].
      * unfold cg1. by rewrite rootCluster_reassign.
      * rewrite Hno1, decide_True by done. simpl in Hlen. lia.
      * exists cg'.
        assert (Htree1 : tree cg' = tree cg)
          by (rewrite Htree; unfold cg1; apply tree_reassign).
        assert (Hroot1 : rootCluster cg1 = rootCluster cg)
          by (unfold cg1; apply rootCluster_reassign).
        rewrite Hroot1 in Hno', Hcl'.
        split_and!; try done.
        -- intros d. rewrite Hno'. destruct (decide (d = c)) as [|Hdc]; [done|].
           destruct (decide (d = rootCluster cg)) as [Hdr|Hdr].
           ++ rewrite (Hno1 d), (Hno1 c).
              rewrite decide_False by done. rewrite decide_True by done.
              rewrite decide_True by done. by rewrite <- app_assoc.
           ++ rewrite (Hno1 d). rewrite decide_False by done.
              by rewrite decide_False by done.
        -- intros w. rewrite Hcl'. unfold cg1. rewrite clusterOf_reassign.
           destruct (decide (w = v)) as [->|Hwv].
           ++ rewrite decide_False by congruence. by rewrite decide_True.
           ++ done.
Qed.

Lemma flatten_clusters_spec ns cs cg :
  wf_clusters_on ns cg → NoDup cs → rootCluster cg ∉ cs →
  ∃ cg', flatten_clusters cg cs = Some cg'
    ∧ wf_clusters_on ns cg' ∧ tree cg' = tree cg
    ∧ (∀ d, d ∈ cs → c_nodes cg' d = [])
    ∧ (∀ v, clusterOf cg' v
            = match clusterOf cg v with
              | Some d => if decide (d ∈ cs) then Some (rootCluster cg) else Some d
              | None => None
              end).
Proof.
  revert cg. induction cs as [|c cs IH]; intros cg Hwf Hnd Hroot; simpl.
  - exists cg. split_and!; try done.
    + by intros d ?%elem_of_nil.
    + intros v. destruct (clusterOf cg v) as [d|]; [|done].
      destruct (decide (d ∈ [])) as [?%elem_of_nil|]; done.
  - apply NoDup_cons in Hnd as [Hc Hnd].
    apply not_elem_of_cons in Hroot as [Hne Hroot].
    destruct (flatten_cluster_spec ns c (length (c_nodes cg c)) cg)
      as (cg1 & Hfl & Hwf1 & Htree1 & Hno1 & Hcl1); [done | done | lia |].
    rewrite Hfl. simpl.
    assert (Hroot1 : rootCluster cg1 = rootCluster cg)
      by (unfold rootCluster; by rewrite Htree1).
    destruct (IH cg1) as (cg' & Hfl' & Hwf' & Htree' & Hno' & Hcl');
      [done | done | by rewrite Hroot1 |].
    exists cg'. rewrite Hroot1 in Hcl'. split_and!; try done.
    + congruence.
    + intros d [->|Hd]%elem_of_cons; [|by apply Hno'].
      destruct Hwf' as (_ & _ & H3 & H4 & _).
      destruct (c_nodes cg' c) as [|v rest] eqn:E; [done|]. exfalso.
      assert (Hv : clusterOf cg' v = Some c) by (apply H3; rewrite E; by left).
      rewrite Hcl', Hcl1 in Hv. case_decide as Hvc.
      * case_decide; congruence.
      * destruct (clusterOf cg v) as [d|]; [|done].
        case_decide; [congruence|]. congruence.
    + intros v. rewrite Hcl', Hcl1. case_decide as Hvc.
      * rewrite Hvc. rewrite decide_False by done.
        rewrite decide_True; [done | by left].
      * destruct (clusterOf cg v) as [d|]; [|done].
        assert (d ≠ c) by congruence.
        destruct (decide (d ∈ cs)).
        -- rewrite decide_True; [done | by right].
        -- rewrite decide_False; [done|]. by intros [?|?]%elem_of_cons.
Qed.

(** *** The whole constructor *)

Definition walk (cg0 : ClusterGraph) : list nat :=
  until_root (rootCluster cg0) (postOrder (tree cg0)).

Definition initial (G0 : Graph) (cg0 : ClusterGraph) : state :=
  {| G := G0; cg := cg0; matchings := []; clusters := UndoInitCluster_new cg0 |}.

(** The state after the [i] first rounds of the first loop. *)
Definition rounds (G0 : Graph) (cg0 : ClusterGraph) (i : nat) : option state :=
  fst <$> reroute_clusters (initial G0 cg0) 0 (take i (walk cg0)).

Lemma walk_postOrder cg0 :
  NoDup (postOrder (tree cg0)) →
  postOrder (tree cg0) = walk cg0 ++ [rootCluster cg0]
  ∧ NoDup (walk cg0) ∧ rootCluster cg0 ∉ walk cg0.
Proof.
  intros Hnd. pose proof (until_root_postOrder _ Hnd) as Heq.
  fold (rootCluster cg0) in Heq. fold (walk cg0) in Heq.
  rewrite Heq in Hnd. apply NoDup_app in Hnd as (Hw & Hdis & _).
  split_and!; [done | done |].
  intros Hin. apply (Hdis _ Hin). by apply list_elem_of_singleton.
Qed.

Lemma rounds_inv G0 cg0 i :
  wf_graph G0 → wf_clusters G0 cg0 → i ≤ length (walk cg0) →
  ∃ s, reroute_clusters (initial G0 cg0) 0 (take i (walk cg0)) = Some (s, i)
       ∧ loop_inv G0 cg0 i s.
Proof.
  intros HG Hcg Hi. pose proof Hcg as (Hnd & _).
  destruct (walk_postOrder cg0 Hnd) as (Hpost & Hndw & Hroot).
  destruct (reroute_clusters_inv G0 cg0 [] (take i (walk cg0))
              (drop i (walk cg0) ++ [rootCluster cg0]) (initial G0 cg0))
    as (s & Hs & Hinv).
  - simpl. by rewrite app_assoc, take_drop.
  - intros Hin. apply Hroot. by apply (subseteq_take i).
  - by apply loop_inv_start.
  - simpl in *. rewrite length_take_le in Hs, Hinv by done. eauto.
Qed.

Lemma SyncPlan_new_spec G0 cg0 :
  wf_graph G0 → wf_clusters G0 cg0 →
  ∃ s1 cg', rounds G0 cg0 (length (walk cg0)) = Some s1
    ∧ loop_inv G0 cg0 (length (walk cg0)) s1
    ∧ flatten_clusters (cg s1) (walk cg0) = Some cg'
    ∧ SyncPlan_new G0 cg0
      = Some {| G := G s1; cg := cg'; matchings := matchings s1;
                clusters := clusters s1 |}.
Proof.
  intros HG Hcg. pose proof Hcg as (Hnd & _).
  destruct (walk_postOrder cg0 Hnd) as (Hpost & Hndw & Hroot).
  destruct (rounds_inv G0 cg0 (length (walk cg0)) HG Hcg) as (s1 & Hs1 & Hinv);
    [done|].
  rewrite firstn_all in Hs1.
  assert (Hroot1 : rootCluster (cg s1) = rootCluster cg0).
  { unfold rootCluster. by rewrite (inv_tree _ _ _ _ Hinv). }
  destruct (flatten_clusters_spec (nodes (G s1)) (walk cg0) (cg s1))
    as (cg' & Hfl & _); [apply Hinv | done | by rewrite Hroot1 |].
  exists s1, cg'. split_and!; try done.
  - unfold rounds. by rewrite firstn_all, Hs1.
  - unfold SyncPlan_new. fold (walk cg0). fold (initial G0 cg0).
    rewrite Hs1. simpl.
    destruct (loop_inv_lookup_frozen G0 cg0 (length (walk cg0)) s1 (rootCluster cg0))
      as (Hlt & Hfc & Hlen); [done | |].
    { rewrite Hpost. by apply list_lookup_middle. }
    rewrite (fc_at_Some _ _ _ Hlt Hfc). simpl.
    rewrite decide_True.
    + by rewrite Hfl.
    + split; [done|]. rewrite Hlen, Hpost, length_app. simpl. lia.
Qed.

(** *** Pipes and their partners *)

Lemma elem_of_pipes n0 k a b :
  (a, b) ∈ pipes n0 k ↔ ∃ j, j < k ∧ a = n0 + 2 * j ∧ b = S (n0 + 2 * j).
Proof.
  unfold pipes. rewrite list_elem_of_fmap. split.
  - intros (j & [= -> ->] & Hj%elem_of_seq). exists j. split_and!; [lia | done..].
  - intros (j & Hj & -> & ->). exists j. split; [done|]. apply elem_of_seq. lia.
Qed.

Lemma getTwin_last n0 k :
  getTwin (pipes n0 (S k)) (n0 + 2 * k) = Some (S (n0 + 2 * k))
  ∧ getTwin (pipes n0 (S k)) (S (n0 + 2 * k)) = Some (n0 + 2 * k).
Proof.
  rewrite pipes_S. unfold getTwin. split.
  - rewrite list_find_app_r.
    + simpl. rewrite decide_True by (by left). simpl. by rewrite decide_True.
    + apply list_find_None, Forall_forall. intros [a b] Hab.
      apply elem_of_pipes in Hab as (j & ? & -> & ->).
      simpl. lia.
  - rewrite list_find_app_r.
    + simpl. rewrite decide_True by (by right). simpl. by rewrite decide_False by lia.
    + apply list_find_None, Forall_forall. intros [a b] Hab.
      apply elem_of_pipes in Hab as (j & ? & -> & ->).
      simpl. lia.
Qed.

Lemma filter_all {A} (P : A → Prop) `{∀ x, Decision (P x)} (l : list A) :
  Forall P l → filter P l = l.
Proof.
  induction 1 as [|x l Hx _ IH]; [done|].
  by rewrite filter_cons, decide_True, IH.
Qed.

Lemma removeMatching_last n0 k :
  removeMatching (pipes n0 (S k)) (n0 + 2 * k) (S (n0 + 2 * k)) = pipes n0 k.
Proof.
  rewrite pipes_S. unfold removeMatching. rewrite filter_app.
  rewrite filter_cons, decide_False by (intros [? _]; done).
  rewrite filter_nil, app_nil_r. apply filter_all, Forall_forall.
  intros [a b] Hab.
      apply elem_of_pipes in Hab as (j & ? & -> & ->).
  split; intros [= ? ?]; lia.
Qed.

(** *** The rounds of the first loop, one by one *)

Lemma rounds_S G0 cg0 i c s1 :
  wf_graph G0 → wf_clusters G0 cg0 →
  walk cg0 !! i = Some c → rounds G0 cg0 i = Some s1 →
  rounds G0 cg0 (S i) = process_cluster s1 i c.
Proof.
  intros HG Hcg Hc Hs1. pose proof (lookup_lt_Some _ _ _ Hc) as Hlt.
  destruct (rounds_inv G0 cg0 i HG Hcg) as (s & Hs & _); [lia|].
  unfold rounds in *. rewrite Hs in Hs1. injection Hs1 as ->.
  rewrite (take_S_r _ _ c) by done. rewrite reroute_clusters_app, Hs. simpl.
  by destruct (process_cluster s1 i c).
Qed.

Lemma walk_in_postOrder cg0 i c :
  NoDup (postOrder (tree cg0)) → walk cg0 !! i = Some c →
  postOrder (tree cg0) !! i = Some c ∧ c ≠ rootCluster cg0
  ∧ c ∈ postOrder (tree cg0).
Proof.
  intros Hnd Hc. destruct (walk_postOrder cg0 Hnd) as (Hpost & _ & Hroot).
  assert (Hi : postOrder (tree cg0) !! i = Some c).
  { rewrite Hpost. rewrite lookup_app_l; [done | by eapply lookup_lt_Some]. }
  split_and!; [done | | apply list_elem_of_lookup; eauto].
  intros ->. apply Hroot. apply list_elem_of_lookup. eauto.
Qed.

(** What one round does, in terms of the state it starts from. *)
Lemma round_spec G0 cg0 i c :
  wf_graph G0 → wf_clusters G0 cg0 → walk cg0 !! i = Some c →
  ∃ p s1 s2,
    parent cg0 c = Some p
    ∧ rounds G0 cg0 i = Some s1
    ∧ process_cluster s1 i c = Some s2
    ∧ rounds G0 cg0 (S i) = Some s2
    ∧ loop_inv G0 cg0 i s1 ∧ loop_inv G0 cg0 (S i) s2
    ∧ adjEntries (G s2) (nodeIdCount G0 + 2 * i)
      = imap (cn_entry (nodeIdCount G0 + 2 * i) (edgeIdCount (G s1)))
          (perimeter_entries (G s1) (cg s1) c)
    ∧ adjEntries (G s2) (S (nodeIdCount G0 + 2 * i))
      = reverse (pn_entry (S (nodeIdCount G0 + 2 * i))
                   <$> perimeter_entries (G s1) (cg s1) c).
Proof.
  intros HG Hcg Hc. pose proof Hcg as (Hnd & _).
  destruct (walk_in_postOrder cg0 i c Hnd Hc) as (Hi & Hroot & Hin).
  pose proof (lookup_lt_Some _ _ _ Hc) as Hlt.
  destruct (rounds_inv G0 cg0 i HG Hcg) as (s1 & Hs1 & Hinv1); [lia|].
  assert (Hr1 : rounds G0 cg0 i = Some s1) by (unfold rounds; by rewrite Hs1).
  destruct (loop_inv_lookup_frozen _ _ _ _ _ Hinv1 Hi) as (Hlt' & Hfc & Hlen).
  destruct (process_cluster_spec s1 i c
              (frozen_entry cg0 (nodeIdCount G0) i i c)
              (inv_wf_graph _ _ _ _ Hinv1) (inv_wf_clusters _ _ _ _ Hinv1))
    as (p & s2 & Hp & Hs2 & _ & _ & _ & _ & _ & _ & _ & _ & Hcn & Hpn & _);
    try done.
  { by rewrite (inv_tree _ _ _ _ Hinv1). }
  { unfold rootCluster. by rewrite (inv_tree _ _ _ _ Hinv1). }
  destruct (loop_inv_step G0 cg0 i s1 c Hinv1 Hi Hroot) as (s2' & Hs2' & Hinv2).
  rewrite Hs2 in Hs2'. injection Hs2' as <-.
  rewrite (inv_nodeIdCount _ _ _ _ Hinv1) in Hcn, Hpn.
  exists p, s1, s2. split_and!; try done.
  - rewrite <- Hp. unfold parent. by rewrite (inv_tree _ _ _ _ Hinv1).
  - by rewrite (rounds_S G0 cg0 i c s1).
Qed.

(** The constructor walks the clusters in post-order, children before
    their parents, and stops at the root, which is last.  In the round of
    the [i]-th cluster [c], with parent [p], it creates two nodes [cn] and
    [pn] that the graph did not have, assigns [cn] to [c] and [pn] to [p],
    and registers the pipe ([cn], [pn]); [matchNodes] finds
    [deg(cn) == deg(pn)], both being the number of perimeter-crossing edges
    of [c].  The constructor returns, with one pipe per cluster other than
    the root. *)
Theorem constructor_registers_pipes (G0 : Graph) (cg0 : ClusterGraph) :
  wf_graph G0 → wf_clusters G0 cg0 →
  postOrder (tree cg0) = walk cg0 ++ [rootCluster cg0]
  ∧ (∀ c p, parent cg0 c = Some p →
       ∃ l1 l2 l3, postOrder (tree cg0) = l1 ++ c :: l2 ++ p :: l3)
  ∧ (∀ i c, walk cg0 !! i = Some c →
       ∃ p s1 s2,
         parent cg0 c = Some p
         ∧ rounds G0 cg0 i = Some s1
         ∧ process_cluster s1 i c = Some s2
         ∧ (nodeIdCount G0 + 2 * i ∉ nodes (G s1))
         ∧ (S (nodeIdCount G0 + 2 * i) ∉ nodes (G s1))
         ∧ nodes (G s2)
           = nodes (G s1) ++ [nodeIdCount G0 + 2 * i; S (nodeIdCount G0 + 2 * i)]
         ∧ clusterOf (cg s2) (nodeIdCount G0 + 2 * i) = Some c
         ∧ clusterOf (cg s2) (S (nodeIdCount G0 + 2 * i)) = Some p
         ∧ matchings s2
           = matchings s1
             ++ [(nodeIdCount G0 + 2 * i, S (nodeIdCount G0 + 2 * i))]
         ∧ degree (G s2) (nodeIdCount G0 + 2 * i)
           = degree (G s2) (S (nodeIdCount G0 + 2 * i))
         ∧ degree (G s2) (nodeIdCount G0 + 2 * i)
           = length (perimeter_entries (G s1) (cg s1) c))
  ∧ (∃ s, SyncPlan_new G0 cg0 = Some s
          ∧ matchings s = pipes (nodeIdCount G0) (length (walk cg0))
          ∧ length (matchings s) = length (postOrder (tree cg0)) - 1).
Proof.
  intros HG Hcg. pose proof Hcg as (Hnd & _).
  destruct (walk_postOrder cg0 Hnd) as (Hpost & _ & _).
  split_and!.
  - done.
  - intros c p Hp%parent_Some. by apply child_before_parent.
  - intros i c Hc.
    destruct (round_spec G0 cg0 i c HG Hcg Hc)
      as (p & s1 & s2 & Hp & Hr1 & Hs2 & _ & Hinv1 & Hinv2 & Hcn & Hpn).
    destruct (walk_in_postOrder cg0 i c Hnd Hc) as (Hi & _ & _).
    exists p, s1, s2.
    pose proof (inv_wf_graph _ _ _ _ Hinv1) as (_ & Hlt & _)%wf_graph_spec.
    rewrite (inv_nodeIdCount _ _ _ _ Hinv1) in Hlt.
    destruct (inv_gray _ _ _ _ Hinv2 i c) as [Hgc Hgp]; [lia | done |].
    split_and!; try done.
    + intros ?%Hlt. lia.
    + intros ?%Hlt. lia.
    + rewrite (inv_nodes _ _ _ _ Hinv2), (inv_nodes _ _ _ _ Hinv1).
      by rewrite gray_seq_S, <- app_assoc.
    + by rewrite Hgp.
    + rewrite (inv_matchings _ _ _ _ Hinv2), (inv_matchings _ _ _ _ Hinv1).
      apply pipes_S.
    + unfold degree. rewrite Hcn, Hpn.
      by rewrite length_imap, length_reverse, length_fmap.
    + unfold degree. rewrite Hcn. apply length_imap.
  - destruct (SyncPlan_new_spec G0 cg0 HG Hcg) as (s1 & cg' & _ & Hinv & _ & Hs).
    eexists. split; [exact Hs|]. simpl.
    rewrite (inv_matchings _ _ _ _ Hinv). split; [done|].
    unfold pipes. rewrite length_fmap, length_seq, Hpost, length_app. simpl. lia.
Qed.

(** After the constructor every cluster other than the root is empty
    and every node of the graph, the original ones as the gray ones, is in
    the root cluster; before the second loop the gray node [cn] of a cluster
    was one of its nodes. *)
Theorem constructor_flattens (G0 : Graph) (cg0 : ClusterGraph) :
  wf_graph G0 → wf_clusters G0 cg0 →
  ∃ s1 s,
    rounds G0 cg0 (length (walk cg0)) = Some s1
    ∧ SyncPlan_new G0 cg0 = Some s
    ∧ nodes (G s)
      = nodes G0 ++ seq (nodeIdCount G0) (2 * length (walk cg0))
    ∧ (∀ i c, walk cg0 !! i = Some c →
         nodeIdCount G0 + 2 * i ∈ c_nodes (cg s1) c)
    ∧ (∀ c, c ∈ postOrder (tree cg0) → c ≠ rootCluster cg0 →
         c_nodes (cg s) c = [])
    ∧ (∀ v, v ∈ nodes (G s) →
         clusterOf (cg s) v = Some (rootCluster cg0)
         ∧ v ∈ c_nodes (cg s) (rootCluster cg0)).
Proof.
  intros HG Hcg. pose proof Hcg as (Hnd & _).
  destruct (walk_postOrder cg0 Hnd) as (Hpost & Hndw & Hroot).
  destruct (SyncPlan_new_spec G0 cg0 HG Hcg) as (s1 & cg' & Hr & Hinv & Hfl & Hs).
  assert (Hroot1 : rootCluster (cg s1) = rootCluster cg0).
  { unfold rootCluster. by rewrite (inv_tree _ _ _ _ Hinv). }
  destruct (flatten_clusters_spec (nodes (G s1)) (walk cg0) (cg s1))
    as (cg'' & Hfl' & Hwf' & Htree' & Hempty & Hcl);
    [apply Hinv | done | by rewrite Hroot1 |].
  rewrite Hfl in Hfl'. injection Hfl' as <-.
  eexists s1, _. split; [exact Hr|]. split; [exact Hs|]. simpl.
  split_and!.
  - apply (inv_nodes _ _ _ _ Hinv).
  - intros i c Hc.
    destruct (walk_in_postOrder cg0 i c Hnd Hc) as (Hi & _ & _).
    destruct (inv_gray _ _ _ _ Hinv i c) as [Hgc _];
      [by eapply lookup_lt_Some | done |].
    pose proof (inv_wf_clusters _ _ _ _ Hinv) as (_ & _ & _ & H4 & _).
    by destruct (H4 _ _ Hgc) as (_ & _ & ?).
  - intros c Hc Hne. apply Hempty. rewrite Hpost in Hc.
    apply elem_of_app in Hc as [Hc | Hc%list_elem_of_singleton]; done.
  - intros v Hv.
    pose proof (inv_wf_clusters _ _ _ _ Hinv) as (_ & _ & _ & H4 & H5).
    destruct (H5 v Hv) as [d Hd]. destruct (H4 v d Hd) as (_ & Hdin & _).
    assert (Hv' : clusterOf cg' v = Some (rootCluster cg0)).
    { rewrite Hcl, Hd, Hroot1. case_decide as Hdw; [done|].
      rewrite (inv_tree _ _ _ _ Hinv), Hpost in Hdin.
      apply elem_of_app in Hdin as [? | ->%list_elem_of_singleton]; done. }
    split; [done|]. destruct Hwf' as (_ & _ & _ & H4' & _).
    by destruct (H4' _ _ Hv') as (_ & _ & ?).
Qed.

(** When the pipe ([cn], [pn]) of a cluster is registered, the two gray
    nodes have one adjacency entry for every perimeter-crossing entry [x] of
    the cluster, [cn]'s in the order in which the entries were met and
    [pn]'s in the reverse order; the incident-edge bijection pairs, position
    by position, the entry that joins [cn] to the node of [x] with the entry
    that joins [pn] to the node at the other end of [x], on the edge of
    [x]; it covers both lists, and the two degrees are equal. *)
Theorem pipe_bijection_at_registration (G0 : Graph) (cg0 : ClusterGraph)
    (i c : nat) :
  wf_graph G0 → wf_clusters G0 cg0 → walk cg0 !! i = Some c →
  ∃ s1 s2 bij,
    rounds G0 cg0 i = Some s1
    ∧ rounds G0 cg0 (S i) = Some s2
    ∧ getIncidentEdgeBijection (G s2) (matchings s2) (nodeIdCount G0 + 2 * i)
      = Some bij
    ∧ getTwin (matchings s2) (nodeIdCount G0 + 2 * i)
      = Some (S (nodeIdCount G0 + 2 * i))
    ∧ bij.*1 = adjEntries (G s2) (nodeIdCount G0 + 2 * i)
    ∧ reverse (bij.*2) = adjEntries (G s2) (S (nodeIdCount G0 + 2 * i))
    ∧ degree (G s2) (nodeIdCount G0 + 2 * i)
      = degree (G s2) (S (nodeIdCount G0 + 2 * i))
    ∧ length bij = length (perimeter_entries (G s1) (cg s1) c)
    ∧ (∀ j x, perimeter_entries (G s1) (cg s1) c !! j = Some x →
         bij !! j
         = Some (mkAdj (nodeIdCount G0 + 2 * i) (edgeIdCount (G s1) + j) (theNode x),
                 mkAdj (S (nodeIdCount G0 + 2 * i)) (theEdge x) (twinNode x))).
Proof.
  intros HG Hcg Hc.
  destruct (round_spec G0 cg0 i c HG Hcg Hc)
    as (p & s1 & s2 & Hp & Hr1 & Hs2 & Hr2 & Hinv1 & Hinv2 & Hcn & Hpn).
  set (cn := nodeIdCount G0 + 2 * i) in *.
  set (X := perimeter_entries (G s1) (cg s1) c) in *.
  destruct (getTwin_last (nodeIdCount G0) i) as [Htw _]. fold cn in Htw.
  rewrite <- (inv_matchings _ _ _ _ Hinv2) in Htw.
  exists s1, s2, (zip (imap (cn_entry cn (edgeIdCount (G s1))) X)
                      (pn_entry (S cn) <$> X)).
  split_and!; try done.
  - unfold getIncidentEdgeBijection. rewrite Htw. simpl.
    by rewrite Hcn, Hpn, reverse_involutive.
  - rewrite fst_zip; [done|]. by rewrite length_imap, length_fmap.
  - rewrite snd_zip; [done|]. by rewrite length_imap, length_fmap.
  - unfold degree. rewrite Hcn, Hpn.
    by rewrite length_imap, length_reverse, length_fmap.
  - rewrite length_zip, length_imap, length_fmap. apply Nat.min_id.
  - intros j x Hx. change (X !! j = Some x) in Hx.
    apply lookup_zip_with_Some.
    eexists _, _. split; [done|]. split.
    + rewrite list_lookup_imap, Hx. done.
    + rewrite list_lookup_fmap, Hx. done.
Qed.

(** *** [UndoInitCluster::undo] on what the constructor built *)

Lemma nodes_foldl_join_pair G bij : nodes (foldl join_pair G bij) = nodes G.
Proof. revert G. induction bij as [|p bij IH]; intros G; simpl; [done|]. by rewrite IH. Qed.

Lemma nodes_join G u v bij :
  nodes (join G u v bij)
  = filter (fun x => x ≠ v) (filter (fun x => x ≠ u) (nodes G)).
Proof. unfold join, delNode. simpl. by rewrite nodes_foldl_join_pair. Qed.

Lemma filter_ne_seq_last (n0 k : nat) :
  filter (fun x => x ≠ n0 + k) (seq n0 (S k)) = seq n0 k.
Proof.
  rewrite seq_S, filter_app, filter_ne_same, app_nil_r.
  apply filter_ne_id. rewrite elem_of_seq. lia.
Qed.

(** [join] takes the two gray nodes of the last pipe out of the graph. *)
Lemma nodes_without_last_gray (N0 : list nat) (n0 k : nat) :
  (∀ v, v ∈ N0 → v < n0) →
  filter (fun x => x ≠ n0 + 2 * k)
    (filter (fun x => x ≠ S (n0 + 2 * k)) (N0 ++ seq n0 (2 * S k)))
  = N0 ++ seq n0 (2 * k).
Proof.
  intros Hlt.
  assert (Hid : ∀ w, n0 ≤ w → filter (fun x => x ≠ w) N0 = N0).
  { intros w Hw. apply filter_ne_id. intros ?%Hlt. lia. }
  rewrite !filter_app, !Hid by lia. f_equal.
  replace (2 * S k) with (S (S (2 * k))) by lia.
  replace (S (n0 + 2 * k)) with (n0 + S (2 * k)) by lia.
  by rewrite !filter_ne_seq_last.
Qed.

Lemma parent_root cg :
  NoDup (postOrder (tree cg)) → parent cg (rootCluster cg) = None.
Proof.
  intros Hnd. destruct (parent cg (rootCluster cg)) as [p|] eqn:Hp; [|done].
  by destruct (parent_ne cg _ p Hnd Hp) as (_ & ? & _).
Qed.

Lemma filter_not_in_cons (v : nat) (L l : list nat) :
  filter (fun x => x ∉ L) (filter (fun x => x ≠ v) l)
  = filter (fun x => x ∉ v :: L) l.
Proof.
  induction l as [|x l IH]; [done|].
  rewrite (filter_cons (fun x => x ≠ v)), (filter_cons (fun x => x ∉ v :: L)).
  destruct (decide (x ≠ v)) as [Hx|Hx].
  - rewrite filter_cons, IH.
    destruct (decide (x ∉ L)) as [HL|HL], (decide (x ∉ v :: L)) as [HvL|HvL];
      try done.
    + exfalso. apply HvL. by intros [?|?]%elem_of_cons.
    + exfalso. apply HL. intros ?. apply HvL. by right.
  - rewrite IH. destruct (decide (x ∉ v :: L)) as [HvL|HvL]; [|done].
    exfalso. apply HvL. destruct (decide (x = v)) as [->|]; [by left | done].
Qed.

(** The loop [for (int n : fc.nodes) cg->reassignNode(pq.nodeFromIndex(n),
    c)]: the nodes leave the clusters they are in and are appended, in their
    frozen order, to those of [c]. *)
Lemma reassign_nodes_spec ns G cg c L :
  wf_clusters_on ns cg → c ∈ postOrder (tree cg) → NoDup L →
  (∀ v, v ∈ L → v ∈ nodes G ∧ v ∈ ns) →
  ∃ cg', reassign_nodes G cg c L = Some cg'
    ∧ wf_clusters_on ns cg' ∧ tree cg' = tree cg
    ∧ (∀ w, clusterOf cg' w = if decide (w ∈ L) then Some c else clusterOf cg w)
    ∧ (∀ d, c_nodes cg' d
            = filter (fun x => x ∉ L) (c_nodes cg d)
              ++ (if decide (d = c) then L else [])).
Proof.
  revert cg. induction L as [|v L IH]; intros cg Hwf Hc Hnd HL; simpl.
  - exists cg. split_and!; try done.
    intros d. rewrite filter_all; [by destruct (decide (d = c)); rewrite app_nil_r|].
    apply Forall_forall. intros x _. apply not_elem_of_nil.
  - apply NoDup_cons in Hnd as [Hv Hnd].
    destruct (HL v) as [HvG Hvns]; [by left|].
    unfold nodeFromIndex. rewrite decide_True by done. rewrite bind_Some_eq.
    destruct (IH (reassignNode cg v c)) as (cg' & Hr & Hwf' & Htree & Hcl & Hcn).
    + apply (wf_clusters_reassign ns); [done | done |].
      intros w. split; [by left | by intros [?| ->]].
    + by rewrite tree_reassign.
    + done.
    + intros w Hw. apply HL. by right.
    + exists cg'. split_and!; try done.
      * by rewrite Htree, tree_reassign.
      * intros w. rewrite Hcl, clusterOf_reassign.
        destruct (decide (w = v)) as [->|Hne].
        -- rewrite (decide_True (P := v ∈ v :: L)) by (by left).
           by destruct (decide (v ∈ L)).
        -- destruct (decide (w ∈ L)) as [Hw|Hw].
           ++ by rewrite decide_True by (by right).
           ++ rewrite decide_False; [done|]. by intros [?|?]%elem_of_cons.
      * intros d. rewrite Hcn, (c_nodes_reassign ns) by done.
        rewrite filter_app, filter_not_in_cons, <- app_assoc. f_equal.
        destruct (decide (d = c)); [|done].
        rewrite filter_cons, decide_True by done. done.
Qed.

(** What [undo] has reached when [k] clusters of the walk are still to be
    processed: the gray nodes and pipes of the others are gone, their nodes
    are back. *)
Record undo_inv (G0 : Graph) (cg0 : ClusterGraph) (k : nat) (s : state) : Prop := {
  u_nodes : nodes (G s) = nodes G0 ++ seq (nodeIdCount G0) (2 * k);
  u_matchings : matchings s = pipes (nodeIdCount G0) k;
  u_tree : tree (cg s) = tree cg0;
  u_wf : wf_clusters_on (nodes (G s)) (cg s);
  u_cluster : ∀ v c, clusterOf cg0 v = Some c →
    clusterOf (cg s) v
    = Some (if decide (c ∈ drop k (walk cg0)) then c else rootCluster cg0);
  u_done : ∀ c, c ∈ drop k (walk cg0) → c_nodes (cg s) c = c_nodes cg0 c;
  u_todo : ∀ c, c ∈ take k (walk cg0) → c_nodes (cg s) c = [];
  u_root : ∃ L, c_nodes (cg s) (rootCluster cg0) = L ++ c_nodes cg0 (rootCluster cg0);
}.

Lemma original_nodes G0 cg0 c v :
  wf_graph G0 → wf_clusters G0 cg0 → v ∈ c_nodes cg0 c →
  clusterOf cg0 v = Some c ∧ v ∈ nodes G0 ∧ v < nodeIdCount G0.
Proof.
  intros (_ & Hlt & _)%wf_graph_spec (_ & _ & H3 & H4 & _)%wf_clusters_spec Hv.
  pose proof (H3 _ _ Hv) as Hc. destruct (H4 _ _ Hc) as (Hin & _).
  split_and!; [done | done | by apply Hlt].
Qed.

Lemma filters_original G0 cg0 c d (a b : nat) :
  wf_graph G0 → wf_clusters G0 cg0 → d ≠ c →
  nodeIdCount G0 ≤ a → nodeIdCount G0 ≤ b →
  filter (fun x => x ∉ c_nodes cg0 c)
    (filter (fun x => x ≠ a) (filter (fun x => x ≠ b) (c_nodes cg0 d)))
  = c_nodes cg0 d.
Proof.
  intros HG Hcg Hdc Ha Hb.
  assert (Hlt : ∀ x, x ∈ c_nodes cg0 d → x < nodeIdCount G0).
  { intros x Hx. by destruct (original_nodes G0 cg0 d x HG Hcg Hx) as (_ & _ & ?). }
  rewrite (filter_all (fun x => x ≠ b)), (filter_all (fun x => x ≠ a)).
  - apply filter_all, Forall_forall. intros x Hx Hx'.
    destruct (original_nodes G0 cg0 d x HG Hcg Hx) as (H1 & _).
    destruct (original_nodes G0 cg0 c x HG Hcg Hx') as (H2 & _). congruence.
  - apply Forall_forall. intros x ?%Hlt. lia.
  - apply Forall_forall. intros x ?%Hlt. lia.
Qed.

(** Without a trace the loop of [processCluster] only appends to
    [c->adjEntries]. *)
Lemma trace_pair_no_trace bicomps bij adjs bc pred :
  ∃ pred', foldl (trace_pair bicomps) (adjs, None, bc, pred) bij
           = (adjs ++ (kept_entry <$> bij), None, bc, pred').
Proof.
  revert adjs pred. induction bij as [|p bij IH]; intros adjs pred.
  - exists pred. simpl. by rewrite app_nil_r.
  - simpl. destruct (IH (adjs ++ [kept_entry p]) (Some (kept_entry p)))
      as [pred' ->].
    exists pred'. by rewrite <- app_assoc.
Qed.

Lemma processCluster_no_trace bicomps s A b c parent_node :
  processCluster bicomps (mkUndoing s A b None) c parent_node
  = (i ← parent_node;
     n ← nodeFromIndex (G s) i;
     t ← getTwin (matchings s) n;
     bij ← getIncidentEdgeBijection (G s) (matchings s) t;
     Some {| pq := {| G := join (G s) t n bij;
                      cg := unassignNode (unassignNode (cg s) t) n;
                      matchings := removeMatching (matchings s) n t;
                      clusters := clusters s |};
             c_adjEntries := <[c := A !!! c ++ (kept_entry <$> bij)]> A;
             adjAvailable := b;
             augmentation := None |}).
Proof.
  unfold processCluster. cbn [pq c_adjEntries adjAvailable augmentation].
  destruct parent_node as [i|]; [|done]. rewrite !bind_Some_eq.
  destruct (nodeFromIndex (G s) i) as [n|]; [|done]. rewrite !bind_Some_eq.
  destruct (getTwin (matchings s) n) as [t|]; [|done]. rewrite !bind_Some_eq.
  destruct (getIncidentEdgeBijection (G s) (matchings s) t) as [bij|]; [|done].
  rewrite !bind_Some_eq.
  by destruct (trace_pair_no_trace bicomps bij (A !!! c) (-1)%Z None) as [pred' ->].
Qed.

(** One round of [for (FrozenCluster& fc : clusters)] for a cluster other
    than the root. *)
Lemma undo_cluster_step bicomps G0 cg0 k c u :
  wf_graph G0 → wf_clusters G0 cg0 →
  walk cg0 !! k = Some c → undo_inv G0 cg0 (S k) (pq u) →
  augmentation u = None →
  ∃ u', undo_cluster bicomps u
          (frozen_entry cg0 (nodeIdCount G0) (length (walk cg0)) k c) = Some u'
        ∧ undo_inv G0 cg0 k (pq u') ∧ augmentation u' = None.
Proof.
  intros HG Hcg Hc Hinv Haug. destruct u as [s A b aug].
  cbn [pq augmentation] in Hinv, Haug. subst aug.
  pose proof Hcg as (Hnd & _).
  destruct (walk_postOrder cg0 Hnd) as (Hpost & Hndw & Hrootw).
  destruct (walk_in_postOrder cg0 k c Hnd Hc) as (_ & Hroot & Hin).
  pose proof (lookup_lt_Some _ _ _ Hc) as Hk.
  destruct (parent_is_Some cg0 c Hin Hroot) as [p Hp].
  destruct (parent_ne cg0 c p Hnd Hp) as (_ & _ & _ & Hpin).
  pose proof HG as (_ & Hlt & _)%wf_graph_spec.
  pose proof Hcg as Hcg0%wf_clusters_spec.
  destruct Hinv as [Hn HM Ht Hwf Hcl Hdone Htodo [L HL]].
  set (n0 := nodeIdCount G0) in *.
  assert (Hdrop : drop k (walk cg0) = c :: drop (S k) (walk cg0))
    by (by apply drop_S).
  assert (Htake : take (S k) (walk cg0) = take k (walk cg0) ++ [c])
    by (by apply take_S_r).
  assert (Hsplit : walk cg0 = take k (walk cg0) ++ c :: drop (S k) (walk cg0)).
  { by rewrite <- Hdrop, take_drop. }
  assert (Hc1 : (c ∉ take k (walk cg0)) ∧ (c ∉ drop (S k) (walk cg0))).
  { rewrite Hsplit in Hndw. apply NoDup_app in Hndw as (_ & Hd & Hnd2).
    apply NoDup_cons in Hnd2 as [? _]. split; [|done].
    intros Hx. apply (Hd _ Hx). by left. }
  destruct Hc1 as [Hct Hcd].
  unfold undo_cluster. cbn [pq].
  assert (Hr : rootCluster (cg s) = rootCluster cg0)
    by (unfold rootCluster; by rewrite Ht).
  rewrite Hr. cbn [fc_index fc_parent fc_parent_node fc_nodes frozen_entry].
  rewrite (decide_False (P := c = rootCluster cg0)) by done.
  rewrite Hp, bind_Some_eq, Ht, decide_True by done.
  rewrite (decide_True (P := k < length (walk cg0))) by done.
  rewrite processCluster_no_trace, bind_Some_eq.
  assert (Hcnin : n0 + 2 * k ∈ nodes (G s)).
  { rewrite Hn. apply elem_of_app. right. apply elem_of_seq. lia. }
  unfold nodeFromIndex. rewrite (decide_True (P := _ ∈ nodes (G s))) by done.
  rewrite bind_Some_eq, HM.
  destruct (getTwin_last n0 k) as [Htw1 Htw2].
  rewrite Htw1, bind_Some_eq.
  unfold getIncidentEdgeBijection. rewrite Htw2, !bind_Some_eq.
  rewrite (removeMatching_last n0 k).
  set (cn := n0 + 2 * k) in *. set (pn := S cn) in *.
  set (bij := zip _ _).
  set (G1 := join (G s) pn cn bij).
  set (cg1 := unassignNode (unassignNode (cg s) pn) cn).
  assert (HG1 : nodes G1 = nodes G0 ++ seq n0 (2 * k)).
  { unfold G1. rewrite nodes_join, Hn. by apply nodes_without_last_gray. }
  assert (Hwf1 : wf_clusters_on (nodes G1) cg1).
  { unfold cg1, G1. rewrite nodes_join.
    apply (wf_clusters_unassign (filter (fun x => x ≠ pn) (nodes (G s)))).
    - apply (wf_clusters_unassign (nodes (G s))); [done|].
      intros w. rewrite elem_of_filter_ne. tauto.
    - intros w. rewrite elem_of_filter_ne. tauto. }
  assert (Ht1 : tree cg1 = tree cg0).
  { unfold cg1. by rewrite !tree_unassign. }
  cbn [G cg matchings clusters pq c_adjEntries adjAvailable augmentation].
  destruct (reassign_nodes_spec (nodes G1) G1 cg1 c (c_nodes cg0 c))
    as (cg' & Hre & Hwf' & Ht' & Hcl' & Hcn'); try done.
  { by rewrite Ht1. }
  { by destruct Hcg0 as (_ & ? & _). }
  { intros v Hv. destruct (original_nodes G0 cg0 c v HG Hcg Hv) as (_ & ? & _).
    rewrite HG1. split; apply elem_of_app; by left. }
  rewrite Hre, bind_Some_eq. eexists. split; [done|]. split; [|done].
  cbn [pq].
  assert (Hcl1 : ∀ w, w < n0 → clusterOf cg1 w = clusterOf (cg s) w).
  { intros w Hw. unfold cg1. rewrite !clusterOf_unassign.
    rewrite !decide_False; [done | unfold pn; lia | unfold cn; lia]. }
  assert (Hcn1 : ∀ d, c_nodes cg1 d
                      = filter (fun x => x ≠ cn)
                          (filter (fun x => x ≠ pn) (c_nodes (cg s) d))).
  { intros d. unfold cg1.
    rewrite (c_nodes_unassign_wf (filter (fun x => x ≠ pn) (nodes (G s)))).
    - by rewrite (c_nodes_unassign_wf (nodes (G s))).
    - apply (wf_clusters_unassign (nodes (G s))); [done|].
      intros w. rewrite elem_of_filter_ne. tauto. }
  split; cbn [G cg matchings clusters].
  - done.
  - done.
  - by rewrite Ht'.
  - done.
  - intros v c' Hv.
    assert (Hvlt : v < n0).
    { destruct Hcg0 as (_ & _ & _ & H4 & _). destruct (H4 _ _ Hv) as (? & _).
      by apply Hlt. }
    rewrite Hcl', (Hcl1 v Hvlt), (Hcl v c' Hv), Hdrop.
    destruct (decide (v ∈ c_nodes cg0 c)) as [Hvc|Hvc].
    + destruct (original_nodes G0 cg0 c v HG Hcg Hvc) as (Hvc' & _).
      assert (c' = c) as -> by congruence.
      by rewrite (decide_True (P := c ∈ c :: _)) by (by left).
    + assert (Hne : c' ≠ c).
      { intros ->. apply Hvc. destruct Hcg0 as (_ & _ & _ & H4 & _).
        by destruct (H4 _ _ Hv) as (_ & _ & ?). }
      destruct (decide (c' ∈ drop (S k) (walk cg0))) as [Hd|Hd].
      * by rewrite decide_True by (by right).
      * rewrite decide_False; [done|]. by intros [?|?]%elem_of_cons.
  - intros d Hd. rewrite Hdrop in Hd. rewrite Hcn', Hcn1.
    apply elem_of_cons in Hd as [->|Hd].
    + rewrite (Htodo c) by (rewrite Htake; apply elem_of_app; right; by left).
      by rewrite decide_True.
    + assert (d ≠ c) by (by intros ->).
      rewrite (Hdone d Hd), decide_False, app_nil_r by done.
      apply (filters_original G0); try done; unfold cn, pn; lia.
  - intros d Hd.
    assert (d ≠ c) by (by intros ->).
    rewrite Hcn', Hcn1, (Htodo d) by (rewrite Htake; apply elem_of_app; by left).
    by rewrite decide_False.
  - exists (filter (fun x => x ∉ c_nodes cg0 c)
              (filter (fun x => x ≠ cn) (filter (fun x => x ≠ pn) L))).
    rewrite Hcn', Hcn1, HL, decide_False, app_nil_r by done.
    rewrite !filter_app. f_equal.
    apply (filters_original G0); try done; unfold cn, pn; lia.
Qed.

Lemma undo_clusters_rest bicomps G0 cg0 k u :
  wf_graph G0 → wf_clusters G0 cg0 → k ≤ length (walk cg0) →
  undo_inv G0 cg0 k (pq u) → augmentation u = None →
  ∃ u', undo_clusters bicomps u
          (reverse (imap (frozen_entry cg0 (nodeIdCount G0) (length (walk cg0)))
                      (take k (walk cg0)))) = Some u'
        ∧ undo_inv G0 cg0 0 (pq u') ∧ augmentation u' = None.
Proof.
  intros HG Hcg. revert u. induction k as [|k IH]; intros u Hk Hinv Haug.
  - exists u. by rewrite take_0.
  - destruct (lookup_lt_is_Some_2 (walk cg0) k) as [c Hc]; [lia|].
    rewrite (take_S_r _ _ _ Hc), imap_app, reverse_app. simpl.
    rewrite length_take, Nat.min_l, Nat.add_0_r by lia.
    destruct (undo_cluster_step bicomps G0 cg0 k c u HG Hcg Hc Hinv Haug)
      as (u1 & Hu1 & Hinv1 & Haug1).
    rewrite Hu1, bind_Some_eq. apply IH; [lia | done | done].
Qed.

Lemma list_nil_no_elem {A} (l : list A) : (∀ x, x ∉ l) → l = [].
Proof. destruct l as [|x l]; [done|]. intros H. destruct (H x). by left. Qed.

(** The first round of [undo] is the one of the root cluster, which was
    frozen last. *)
Lemma undo_cluster_root bicomps G0 cg0 s1 cg' A b :
  wf_graph G0 → wf_clusters G0 cg0 →
  loop_inv G0 cg0 (length (walk cg0)) s1 →
  flatten_clusters (cg s1) (walk cg0) = Some cg' →
  ∃ u', undo_cluster bicomps
          {| pq := {| G := G s1; cg := cg'; matchings := matchings s1;
                      clusters := clusters s1 |};
             c_adjEntries := A; adjAvailable := b; augmentation := None |}
          (frozen_entry cg0 (nodeIdCount G0) (length (walk cg0))
             (length (walk cg0)) (rootCluster cg0)) = Some u'
        ∧ undo_inv G0 cg0 (length (walk cg0)) (pq u')
        ∧ augmentation u' = None.
Proof.
  intros HG Hcg Hinv Hfl. pose proof Hcg as (Hnd & _).
  destruct (walk_postOrder cg0 Hnd) as (Hpost & Hndw & Hrootw).
  pose proof Hcg as Hcg0%wf_clusters_spec.
  assert (Hroot1 : rootCluster (cg s1) = rootCluster cg0).
  { unfold rootCluster. by rewrite (inv_tree _ _ _ _ Hinv). }
  destruct (flatten_clusters_spec (nodes (G s1)) (walk cg0) (cg s1))
    as (cg'' & Hfl' & Hwf' & Htree' & Hempty & Hcl);
    [apply Hinv | done | by rewrite Hroot1 |].
  rewrite Hfl in Hfl'. injection Hfl' as <-.
  rewrite (inv_tree _ _ _ _ Hinv) in Htree'.
  assert (Hroot' : rootCluster cg' = rootCluster cg0).
  { unfold rootCluster. by rewrite Htree'. }
  unfold undo_cluster.
  cbn [G cg matchings clusters pq c_adjEntries adjAvailable augmentation].
  cbn [fc_index fc_parent fc_parent_node fc_nodes frozen_entry].
  rewrite Hroot', (decide_True (P := rootCluster cg0 = rootCluster cg0)) by done.
  rewrite (parent_root cg0 Hnd), decide_True, bind_Some_eq by done.
  cbn [G cg matchings clusters pq c_adjEntries adjAvailable augmentation].
  destruct (reassign_nodes_spec (nodes (G s1)) (G s1) cg' (rootCluster cg0)
              (c_nodes cg0 (rootCluster cg0)))
    as (cg2 & Hre & Hwf2 & Ht2 & Hcl2 & Hcn2); try done.
  { rewrite Htree'. apply index_in_postOrder. }
  { by destruct Hcg0 as (_ & ? & _). }
  { intros v Hv. destruct (original_nodes G0 cg0 _ v HG Hcg Hv) as (_ & ? & _).
    rewrite (inv_nodes _ _ _ _ Hinv). split; apply elem_of_app; by left. }
  rewrite Hre, bind_Some_eq. eexists. split; [done|]. split; [|done].
  cbn [pq]. split; cbn [G cg matchings clusters].
  - apply (inv_nodes _ _ _ _ Hinv).
  - apply (inv_matchings _ _ _ _ Hinv).
  - by rewrite Ht2.
  - done.
  - intros v c Hv. rewrite drop_all.
    rewrite (decide_False (P := c ∈ [])) by apply not_elem_of_nil.
    rewrite Hcl2. case_decide; [done|].
    destruct Hcg0 as (_ & _ & _ & H4 & _). destruct (H4 _ _ Hv) as (Hvin & Hcin & _).
    destruct (inv_original _ _ _ _ Hinv v Hvin) as [_ Hv1].
    rewrite Hcl, Hv1, Hv, Hroot1. case_decide as Hcw; [done|].
    rewrite Hpost in Hcin.
    apply elem_of_app in Hcin as [? | ->%list_elem_of_singleton]; done.
  - intros c. rewrite drop_all. by intros ?%elem_of_nil.
  - intros c Hc. rewrite firstn_all in Hc.
    rewrite Hcn2, (Hempty c Hc), decide_False; [done|]. by intros ->.
  - eexists. by rewrite Hcn2, decide_True.
Qed.

Lemma frozen_root_first cg0 n0 m (post walk : list nat) (root : nat) :
  post = walk ++ [root] →
  reverse (imap (frozen_entry cg0 n0 m) post)
  = frozen_entry cg0 n0 m (length walk) root
    :: reverse (imap (frozen_entry cg0 n0 m) walk).
Proof. intros ->. rewrite imap_app, reverse_app. simpl. by rewrite Nat.add_0_r. Qed.

Section UndoAfterConstructor.
(** The functions of OGDF that [undo] calls and that are not among the
    sources. *)
Variable biconnectedComponents : Graph → nat → Z.
Variable edge_reg : state → nat → option nat.
Variable Graph_consistencyCheck : Graph → bool.
Variable ClusterGraph_consistencyCheck : undoing → bool.
Variable representsCombEmbedding : undoing → bool.

(** [undo], with no augmentation trace, on what the constructor built: it
    fails no assertion of its loop and of [processCluster], and reaches the
    checks that close it where [OGDF_DEBUG] is defined in a state [u] in
    which the gray nodes of every pipe are out of the graph and of the
    cluster graph again, no pipe is left, every node is in the cluster it was
    in before the constructor ran, and every cluster lists its nodes in the
    order it had them.  It returns [u] when those checks pass on it and
    fails with them otherwise.  The boundary lists and the flag of the
    cluster graph may be any at the start. *)
Theorem undo_restores_cluster_assignment (G0 : Graph) (cg0 : ClusterGraph)
    (A : gmap nat (list nat)) (b : bool) :
  wf_graph G0 → wf_clusters G0 cg0 →
  ∃ s u,
    SyncPlan_new G0 cg0 = Some s
    ∧ unflatten biconnectedComponents (mkUndoing s A b None) = Some u
    ∧ undo biconnectedComponents edge_reg Graph_consistencyCheck
        ClusterGraph_consistencyCheck representsCombEmbedding
        (mkUndoing s A b None)
      = (if closing_checks edge_reg Graph_consistencyCheck
              ClusterGraph_consistencyCheck representsCombEmbedding u
         then Some u else None)
    ∧ augmentation u = None
    ∧ adjAvailable u = true
    ∧ nodes (G (pq u)) = nodes G0
    ∧ matchings (pq u) = []
    ∧ tree (cg (pq u)) = tree cg0
    ∧ (∀ v, clusterOf (cg (pq u)) v = clusterOf cg0 v)
    ∧ (∀ c, c_nodes (cg (pq u)) c = c_nodes cg0 c)
    ∧ (∀ cn pn, (cn, pn) ∈ matchings s →
         (cn ∈ nodes (G s) ∧ pn ∈ nodes (G s))
         ∧ (cn ∉ nodes (G (pq u))) ∧ (pn ∉ nodes (G (pq u)))
         ∧ clusterOf (cg (pq u)) cn = None ∧ clusterOf (cg (pq u)) pn = None).
Proof.
  intros HG Hcg. pose proof Hcg as (Hnd & _).
  destruct (walk_postOrder cg0 Hnd) as (Hpost & Hndw & Hrootw).
  pose proof Hcg as Hcg0%wf_clusters_spec.
  pose proof HG as (_ & Hlt & _)%wf_graph_spec.
  destruct (SyncPlan_new_spec G0 cg0 HG Hcg) as (s1 & cg' & Hr & Hinv & Hfl & Hs).
  set (bicomps := biconnectedComponents (G s1)).
  destruct (undo_cluster_root bicomps G0 cg0 s1 cg'
              (<[rootCluster cg' := []]> A) b HG Hcg Hinv Hfl)
    as (u2 & Hu2 & Hinv2 & Haug2).
  destruct (undo_clusters_rest bicomps G0 cg0 (length (walk cg0)) u2 HG Hcg)
    as (u3 & Hu3 & Hinv3 & Haug3); [done | done | done |].
  rewrite firstn_all in Hu3.
  destruct Hinv3 as [Hn HM Ht Hwf Hcl Hdone _ [L HL]].
  rewrite drop_0 in Hcl, Hdone. simpl in Hn. rewrite app_nil_r in Hn.
  assert (Hcl3 : ∀ v, clusterOf (cg (pq u3)) v = clusterOf cg0 v).
  { intros v. destruct (clusterOf cg0 v) as [c|] eqn:Hv.
    - rewrite (Hcl v c Hv). case_decide as Hcw; [done|].
      destruct Hcg0 as (_ & _ & _ & H4 & _). destruct (H4 _ _ Hv) as (_ & Hcin & _).
      rewrite Hpost in Hcin.
      apply elem_of_app in Hcin as [? | ->%list_elem_of_singleton]; done.
    - destruct (clusterOf (cg (pq u3)) v) as [c|] eqn:Hv3; [|done].
      destruct Hwf as (_ & _ & _ & H4 & _). destruct (H4 _ _ Hv3) as (Hvin & _).
      rewrite Hn in Hvin. destruct Hcg0 as (_ & _ & _ & _ & H5).
      destruct (H5 v Hvin) as [? ?]. congruence. }
  assert (Hmem : ∀ c v, v ∈ c_nodes (cg (pq u3)) c ↔ v ∈ c_nodes cg0 c).
  { intros c v. destruct Hwf as (_ & _ & H3 & H4 & _).
    destruct Hcg0 as (_ & _ & H3' & H4' & _). split.
    - intros Hv%H3. rewrite Hcl3 in Hv. by destruct (H4' _ _ Hv) as (_ & _ & ?).
    - intros Hv%H3'. rewrite <- Hcl3 in Hv. by destruct (H4 _ _ Hv) as (_ & _ & ?). }
  assert (Hun : unflatten biconnectedComponents
                  (mkUndoing (mkState (G s1) cg' (matchings s1) (clusters s1))
                     A b None)
                = Some {| pq := pq u3; c_adjEntries := c_adjEntries u3;
                          adjAvailable := true; augmentation := augmentation u3 |}).
  { unfold unflatten. cbn [pq c_adjEntries adjAvailable augmentation G cg clusters].
    fold bicomps.
    remember (mkUndoing _ _ _ _) as u0 eqn:Eu.
    rewrite (inv_clusters _ _ _ _ Hinv).
    rewrite (frozen_root_first _ _ _ _ _ _ Hpost). cbn [undo_clusters].
    subst u0. by rewrite Hu2, bind_Some_eq, Hu3, bind_Some_eq. }
  exists {| G := G s1; cg := cg'; matchings := matchings s1; clusters := clusters s1 |},
         {| pq := pq u3; c_adjEntries := c_adjEntries u3;
            adjAvailable := true; augmentation := augmentation u3 |}.
  split; [done|]. split; [exact Hun|]. split.
  { unfold undo. by rewrite Hun, bind_Some_eq. }
  cbn [pq c_adjEntries adjAvailable augmentation].
  split; [done|]. split; [done|].
  split; [done|]. split; [done|]. split; [done|]. split; [done|]. split.
  - intros c. destruct (decide (c ∈ walk cg0)) as [Hc|Hc]; [by apply Hdone|].
    destruct (decide (c = rootCluster cg0)) as [->|Hcr].
    + rewrite HL. replace L with (@nil nat); [done|]. symmetry.
      apply list_nil_no_elem. intros x Hx.
      assert (Hx' : x ∈ c_nodes cg0 (rootCluster cg0)).
      { apply Hmem. rewrite HL. apply elem_of_app. by left. }
      destruct Hwf as (_ & Hnd3 & _). specialize (Hnd3 (rootCluster cg0)).
      rewrite HL in Hnd3. apply NoDup_app in Hnd3 as (_ & Hdis & _).
      by apply (Hdis x).
    + assert (Hcpost : c ∉ postOrder (tree cg0)).
      { rewrite Hpost. intros [?| ?%list_elem_of_singleton]%elem_of_app; done. }
      rewrite (list_nil_no_elem (c_nodes cg0 c)),
        (list_nil_no_elem (c_nodes (cg (pq u3)) c)); [done | |].
      * intros x Hx%Hmem. destruct Hcg0 as (_ & _ & H3' & H4' & _).
        by destruct (H4' _ _ (H3' _ _ Hx)) as (_ & ? & _).
      * intros x Hx. destruct Hcg0 as (_ & _ & H3' & H4' & _).
        by destruct (H4' _ _ (H3' _ _ Hx)) as (_ & ? & _).
  - cbn [matchings G]. intros cn pn Hpipe.
    rewrite (inv_matchings _ _ _ _ Hinv) in Hpipe.
    apply elem_of_pipes in Hpipe as (j & Hj & -> & ->).
    assert (Hfresh : ∀ w, nodeIdCount G0 ≤ w →
                       (w ∉ nodes (G (pq u3))) ∧ clusterOf (cg (pq u3)) w = None).
    { intros w Hw.
      assert (Hwn : w ∉ nodes G0) by (intros ?%Hlt; lia).
      split; [by rewrite Hn|]. rewrite Hcl3.
      destruct (clusterOf cg0 w) as [c|] eqn:Hwc; [|done].
      destruct Hcg0 as (_ & _ & _ & H4 & _). by destruct (H4 _ _ Hwc) as (? & _). }
    destruct (Hfresh (nodeIdCount G0 + 2 * j)) as [? ?]; [lia|].
    destruct (Hfresh (S (nodeIdCount G0 + 2 * j))) as [? ?]; [lia|].
    split_and!; try done.
    + rewrite (inv_nodes _ _ _ _ Hinv). apply elem_of_app. right.
      apply elem_of_seq. lia.
    + rewrite (inv_nodes _ _ _ _ Hinv). apply elem_of_app. right.
      apply elem_of_seq. lia.
Qed.

End UndoAfterConstructor.

(** The record that the constructor leaves for [undo]: one frozen cluster
    per cluster of the tree, the root first and the others against the
    post-order; each one holds the index of its cluster, the index of the
    parent ([None], the source's -1, for the root only) and the nodes the
    cluster had before the constructor moved any; the frozen cluster of the
    [i]-th cluster of the walk knows the gray node [cn] of that round as
    its [parent_node], and the pipes lead from there to [pn]. *)
Theorem constructor_freezes_clusters (G0 : Graph) (cg0 : ClusterGraph) :
  wf_graph G0 → wf_clusters G0 cg0 →
  ∃ s,
    SyncPlan_new G0 cg0 = Some s
    ∧ fc_index <$> clusters s = reverse (postOrder (tree cg0))
    ∧ (∀ fc, fc ∈ clusters s →
         fc_parent fc = parent cg0 (fc_index fc)
         ∧ fc_nodes fc = c_nodes cg0 (fc_index fc)
         ∧ (fc_parent fc = None ↔ fc_index fc = rootCluster cg0)
         ∧ (fc_parent_node fc = None ↔ fc_index fc = rootCluster cg0))
    ∧ (∀ i c, walk cg0 !! i = Some c →
         ∃ fc, clusters s !! (length (walk cg0) - i) = Some fc
               ∧ fc_index fc = c
               ∧ fc_parent_node fc = Some (nodeIdCount G0 + 2 * i)
               ∧ getTwin (matchings s) (nodeIdCount G0 + 2 * i)
                 = Some (S (nodeIdCount G0 + 2 * i))).
Proof.
  intros HG Hcg. pose proof Hcg as (Hnd & _).
  destruct (walk_postOrder cg0 Hnd) as (Hpost & Hndw & Hrootw).
  destruct (SyncPlan_new_spec G0 cg0 HG Hcg) as (s1 & cg' & Hr & Hinv & Hfl & Hs).
  eexists. split; [exact Hs|]. cbn [clusters matchings].
  pose proof (inv_clusters _ _ _ _ Hinv) as Hcl.
  set (n0 := nodeIdCount G0) in *. set (m := length (walk cg0)) in *.
  assert (Hlen : length (postOrder (tree cg0)) = S m).
  { rewrite Hpost, length_app. simpl. unfold m. lia. }
  assert (Hentry : ∀ fc, fc ∈ clusters s1 →
            ∃ j, postOrder (tree cg0) !! j = Some (fc_index fc)
                 ∧ fc = frozen_entry cg0 n0 m j (fc_index fc)).
  { intros fc Hfc. rewrite Hcl, elem_of_reverse in Hfc.
    apply list_elem_of_lookup in Hfc as [j Hj].
    rewrite list_lookup_imap in Hj.
    destruct (postOrder (tree cg0) !! j) as [c|] eqn:Hc; [|done].
    injection Hj as <-. by exists j. }
  split_and!.
  - rewrite Hcl, fmap_reverse. f_equal.
    apply list_eq. intros j. rewrite list_lookup_fmap, list_lookup_imap.
    by destruct (postOrder (tree cg0) !! j).
  - intros fc Hfc. destruct (Hentry fc Hfc) as (j & Hj & ->).
    cbn [fc_index fc_parent fc_nodes fc_parent_node frozen_entry].
    set (c := fc_index _) in *.
    assert (Hcin : c ∈ postOrder (tree cg0)) by (by eapply list_elem_of_lookup_2).
    assert (Hjroot : j < m ↔ c ≠ rootCluster cg0).
    { pose proof (lookup_lt_Some _ _ _ Hj) as Hjlt. rewrite Hpost in Hj.
      split.
      - intros Hjm. rewrite lookup_app_l in Hj by done. intros ->.
        apply Hrootw. by eapply list_elem_of_lookup_2.
      - intros Hne. destruct (decide (j < m)) as [|Hge]; [done|].
        rewrite lookup_app_r in Hj by (fold m; lia).
        apply list_lookup_singleton_Some in Hj as [_ ?]. done. }
    split_and!; try done.
    + split.
      * intros Hp. destruct (decide (c = rootCluster cg0)) as [|Hne]; [done|].
        destruct (parent_is_Some cg0 c Hcin Hne) as [p Hp']. congruence.
      * intros ->. by apply parent_root.
    + case_decide as Hjm.
      * split; [done|]. intros ?. by apply Hjroot in Hjm.
      * split; [|done]. intros _.
        destruct (decide (c = rootCluster cg0)); [done|]. exfalso. tauto.
  - intros i c Hc. pose proof (lookup_lt_Some _ _ _ Hc) as Hi. fold m in Hi.
    destruct (walk_in_postOrder cg0 i c Hnd Hc) as (Hpi & _ & _).
    exists (frozen_entry cg0 n0 m i c). split_and!.
    + rewrite Hcl, reverse_lookup by (rewrite length_imap, Hlen; lia).
      rewrite length_imap, Hlen, list_lookup_imap.
      replace (S m - S (m - i)) with i by lia. by rewrite Hpi.
    + done.
    + cbn [fc_parent_node frozen_entry]. by rewrite decide_True.
    + rewrite (inv_matchings _ _ _ _ Hinv). fold n0 m.
      unfold getTwin.
      assert (Hfind : list_find (fun p => p.1 = n0 + 2 * i ∨ p.2 = n0 + 2 * i)
                        (pipes n0 m)
                      = Some (i, (n0 + 2 * i, S (n0 + 2 * i)))).
      { apply list_find_Some. split_and!.
        - unfold pipes. rewrite list_lookup_fmap, lookup_seq_lt by done. done.
        - by left.
        - intros j [a b] Hj Hji. unfold pipes in Hj.
          rewrite list_lookup_fmap in Hj.
          destruct (seq 0 m !! j) as [j'|] eqn:Hj'; [|done].
          apply lookup_seq in Hj' as [-> _]. injection Hj as <- <-. simpl. lia. }
      rewrite Hfind. by rewrite decide_True.
Qed.

(** A cluster graph that has the root cluster only: the constructor creates
    no node and no pipe, and leaves the graph and the cluster graph as they
    were; the only frozen cluster is the one of the root. *)
Theorem constructor_of_flat_cluster_graph (G0 : Graph) (cg0 : ClusterGraph) :
  children (tree cg0) = [] →
  SyncPlan_new G0 cg0
  = Some {| G := G0; cg := cg0; matchings := [];
            clusters := [{| fc_index := rootCluster cg0; fc_parent := None;
                            fc_parent_node := None;
                            fc_nodes := c_nodes cg0 (rootCluster cg0) |}] |}.
Proof.
  destruct cg0 as [[r cs] cn nm]. simpl. intros ->.
  unfold SyncPlan_new, UndoInitCluster_new, rootCluster, freeze, parent. simpl.
  destruct (decide (r = r)) as [_|]; [|done]. simpl.
  unfold fc_at. simpl. destruct (decide (0 < 1)) as [_|]; [|lia]. simpl.
  by destruct (decide (r = r ∧ 1 = 1)) as [_|[]].
Qed.

(** *** The original nodes keep their degree *)

Lemma degree_split_all pn cn G xs w :
  w ≠ pn → w ≠ cn → degree (split_all pn cn G xs) w = degree G w.
Proof.
  intros Hp Hc. revert G. unfold split_all.
  induction xs as [|x xs IH]; intros G; simpl; [done|].
  by rewrite IH, degree_splitEdge_ends.
Qed.

Lemma degree_reroute_nodes cg c pn cn L G count w :
  w ≠ pn → w ≠ cn →
  degree (foldl (reroute_node cg c pn cn) (G, count) L).1 w = degree G w.
Proof.
  intros Hp Hc. revert G count.
  induction L as [|n L IH]; intros G count; simpl; [done|].
  rewrite reroute_node_split. case_decide; rewrite IH; [done|].
  by apply degree_split_all.
Qed.

Lemma degree_newNode G w :
  w ≠ nodeIdCount G → degree (newNode G).2 w = degree G w.
Proof.
  intros Hw. unfold degree, adjEntries, newNode. simpl.
  by rewrite lookup_total_insert_ne.
Qed.

Lemma degree_reverseAdjEdges G v w :
  degree (reverseAdjEdges G v) w = degree G w.
Proof.
  unfold reverseAdjEdges, degree. rewrite adjEntries_set.
  case_decide; [|done]. subst. by rewrite length_reverse.
Qed.

(** One round of the first loop changes the degree of no node but the two
    gray nodes it creates. *)
Lemma degree_process_cluster s fc_it c s' w :
  process_cluster s fc_it c = Some s' →
  w ≠ nodeIdCount (G s) → w ≠ S (nodeIdCount (G s)) →
  degree (G s') w = degree (G s) w.
Proof.
  intros Hs Hcn Hpn.
  destruct (parent (cg s) c) as [p|] eqn:Hp;
    [|by unfold process_cluster in Hs; rewrite Hp in Hs].
  rewrite (process_cluster_eq s fc_it c p Hp) in Hs.
  destruct (set_parent_node _ _ _ _) as [clusters'|]; [|done].
  rewrite bind_Some_eq in Hs.
  destruct (matchNodes _ _ _ _) as [M|]; [|done].
  rewrite bind_Some_eq in Hs. apply (f_equal (fmap G)) in Hs.
  cbn [fmap option_fmap option_map G] in Hs. apply (inj Some) in Hs.
  rewrite <- Hs.
  assert (Hfold : ∀ r, degree
            (foldl (reroute_node
                      (gray_assigned (cg s) (nodeIdCount (G s))
                         (S (nodeIdCount (G s))) c p)
                      c (S (nodeIdCount (G s))) (nodeIdCount (G s)))
               ((newNode (newNode (G s)).2).2, 0) r).1 w
          = degree (G s) w).
  { intros r. rewrite degree_reroute_nodes by done.
    rewrite degree_newNode by done. by rewrite degree_newNode. }
  case_decide; [apply Hfold|]. rewrite degree_reverseAdjEdges. apply Hfold.
Qed.

Lemma degree_rounds G0 cg0 i s w :
  wf_graph G0 → wf_clusters G0 cg0 → i ≤ length (walk cg0) →
  rounds G0 cg0 i = Some s → w < nodeIdCount G0 →
  degree (G s) w = degree G0 w.
Proof.
  intros HG Hcg. revert s. induction i as [|i IH]; intros s Hi Hs Hw.
  - unfold rounds in Hs. rewrite take_0 in Hs. simpl in Hs. by injection Hs as <-.
  - destruct (lookup_lt_is_Some_2 (walk cg0) i) as [c Hc]; [lia|].
    destruct (round_spec G0 cg0 i c HG Hcg Hc)
      as (p & s1 & s2 & _ & Hr1 & Hp & Hr2 & Hinv1 & _).
    rewrite Hr2 in Hs. injection Hs as <-.
    pose proof (inv_nodeIdCount _ _ _ _ Hinv1) as Hn.
    rewrite (degree_process_cluster s1 i c s2 w Hp) by lia.
    apply IH; [lia | done | done].
Qed.

(** The constructor changes the degree of no original node: it replaces
    the entries of the perimeter-crossing edges where they are and adds or
    removes none.  When it returns, the two gray nodes of every pipe still
    have the same degree: later rounds do not change it. *)
Theorem constructor_keeps_degrees (G0 : Graph) (cg0 : ClusterGraph) :
  wf_graph G0 → wf_clusters G0 cg0 →
  ∃ s,
    SyncPlan_new G0 cg0 = Some s
    ∧ (∀ v, v ∈ nodes G0 → degree (G s) v = degree G0 v)
    ∧ (∀ cn pn, (cn, pn) ∈ matchings s → degree (G s) cn = degree (G s) pn).
Proof.
  intros HG Hcg. pose proof HG as (_ & Hlt & _)%wf_graph_spec.
  destruct (SyncPlan_new_spec G0 cg0 HG Hcg) as (s1 & cg' & Hr & Hinv & _ & Hs).
  eexists. split; [exact Hs|]. cbn [G matchings]. split.
  - intros v Hv. apply (degree_rounds G0 cg0 (length (walk cg0))); auto.
  - intros cn pn Hpipe. rewrite (inv_matchings _ _ _ _ Hinv) in Hpipe.
    apply elem_of_pipes in Hpipe as (j & Hj & -> & ->).
    destruct (lookup_lt_is_Some_2 (walk cg0) j) as [c Hc]; [done|].
    destruct (round_spec G0 cg0 j c HG Hcg Hc)
      as (p & sa & sb & _ & Hra & Hp & Hrb & Hinva & Hinvb & Hcn & Hpn).
    assert (Hlater : ∀ i s w, j < i → i ≤ length (walk cg0) →
              rounds G0 cg0 i = Some s → w < nodeIdCount G0 + 2 * S j →
              degree (G s) w = degree (G sb) w).
    { intros i. induction i as [|i IH]; intros s w Hji Hi Hsi Hw; [lia|].
      destruct (lookup_lt_is_Some_2 (walk cg0) i) as [d Hd]; [lia|].
      destruct (round_spec G0 cg0 i d HG Hcg Hd)
        as (q & s3 & s4 & _ & Hr3 & Hq & Hr4 & Hinv3 & _).
      rewrite Hr4 in Hsi. injection Hsi as <-.
      destruct (decide (i = j)) as [->|Hne].
      - rewrite Hrb in Hr4. by injection Hr4 as <-.
      - pose proof (inv_nodeIdCount _ _ _ _ Hinv3) as Hn.
        rewrite (degree_process_cluster s3 i d s4 w Hq) by lia.
        apply IH; [lia | lia | done | done]. }
    rewrite !(Hlater (length (walk cg0)) s1) by (first [done | lia]).
    unfold degree. rewrite Hcn, Hpn.
    by rewrite length_imap, length_reverse, length_fmap.
Qed.

End SyncPlan.

(** A square 0-1-2-3; cluster 1 holds nodes 1 and 2, cluster 2 inside
    cluster 1 holds node 3, node 0 is in the root cluster 0. *)
Module SyncPlanExample.
Import SyncPlan.

Definition G0 : Graph :=
  {| nodes := [0; 1; 2; 3];
     adjEntriesOf :=
       {[ 0 := [mkAdj 0 0 1; mkAdj 0 3 3];
          1 := [mkAdj 1 0 0; mkAdj 1 1 2];
          2 := [mkAdj 2 1 1; mkAdj 2 2 3];
          3 := [mkAdj 3 2 2; mkAdj 3 3 0] ]};
     nodeIdCount := 4; edgeIdCount := 4 |}.

Definition cg0 : ClusterGraph :=
  {| tree := mkCluster 0 [mkCluster 1 [mkCluster 2 []]];
     cluster_nodes := {[ 0 := [0]; 1 := [1; 2]; 2 := [3] ]};
     m_nodeMap := {[ 0 := 0; 1 := 1; 2 := 1; 3 := 2 ]} |}.

(** The same graph with every node in the root cluster. *)
Definition flat : ClusterGraph :=
  {| tree := mkCluster 0 [];
     cluster_nodes := {[ 0 := [0; 1; 2; 3] ]};
     m_nodeMap := {[ 0 := 0; 1 := 0; 2 := 0; 3 := 0 ]} |}.

Definition show (s : state) :=
  (nodes (G s), (fun n => (n, adjEntries (G s) n)) <$> nodes (G s),
   (fun c => (c, c_nodes (cg s) c)) <$> postOrder (tree (cg s)),
   matchings s).

Lemma wf_G0 : wf_graph G0.
Proof. apply (bool_decide_unpack _). vm_compute. exact I. Defined.

Lemma wf_cg0 : wf_clusters G0 cg0.
Proof. apply (bool_decide_unpack _). vm_compute. exact I. Defined.

(** Cluster 2 is cut out first, by the gray nodes 4 and 5, then cluster 1,
    which by then holds 5 as well, by 6 and 7; in the end every node is in
    the root cluster. *)
Example constructor_run :
  show <$> SyncPlan_new G0 cg0
  = Some ([0; 1; 2; 3; 4; 5; 6; 7],
          [(0, [mkAdj 0 0 7; mkAdj 0 3 7]);
           (1, [mkAdj 1 6 6; mkAdj 1 1 2]);
           (2, [mkAdj 2 1 1; mkAdj 2 2 5]);
           (3, [mkAdj 3 4 4; mkAdj 3 5 4]);
           (4, [mkAdj 4 4 3; mkAdj 4 5 3]);
           (5, [mkAdj 5 7 6; mkAdj 5 2 2]);
           (6, [mkAdj 6 6 1; mkAdj 6 7 5]);
           (7, [mkAdj 7 3 0; mkAdj 7 0 0])],
          [(2, []); (1, []); (0, [0; 7; 3; 4; 1; 2; 5; 6])],
          [(4, 5); (6, 7)]).
Proof. vm_compute. reflexivity. Qed.

(** The functions of OGDF that [undo] calls, for the examples: every edge
    is a biconnected component of its own, every edge is registered, and a
    check passes. *)
Definition bicomps (G : Graph) (e : nat) : Z := Z.of_nat e.
Definition registered (s : state) (e : nat) : option nat := Some e.
Definition pass {A} (x : A) : bool := true.

Definition undo_checked : undoing → option undoing :=
  undo bicomps registered pass pass pass.

Lemma checks_pass u : closing_checks registered pass pass pass u = true.
Proof.
  unfold closing_checks, pass. rewrite !andb_true_r.
  apply forallb_forall. intros c _. apply forallb_forall. intros e _.
  by apply bool_decide_eq_true_2.
Qed.

Definition show_undone (u : undoing) :=
  (show (pq u),
   (fun c => (c, c_adjEntries u !!! c)) <$> postOrder (tree (cg (pq u))),
   adjAvailable u, augmentation u).

(** [undo] gives the square and its clusters back; the boundary of cluster
    2 is crossed by the edges 3 and 2, the one of cluster 1 by 3 and 0. *)
Example undo_run :
  show_undone
    <$> (SyncPlan_new G0 cg0 ≫= fun s => undo_checked (mkUndoing s ∅ false None))
  = Some (([0; 1; 2; 3],
           [(0, [mkAdj 0 0 1; mkAdj 0 3 3]);
            (1, [mkAdj 1 0 0; mkAdj 1 1 2]);
            (2, [mkAdj 2 1 1; mkAdj 2 2 3]);
            (3, [mkAdj 3 2 2; mkAdj 3 3 0])],
           [(2, [3]); (1, [1; 2]); (0, [0])],
           []),
          [(2, [3; 2]); (1, [3; 0]); (0, [])], true, None).
Proof. vm_compute. reflexivity. Qed.

(** With an augmentation trace, a pair is recorded where the biconnected
    component changes. *)
Example undo_run_traced :
  augmentation
    <$> (SyncPlan_new G0 cg0 ≫= fun s => undo_checked (mkUndoing s ∅ false (Some [])))
  = Some (Some [(Some 3, 0); (Some 3, 2)]).
Proof. vm_compute. reflexivity. Qed.

(** [undo] fails when a closing check does. *)
Example undo_fails_closing_check :
  (SyncPlan_new G0 cg0
     ≫= fun s => undo bicomps registered pass pass (fun _ => false)
                   (mkUndoing s ∅ false None))
  = None.
Proof. vm_compute. reflexivity. Qed.

(** An edge 0-1 inside cluster 1 and a node 2 in the root cluster: no edge
    crosses the boundary of cluster 1. *)
Definition G1 : Graph :=
  {| nodes := [0; 1; 2];
     adjEntriesOf := {[ 0 := [mkAdj 0 0 1]; 1 := [mkAdj 1 0 0]; 2 := [] ]};
     nodeIdCount := 3; edgeIdCount := 1 |}.

Definition cg1 : ClusterGraph :=
  {| tree := mkCluster 0 [mkCluster 1 []];
     cluster_nodes := {[ 0 := [2]; 1 := [0; 1] ]};
     m_nodeMap := {[ 0 := 1; 1 := 1; 2 := 0 ]} |}.

(** With an augmentation trace [undo] fails on such a cluster, in
    [bij.front()] on the empty bijection; without one it returns. *)
Example undo_traced_fails_on_closed_cluster :
  bool_decide (wf_graph G1 ∧ wf_clusters G1 cg1) = true
  ∧ (SyncPlan_new G1 cg1 ≫= fun s => undo_checked (mkUndoing s ∅ false (Some [])))
    = None
  ∧ is_Some (SyncPlan_new G1 cg1
               ≫= fun s => undo_checked (mkUndoing s ∅ false None)).
Proof. split_and!; [by vm_compute | by vm_compute | vm_compute; by eexists]. Qed.

Lemma constructor_registers_pipes_witness :
  wf_graph G0 ∧ wf_clusters G0 cg0
  ∧ ∃ s, SyncPlan_new G0 cg0 = Some s
         ∧ matchings s = pipes (nodeIdCount G0) (length (walk cg0))
         ∧ length (matchings s) = length (postOrder (tree cg0)) - 1.
Proof.
  split; [exact wf_G0|]. split; [exact wf_cg0|].
  exact (proj2 (proj2 (proj2 (constructor_registers_pipes G0 cg0 wf_G0 wf_cg0)))).
Defined.

Lemma constructor_flattens_witness :
  wf_graph G0 ∧ wf_clusters G0 cg0
  ∧ ∃ s, SyncPlan_new G0 cg0 = Some s
         ∧ ∀ v, v ∈ nodes (G s) → clusterOf (cg s) v = Some 0.
Proof.
  split; [exact wf_G0|]. split; [exact wf_cg0|].
  destruct (constructor_flattens G0 cg0 wf_G0 wf_cg0)
    as (s1 & s & _ & Hs & _ & _ & _ & Hroot).
  exists s. split; [exact Hs|]. intros v Hv. exact (proj1 (Hroot v Hv)).
Defined.

Lemma pipe_bijection_at_registration_witness :
  wf_graph G0 ∧ wf_clusters G0 cg0 ∧ walk cg0 !! 0 = Some 2
  ∧ ∃ s2 bij,
      rounds G0 cg0 1 = Some s2
      ∧ getIncidentEdgeBijection (G s2) (matchings s2) (nodeIdCount G0 + 2 * 0)
        = Some bij
      ∧ bij.*1 = adjEntries (G s2) (nodeIdCount G0 + 2 * 0).
Proof.
  split; [exact wf_G0|]. split; [exact wf_cg0|]. split; [reflexivity|].
  destruct (pipe_bijection_at_registration G0 cg0 0 2 wf_G0 wf_cg0 eq_refl)
    as (s1 & s2 & bij & _ & Hs2 & Hbij & _ & Hfst & _).
  exists s2, bij. split; [exact Hs2|]. split; [exact Hbij | exact Hfst].
Defined.

Lemma undo_restores_cluster_assignment_witness :
  wf_graph G0 ∧ wf_clusters G0 cg0
  ∧ ∃ s u, SyncPlan_new G0 cg0 = Some s
           ∧ undo_checked (mkUndoing s ∅ false None) = Some u
           ∧ ∀ v, clusterOf (cg (pq u)) v = clusterOf cg0 v.
Proof.
  split; [exact wf_G0|]. split; [exact wf_cg0|].
  destruct (undo_restores_cluster_assignment bicomps registered pass pass pass
              G0 cg0 ∅ false wf_G0 wf_cg0)
    as (s & u & Hs & _ & Hu & _ & _ & _ & _ & _ & Hcl & _).
  exists s, u. split; [exact Hs|]. split; [|exact Hcl].
  unfold undo_checked. rewrite Hu, checks_pass. reflexivity.
Defined.

Lemma constructor_freezes_clusters_witness :
  wf_graph G0 ∧ wf_clusters G0 cg0
  ∧ ∃ s, SyncPlan_new G0 cg0 = Some s
         ∧ fc_index <$> clusters s = [0; 1; 2].
Proof.
  split; [exact wf_G0|]. split; [exact wf_cg0|].
  destruct (constructor_freezes_clusters G0 cg0 wf_G0 wf_cg0)
    as (s & Hs & Hidx & _).
  exists s. split; [exact Hs | exact Hidx].
Defined.

Lemma constructor_keeps_degrees_witness :
  wf_graph G0 ∧ wf_clusters G0 cg0
  ∧ ∃ s, SyncPlan_new G0 cg0 = Some s
         ∧ ∀ v, v ∈ nodes G0 → degree (G s) v = degree G0 v.
Proof.
  split; [exact wf_G0|]. split; [exact wf_cg0|].
  destruct (constructor_keeps_degrees G0 cg0 wf_G0 wf_cg0) as (s & Hs & Hdeg & _).
  exists s. split; [exact Hs | exact Hdeg].
Defined.

Lemma constructor_of_flat_cluster_graph_witness :
  children (tree flat) = []
  ∧ (matchings <$> SyncPlan_new G0 flat) = Some []
  ∧ (G <$> SyncPlan_new G0 flat) = Some G0.
Proof.
  split; [reflexivity|].
  rewrite (constructor_of_flat_cluster_graph G0 flat eq_refl).
  split; reflexivity.
Defined.

End SyncPlanExample.

(** ** What a [FilteringBFS] traversal visits *)

Module FilteringBFSTraversal.
Import FilteringBFS.

Section Traversal.
Context {adjEntry : Type}.
Variable adjEntries : nat → list adjEntry.
Variable twinNode : adjEntry → nat.
Variable nodes : list nat.
Variable visit : adjEntry → bool.
Variable descend : nat → bool.

(** The nodes that can be reached from a start node along adjacency
    entries that pass the visit filter, leaving only nodes that pass the
    descend filter. *)
Inductive reaches : nat → Prop :=
  | reaches_start n : n ∈ nodes → reaches n
  | reaches_step x adj :
      reaches x → descend x = true → adj ∈ adjEntries x → visit adj = true →
      reaches (twinNode adj).

(** [pendingCount()]. *)
Definition pendingCount (b : FilteringBFS (adjEntry := adjEntry)) : nat :=
  length (m_pending b).

(** [willVisitTarget(adj)] and [willDescendFrom(n)]. *)
Definition willVisitTarget (b : FilteringBFS) (adj : adjEntry) : bool :=
  m_visit b adj.

Definition willDescendFrom (b : FilteringBFS (adjEntry := adjEntry)) (n : nat)
  : bool :=
  m_descend b n.

Lemma elem_of_drain visited pending x :
  x ∈ drain visited pending → x ∈ pending.
Proof.
  induction pending as [|top rest IH]; simpl; [done|].
  case_bool_decide; [|done]. intros ?%IH. by right.
Qed.

Lemma elem_of_drain_or visited pending x :
  x ∈ pending → x ∈ visited ∨ x ∈ drain visited pending.
Proof.
  induction pending as [|top rest IH]; simpl; [by intros ?%elem_of_nil|].
  case_bool_decide as Hv; [|by right].
  intros [->|Hx]%elem_of_cons; [by left | by apply IH].
Qed.

Lemma elem_of_enqueue visited f (adjs : list adjEntry) pending x :
  x ∈ foldl (enqueue twinNode visited f) pending adjs
  ↔ x ∈ pending
    ∨ ∃ adj, adj ∈ adjs ∧ twinNode adj = x ∧ (x ∉ visited) ∧ f adj = true.
Proof.
  revert pending. induction adjs as [|adj adjs IH]; intros pending; simpl.
  - split; [by left|]. intros [?|(adj & ?%elem_of_nil & _)]; done.
  - rewrite IH. unfold enqueue.
    destruct (bool_decide (twinNode adj ∈ visited)) eqn:Hv; simpl.
    + apply bool_decide_eq_true in Hv. split.
      * intros [?|(a & Ha & ?)]; [by left|]. right. exists a. split; [by right | done].
      * intros [?|(a & [->|Ha]%elem_of_cons & Htw & Hx & Hf)]; [by left | |].
        -- subst x. done.
        -- right. by exists a.
    + apply bool_decide_eq_false in Hv. destruct (f adj) eqn:Hf.
      * rewrite elem_of_app, list_elem_of_singleton. split.
        -- intros [[?| ->]|(a & Ha & ?)]; [by left | |].
           ++ right. exists adj. split; [by left | done].
           ++ right. exists a. split; [by right | done].
        -- intros [?|(a & [->|Ha]%elem_of_cons & Htw & Hx & Hfa)].
           ++ by left; left.
           ++ left. by right.
           ++ right. by exists a.
      * split.
        -- intros [?|(a & Ha & ?)]; [by left|]. right. exists a.
           split; [by right | done].
        -- intros [?|(a & [->|Ha]%elem_of_cons & Htw & Hx & Hfa)]; [by left | |].
           ++ congruence.
           ++ right. by exists a.
Qed.

(** The graph is finite: [V] holds the start nodes and is closed under
    [twinNode]. *)
Variable V : gset nat.
Hypothesis nodes_in_V : ∀ n, n ∈ nodes → n ∈ V.
Hypothesis twin_in_V : ∀ n adj, n ∈ V → adj ∈ adjEntries n → twinNode adj ∈ V.

(** The invariant of a search between two calls of [next()]. *)
Record searching (b : FilteringBFS) : Prop := {
  s_visit : m_visit b = visit;
  s_descend : m_descend b = descend;
  s_front : front_unvisited b;
  s_sound : ∀ n, n ∈ m_pending b ∨ n ∈ m_visited b → n ∈ V ∧ reaches n;
  s_closed : ∀ x adj,
    x ∈ m_visited b → descend x = true → adj ∈ adjEntries x → visit adj = true →
    twinNode adj ∈ m_visited b ∨ twinNode adj ∈ m_pending b;
  s_start : ∀ n, n ∈ nodes → n ∈ m_visited b ∨ n ∈ m_pending b;
}.

Lemma searching_new : searching (new_bfs nodes visit descend).
Proof.
  split; simpl.
  - done.
  - done.
  - intros n _. simpl. apply not_elem_of_empty.
  - rewrite pending_of_new. intros n [Hn|Hn%elem_of_empty]; [|done].
    split; [by apply nodes_in_V | by apply reaches_start].
  - by intros x adj ?%elem_of_empty.
  - intros n Hn. right. by rewrite pending_of_new.
Qed.

Lemma searching_next b b' :
  searching b → next adjEntries twinNode b = Some b' → searching b'.
Proof.
  intros [Hvis Hdes Hfront Hsound Hclosed Hstart] Hnext.
  pose proof (front_unvisited_next _ _ _ _ Hnext) as Hfront'.
  unfold next in Hnext. destruct (m_pending b) as [|n0 rest] eqn:Hp; [done|].
  case_bool_decide as Hn0; [done|]. injection Hnext as <-.
  rewrite Hvis, Hdes in Hfront' |- *.
  destruct (Hsound n0) as [Hn0V Hn0r]; [left; by left|].
  set (visited := {[n0]} ∪ m_visited b) in *.
  set (pending := if descend n0
                  then foldl (enqueue twinNode visited visit) rest (adjEntries n0)
                  else rest) in *.
  assert (Hrest : ∀ x, x ∈ rest → x ∈ pending).
  { intros x Hx. unfold pending. destruct (descend n0); [|done].
    apply elem_of_enqueue. by left. }
  assert (Hold : ∀ x, x ∈ m_visited b ∨ x ∈ n0 :: rest →
                      x ∈ visited ∨ x ∈ drain visited pending).
  { intros x [Hx|[->|Hx]%elem_of_cons].
    - left. by apply elem_of_union_r.
    - left. apply elem_of_union_l. by apply elem_of_singleton.
    - by apply elem_of_drain_or, Hrest. }
  split; simpl.
  - done.
  - done.
  - done.
  - intros n [Hn%elem_of_drain|Hn].
    + unfold pending in Hn. destruct (descend n0) eqn:Hd.
      * apply elem_of_enqueue in Hn as [Hn|(adj & Hadj & <- & _ & Hf)].
        -- apply Hsound. left. by right.
        -- split; [by eapply twin_in_V | by eapply reaches_step].
      * apply Hsound. left. by right.
    + apply elem_of_union in Hn as [->%elem_of_singleton|Hn]; [done|].
      apply Hsound. by right.
  - intros x adj Hx Hd Hadj Hf.
    apply elem_of_union in Hx as [->%elem_of_singleton|Hx].
    + destruct (decide (twinNode adj ∈ visited)) as [|Hnv]; [by left|].
      apply elem_of_drain_or. unfold pending. rewrite Hd.
      apply elem_of_enqueue. right. by exists adj.
    + apply Hold. destruct (Hclosed x adj Hx Hd Hadj Hf); [by left | by right].
  - intros n Hn. apply Hold. destruct (Hstart n Hn); [by left | by right].
Qed.

(** When the queue is empty every node that can be reached is flagged. *)
Lemma exhausted_visited b n :
  searching b → m_pending b = [] → reaches n → n ∈ m_visited b.
Proof.
  intros [_ _ _ _ Hclosed Hstart] Hp. induction 1 as [n Hn|x adj _ IH Hd Hadj Hf].
  - destruct (Hstart n Hn) as [|Hin]; [done|]. rewrite Hp in Hin.
    by apply elem_of_nil in Hin.
  - destruct (Hclosed x adj IH Hd Hadj Hf) as [|Hin]; [done|]. rewrite Hp in Hin.
    by apply elem_of_nil in Hin.
Qed.

Lemma traverse_searching fuel b :
  searching b → size (V ∖ m_visited b) < fuel →
  ∀ n, n ∈ traverse adjEntries twinNode fuel b ↔ reaches n ∧ n ∉ m_visited b.
Proof.
  revert b. induction fuel as [|fuel IH]; intros b Hs Hsize n; [lia|].
  simpl. destruct (current b) as [n0|] eqn:Hc.
  - destruct (next_defined adjEntries twinNode b n0 (s_front _ Hs) Hc)
      as (b' & Hnext & Hv).
    rewrite Hnext.
    assert (Hn0 : n0 ∈ m_pending b).
    { unfold current in Hc. destruct (m_pending b); [done|].
      injection Hc as ->. by left. }
    destruct (s_sound _ Hs n0) as [Hn0V Hn0r]; [by left|].
    pose proof (s_front _ Hs n0 Hc) as Hn0v.
    assert (Hlt : size (V ∖ m_visited b') < size (V ∖ m_visited b)).
    { apply subset_size. rewrite Hv. split.
      - intros x [Hx Hnx]%elem_of_difference. apply elem_of_difference.
        split; [done|]. intros ?. apply Hnx. by apply elem_of_union_r.
      - intros Hsub.
        assert (n0 ∈ V ∖ ({[n0]} ∪ m_visited b)) as [_ Hin]%elem_of_difference.
        { apply Hsub. by apply elem_of_difference. }
        apply Hin, elem_of_union_l. by apply elem_of_singleton. }
    rewrite elem_of_cons, (IH b' (searching_next _ _ Hs Hnext)) by lia.
    rewrite Hv. split.
    + intros [->|[Hr Hnv]]; [done|]. split; [done|].
      intros ?. apply Hnv. by apply elem_of_union_r.
    + intros [Hr Hnv]. destruct (decide (n = n0)) as [|Hne]; [by left|].
      right. split; [done|].
      intros [?%elem_of_singleton|?]%elem_of_union; done.
  - split; [by intros ?%elem_of_nil|]. intros [Hr Hnv]. exfalso. apply Hnv.
    apply exhausted_visited; [done | | done].
    unfold current in Hc. by destruct (m_pending b).
Qed.

(** The loop [for (node n : bfs)] over a search that was constructed on the
    start nodes [nodes] ends after at most as many rounds as the graph has
    nodes, and has then returned every node that can be reached from a
    start node through the two filters, each one once, and no other
    node. *)
Theorem traversal_visits_reachable (fuel : nat) :
  size V < fuel →
  NoDup (traverse adjEntries twinNode fuel (new_bfs nodes visit descend))
  ∧ (∀ n, n ∈ traverse adjEntries twinNode fuel (new_bfs nodes visit descend)
          ↔ reaches n)
  ∧ length (traverse adjEntries twinNode fuel (new_bfs nodes visit descend))
    ≤ size V.
Proof.
  intros Hfuel. pose proof searching_new as Hs.
  destruct (traverse_fresh adjEntries twinNode fuel _ (s_front _ Hs)) as [Hnd _].
  assert (Hiff : ∀ n, n ∈ traverse adjEntries twinNode fuel
                         (new_bfs nodes visit descend) ↔ reaches n).
  { intros n. rewrite (traverse_searching fuel _ Hs).
    - simpl. split; [by intros [? _] | intros ?; split; [done|]].
      apply not_elem_of_empty.
    - simpl. rewrite difference_empty_L. done. }
  split_and!; [done | done |].
  rewrite <- (size_list_to_set (C := gset nat)) by done.
  apply subseteq_size. intros n Hn%elem_of_list_to_set%Hiff.
  clear Hiff Hnd Hfuel.
  induction Hn as [n Hn|x adj _ IH Hd Hadj Hf]; [by apply nodes_in_V|].
  by eapply twin_in_V.
Qed.

End Traversal.
End FilteringBFSTraversal.

(** A breadth-first search of the triangle of [BFSExample] that may only
    be left through node 0. *)
Module TraversalExample.
Import FilteringBFS FilteringBFSTraversal BFSExample.

Definition V : gset nat := set_seq 0 3.

Definition descend (n : nat) : bool := bool_decide (n = 0).

Lemma twin_in_V n adj : n ∈ V → adj ∈ adjEntries n → twinNode adj ∈ V.
Proof.
  unfold V. rewrite !elem_of_set_seq. intros Hn Hadj.
  assert (n = 0 ∨ n = 1 ∨ n = 2) as Hcases by lia.
  destruct Hcases as [Hz|[Hz|Hz]]; subst n.
  - change (adjEntries 0) with [(0, 1); (0, 2)] in Hadj.
    rewrite !elem_of_cons, elem_of_nil in Hadj.
    destruct Hadj as [Ha|[Ha|[]]]; subst adj; simpl; lia.
  - change (adjEntries 1) with [(1, 2); (1, 0)] in Hadj.
    rewrite !elem_of_cons, elem_of_nil in Hadj.
    destruct Hadj as [Ha|[Ha|[]]]; subst adj; simpl; lia.
  - change (adjEntries 2) with [(2, 0); (2, 1)] in Hadj.
    rewrite !elem_of_cons, elem_of_nil in Hadj.
    destruct Hadj as [Ha|[Ha|[]]]; subst adj; simpl; lia.
Qed.

Lemma start_in_V n : n ∈ [0] → n ∈ V.
Proof. intros ->%list_elem_of_singleton. apply elem_of_set_seq. lia. Qed.

Example filtered_order :
  traverse adjEntries twinNode 4 (new_bfs [1] (fun _ => true) descend) = [1].
Proof. vm_compute. reflexivity. Qed.

Lemma traversal_visits_reachable_witness :
  size V < 4
  ∧ ∀ n, n ∈ traverse adjEntries twinNode 4 (new_bfs [0] (fun _ => true) descend)
         ↔ reaches adjEntries twinNode [0] (fun _ => true) descend n.
Proof.
  assert (Hsize : size V < 4) by (vm_compute; lia).
  split; [exact Hsize|].
  exact (proj1 (proj2 (traversal_visits_reachable adjEntries twinNode [0]
                         (fun _ => true) descend V start_in_V twin_in_V 4 Hsize))).
Defined.

End TraversalExample.

(** ** [FilteringBFSIterator] *)

Module FilteringBFSIterator.
Import FilteringBFS.

Section Iterator.
Context {adjEntry : Type}.
Variable adjEntries : nat → list adjEntry.
Variable twinNode : adjEntry → nat.

(** The searches live in a store; an iterator holds the address of one, or
    [nullptr]. *)
Definition store : Type := nat → FilteringBFS (adjEntry := adjEntry).

Record FilteringBFSIterator : Type := mkIterator {
  bfs : option nat;
}.

(** [FilteringBFSIterator()] and [FilteringBFSIterator(bfs)]. *)
Definition end_iterator : FilteringBFSIterator := {| bfs := None |}.
Definition iterator_at (a : nat) : FilteringBFSIterator := {| bfs := Some a |}.

(** [operator==]. *)
Definition operator_eq (σ : store) (lhs rhs : FilteringBFSIterator) : bool :=
  match bfs lhs with
  | Some a =>
      match bfs rhs with
      | Some b => bool_decide (a = b)
      | None => negb (valid (σ a))
      end
  | None =>
      match bfs rhs with
      | Some b => negb (valid (σ b))
      | None => true
      end
  end.

(** [operator!=]. *)
Definition operator_ne (σ : store) (lhs rhs : FilteringBFSIterator) : bool :=
  negb (operator_eq σ lhs rhs).

(** [operator*]; [None] is the failure of an assertion, the iterator's or
    the one of [current()]. *)
Definition operator_deref (σ : store) (it : FilteringBFSIterator) : option nat :=
  match bfs it with
  | Some a => current (σ a)
  | None => None
  end.

(** [operator++]: the search the iterator points to moves on, the iterator
    is the same. *)
Definition operator_incr (σ : store) (it : FilteringBFSIterator) : option store :=
  match bfs it with
  | Some a =>
      match next adjEntries twinNode (σ a) with
      | Some b' => Some (fun x => if decide (x = a) then b' else σ x)
      | None => None
      end
  | None => None
  end.

(** The loop [for (auto it = first; it != last; ++it)] that collects the
    nodes it dereferences [it] to; [None] is a failed assertion, [fuel]
    bounds the number of rounds. *)
Fixpoint iterate (fuel : nat) (σ : store) (first last : FilteringBFSIterator)
  : option (list nat) :=
  match fuel with
  | 0 => Some []
  | S fuel' =>
      if operator_ne σ first last
      then
        match operator_deref σ first with
        | Some n =>
            match operator_incr σ first with
            | Some σ' =>
                match iterate fuel' σ' first last with
                | Some l => Some (n :: l)
                | None => None
                end
            | None => None
            end
        | None => None
        end
      else Some []
  end.

(** Comparing with the end iterator asks whether the search is exhausted;
    the comparison is symmetric, and an iterator equals itself. *)
Theorem operator_eq_end (σ : store) (it other : FilteringBFSIterator) :
  (operator_eq σ it end_iterator = true
   ↔ match bfs it with Some a => m_pending (σ a) = [] | None => True end)
  ∧ operator_eq σ it other = operator_eq σ other it
  ∧ operator_eq σ it it = true.
Proof.
  unfold operator_eq, end_iterator, valid. simpl. split_and!.
  - destruct (bfs it) as [a|]; [|done]. by destruct (m_pending (σ a)).
  - destruct (bfs it) as [a|], (bfs other) as [b|]; try done.
    apply bool_decide_ext. split; by intros ->.
  - destruct (bfs it) as [a|]; [|done]. by apply bool_decide_eq_true.
Qed.

(** The comparison is not an equivalence: two iterators into different
    exhausted searches both equal the end iterator, and differ from each
    other. *)
Theorem operator_eq_not_transitive (σ : store) (a b : nat) :
  a ≠ b → valid (σ a) = false → valid (σ b) = false →
  operator_eq σ (iterator_at a) end_iterator = true
  ∧ operator_eq σ end_iterator (iterator_at b) = true
  ∧ operator_eq σ (iterator_at a) (iterator_at b) = false.
Proof.
  intros Hab Ha Hb. unfold operator_eq. simpl. rewrite Ha, Hb.
  split_and!; [done | done |]. by apply bool_decide_eq_false.
Qed.

Lemma deref_incr_defined (σ : store) (a : nat) :
  reachable adjEntries twinNode (σ a) →
  operator_ne σ (iterator_at a) end_iterator = true →
  ∃ n σ',
    operator_deref σ (iterator_at a) = Some n
    ∧ operator_incr σ (iterator_at a) = Some σ'
    ∧ hasVisited (σ a) n = false
    ∧ hasVisited (σ' a) n = true
    ∧ reachable adjEntries twinNode (σ' a)
    ∧ ∀ x, x ≠ a → σ' x = σ x.
Proof.
  intros Hr Hne. unfold operator_ne, operator_eq in Hne. simpl in Hne.
  apply negb_true_iff, negb_false_iff in Hne. unfold valid in Hne.
  destruct (m_pending (σ a)) as [|n rest] eqn:Hp; [done|].
  assert (Hc : current (σ a) = Some n) by (unfold current; by rewrite Hp).
  pose proof (front_unvisited_reachable _ _ _ Hr) as Hfront.
  destruct (next_defined adjEntries twinNode (σ a) n Hfront Hc) as (b' & Hn & Hv).
  exists n, (fun x => if decide (x = a) then b' else σ x).
  unfold operator_deref, operator_incr, hasVisited. simpl. rewrite Hn.
  rewrite decide_True by done. split_and!; try done.
  - apply bool_decide_eq_false. by apply Hfront.
  - apply bool_decide_eq_true. rewrite Hv. apply elem_of_union_l.
    by apply elem_of_singleton.
  - by eapply reach_next.
  - intros x Hx. by rewrite decide_False.
Qed.


(** An iterator that differs from the end iterator can be dereferenced and
    advanced: no assertion of [operator*], [current()], [operator++] or
    [next()] fails, provided the search is in a state its clients can reach.
    The node returned had not been visited, and is visited afterwards. *)
Theorem not_end_deref_incr (σ : store) (a : nat) :
  reachable adjEntries twinNode (σ a) →
  operator_ne σ (iterator_at a) end_iterator = true →
  ∃ n σ',
    operator_deref σ (iterator_at a) = Some n
    ∧ operator_incr σ (iterator_at a) = Some σ'
    ∧ hasVisited (σ a) n = false
    ∧ hasVisited (σ' a) n = true
    ∧ reachable adjEntries twinNode (σ' a)
    ∧ ∀ x, x ≠ a → σ' x = σ x.
Proof. apply deref_incr_defined. Qed.

(** The iterator loop from [iterator_at a] to the end iterator fails no
    assertion and returns what [traverse] lists. *)
Theorem iterate_traverse (fuel : nat) (σ : store) (a : nat) :
  reachable adjEntries twinNode (σ a) →
  iterate fuel σ (iterator_at a) end_iterator
  = Some (traverse adjEntries twinNode fuel (σ a)).
Proof.
  revert σ. induction fuel as [|fuel IH]; intros σ Hr; [done|].
  simpl. destruct (operator_ne σ (iterator_at a) end_iterator) eqn:Hne.
  - destruct (deref_incr_defined σ a Hr Hne)
      as (n & σ' & Hd & Hi & _ & _ & Hr' & _).
    rewrite Hd, Hi, (IH σ' Hr').
    unfold operator_deref in Hd. simpl in Hd. rewrite Hd.
    unfold operator_incr in Hi. simpl in Hi.
    destruct (next adjEntries twinNode (σ a)) as [b'|]; [|done].
    injection Hi as <-. by rewrite decide_True.
  - unfold operator_ne, operator_eq in Hne. simpl in Hne.
    apply negb_false_iff, negb_true_iff in Hne. unfold valid in Hne.
    unfold current. by destruct (m_pending (σ a)).
Qed.

End Iterator.
End FilteringBFSIterator.

(** Two searches of the triangle, one of them exhausted. *)
Module IteratorExample.
Import FilteringBFS FilteringBFSIterator BFSExample.

Definition exhausted : FilteringBFS (adjEntry := nat * nat) :=
  new_bfs [] (fun _ => true) (fun _ => true).

Definition σ : store := fun a => if decide (a = 0) then start else exhausted.

Lemma operator_eq_not_transitive_witness :
  1 ≠ 2 ∧ valid (σ 1) = false ∧ valid (σ 2) = false
  ∧ operator_eq σ (iterator_at 1) end_iterator = true
  ∧ operator_eq σ end_iterator (iterator_at 2) = true
  ∧ operator_eq σ (iterator_at 1) (iterator_at 2) = false.
Proof.
  split; [lia|]. split; [reflexivity|]. split; [reflexivity|].
  apply (operator_eq_not_transitive σ 1 2); [lia | reflexivity | reflexivity].
Defined.

Lemma not_end_deref_incr_witness :
  reachable adjEntries twinNode (σ 0)
  ∧ operator_ne σ (iterator_at 0) end_iterator = true
  ∧ ∃ n σ', operator_deref σ (iterator_at 0) = Some n
            ∧ operator_incr adjEntries twinNode σ (iterator_at 0) = Some σ'
            ∧ hasVisited (σ' 0) n = true.
Proof.
  assert (Hr : reachable adjEntries twinNode (σ 0)) by apply reach_new.
  split; [exact Hr|]. split; [reflexivity|].
  destruct (not_end_deref_incr adjEntries twinNode σ 0 Hr eq_refl)
    as (n & σ' & Hd & Hi & _ & Hv & _).
  exists n, σ'. split; [exact Hd|]. split; [exact Hi | exact Hv].
Defined.

Lemma iterate_traverse_witness :
  reachable adjEntries twinNode (σ 0)
  ∧ iterate adjEntries twinNode 10 σ (iterator_at 0) end_iterator
    = Some (traverse adjEntries twinNode 10 (σ 0)).
Proof.
  assert (Hr : reachable adjEntries twinNode (σ 0)) by apply reach_new.
  split; [exact Hr|].
  exact (iterate_traverse adjEntries twinNode 10 σ 0 Hr).
Defined.

Example iterate_run :
  iterate adjEntries twinNode 10 σ (iterator_at 0) end_iterator = Some [0; 1; 2].
Proof. vm_compute. reflexivity. Qed.

End IteratorExample.

(** ** [mapGraph] after [mapGraph] *)

Module MapGraphCompose.
Import NodeSPQRRotation.



(** Remapping through the identity changes nothing but [m_G]. *)
Theorem mapGraph_identity (G : nat) (r : NodePCRotation) :
  ∃ r', mapGraph id id (Some G) r = Some r'
    ∧ m_G r' = Some G
    ∧ m_n r' = m_n r
    ∧ m_rootNode r' = m_rootNode r
    ∧ m_graphNodeForInnerNode r' = m_graphNodeForInnerNode r
    ∧ m_incidentEdgeForLeaf r' = m_incidentEdgeForLeaf r
    ∧ (∀ i, m_bundleEdgesForLeaf r' !!! i = m_bundleEdgesForLeaf r !!! i).
Proof.
  assert (Hslot : ∀ (arr : gmap nat (option nat)) i,
            match arr !!! i with
            | Some h => <[i := id (Some h)]> arr
            | None => arr
            end = arr).
  { intros arr i. destruct (arr !!! i) as [h|] eqn:E; [|done].
    apply insert_id. rewrite lookup_total_alt in E.
    unfold id. destruct (arr !! i) as [[h'|]|]; simpl in E;
      first [congruence | by vm_compute in E]. }
  eexists. split; [reflexivity|]. simpl. rewrite map_leaf_split. simpl.
  split_and!; try done.
  - induction (nodes_of_tree r) as [|p l IH] using rev_ind; [done|].
    rewrite foldl_app. simpl. unfold map_inner at 1. by rewrite Hslot.
  - induction (index <$> getLeaves r) as [|p l IH] using rev_ind; [done|].
    rewrite foldl_app. simpl. unfold leaf_slot at 1. by rewrite Hslot.
  - intros i. destruct (knowsPartnerEdges r); [|done].
    induction (index <$> getLeaves r) as [|p l IH] using rev_ind; [done|].
    rewrite foldl_app. simpl. unfold bundle_slot at 1.
    destruct (decide (p = i)) as [->|Hne].
    + by rewrite lookup_total_insert_eq, list_fmap_id.
    + by rewrite lookup_total_insert_ne.
Qed.

End MapGraphCompose.

(** The rotation of [MapGraphExample], remapped twice. *)
Module MapGraphComposeExample.
Import NodeSPQRRotation MapGraphExample MapGraphCompose.


End MapGraphComposeExample.

(** ** [GraphListBase]: intrusive doubly linked lists *)

Module GraphListBase.

(** A [GraphElement]; pointers are addresses, [None] is [nullptr]. *)
Record GraphElement : Type := mkElement {
  m_next : option nat;
  m_prev : option nat;
}.

(** The elements that exist, by address. *)
Abbreviation heap := (gmap nat GraphElement).

(** [int] has 32 bits: [int_wrap z] is the value an [int] holds after an
    operation whose exact result is [z]. *)
Definition INT_MAX : Z := 2147483647.
Definition INT_MIN : Z := -2147483648.

Definition int_wrap (z : Z) : Z :=
  ((z + 2147483648) mod 4294967296 - 2147483648)%Z.

(** [m_size] is an [int]. *)
Record GraphListBase : Type := mkList {
  m_size : Z;
  m_head : option nat;
  m_tail : option nat;
}.

(** [GraphListBase()]. *)
Definition empty_list : GraphListBase :=
  {| m_size := 0; m_head := None; m_tail := None |}.

Definition size (L : GraphListBase) : Z := m_size L.

Definition empty (L : GraphListBase) : bool := bool_decide (m_size L = 0%Z).

(** [GraphList<T>::head()] and [tail()]. *)
Definition head (L : GraphListBase) : option nat := m_head L.
Definition tail (L : GraphListBase) : option nat := m_tail L.

(** Reading and writing a field through a pointer; [None] when the pointer
    is not the address of an element. *)
Definition get_next (h : heap) (p : nat) : option (option nat) :=
  m_next <$> h !! p.

Definition get_prev (h : heap) (p : nat) : option (option nat) :=
  m_prev <$> h !! p.

Definition set_next (h : heap) (p : nat) (v : option nat) : option heap :=
  e ← h !! p; Some (<[p := {| m_next := v; m_prev := m_prev e |}]> h).

Definition set_prev (h : heap) (p : nat) (v : option nat) : option heap :=
  e ← h !! p; Some (<[p := {| m_next := m_next e; m_prev := v |}]> h).

(** [pushBack(pX)]. *)
Definition pushBack (pX : nat) (h : heap) (L : GraphListBase)
  : option (heap * GraphListBase) :=
  h1 ← set_next h pX None;
  h2 ← set_prev h1 pX (m_tail L);
  match m_head L with
  | Some hd =>
      t ← m_tail L;
      h3 ← set_next h2 t (Some pX);
      Some (h3, {| m_size := int_wrap (m_size L + 1); m_head := Some hd;
                  m_tail := Some pX |})
  | None =>
      Some (h2, {| m_size := int_wrap (m_size L + 1); m_head := Some pX;
                  m_tail := Some pX |})
  end.

(** [insertAfter(pX, pY)]. *)
Definition insertAfter (pX pY : nat) (h : heap) (L : GraphListBase)
  : option (heap * GraphListBase) :=
  h1 ← set_prev h pX (Some pY);
  pYnext ← get_next h1 pY;
  h2 ← set_next h1 pX pYnext;
  h3 ← set_next h2 pY (Some pX);
  match pYnext with
  | Some n =>
      h4 ← set_prev h3 n (Some pX);
      Some (h4, {| m_size := int_wrap (m_size L + 1); m_head := m_head L;
                  m_tail := m_tail L |})
  | None =>
      Some (h3, {| m_size := int_wrap (m_size L + 1); m_head := m_head L;
                  m_tail := Some pX |})
  end.

(** [insertBefore(pX, pY)]. *)
Definition insertBefore (pX pY : nat) (h : heap) (L : GraphListBase)
  : option (heap * GraphListBase) :=
  h1 ← set_next h pX (Some pY);
  pYprev ← get_prev h1 pY;
  h2 ← set_prev h1 pX pYprev;
  h3 ← set_prev h2 pY (Some pX);
  match pYprev with
  | Some p =>
      h4 ← set_next h3 p (Some pX);
      Some (h4, {| m_size := int_wrap (m_size L + 1); m_head := m_head L;
                  m_tail := m_tail L |})
  | None =>
      Some (h3, {| m_size := int_wrap (m_size L + 1); m_head := Some pX;
                  m_tail := m_tail L |})
  end.

(** [del(pX)]. *)
Definition del (pX : nat) (h : heap) (L : GraphListBase)
  : option (heap * GraphListBase) :=
  pxPrev ← get_prev h pX;
  pxNext ← get_next h pX;
  '(h1, hd) ← match pxPrev with
              | Some p => h1 ← set_next h p pxNext; Some (h1, m_head L)
              | None => Some (h, pxNext)
              end;
  '(h2, tl) ← match pxNext with
              | Some n => h2 ← set_prev h1 n pxPrev; Some (h2, m_tail L)
              | None => Some (h1, pxPrev)
              end;
  Some (h2, {| m_size := int_wrap (m_size L - 1); m_head := hd; m_tail := tl |}).

(** The loop of [reverse()]; [None] also when [fuel] rounds do not reach
    the end. *)
Fixpoint reverse_loop (fuel : nat) (h : heap) (pX : option nat) : option heap :=
  match pX with
  | None => Some h
  | Some x =>
      match fuel with
      | 0 => None
      | S fuel' =>
          pY ← get_next h x;
          pP ← get_prev h x;
          h1 ← set_next h x pP;
          h2 ← set_prev h1 x pY;
          reverse_loop fuel' h2 pY
      end
  end.

(** [reverse()]. *)
Definition reverse (fuel : nat) (h : heap) (L : GraphListBase)
  : option (heap * GraphListBase) :=
  h' ← reverse_loop fuel h (m_head L);
  Some (h', {| m_size := m_size L; m_head := m_tail L; m_tail := m_head L |}).

(** The loop of [sort(begin, end)]; the result holds [pPred]. *)
Fixpoint sort_loop (h : heap) (pPred : option nat) (order : list nat)
  : option (heap * option nat) :=
  match order with
  | [] => Some (h, pPred)
  | p :: rest =>
      h1 ← set_prev h p pPred;
      h2 ← match pPred with
           | Some q => set_next h1 q (Some p)
           | None => Some h1
           end;
      sort_loop h2 (Some p) rest
  end.

(** [sort(newOrder)]. *)
Definition sort (newOrder : list nat) (h : heap) (L : GraphListBase)
  : option (heap * GraphListBase) :=
  match newOrder with
  | [] => Some (h, L)
  | first :: _ =>
      '(h1, pPred) ← sort_loop h None newOrder;
      t ← pPred;
      h2 ← set_next h1 t None;
      Some (h2, {| m_size := m_size L; m_head := Some first; m_tail := Some t |})
  end.

(** [if (p->m_prev) p->m_prev->m_next = p; else m_head = p;] and
    [if (p->m_next) p->m_next->m_prev = p; else m_tail = p;], the second
    half of [swap]. *)
Definition relink (p : nat) (h : heap) (L : GraphListBase)
  : option (heap * GraphListBase) :=
  pv ← get_prev h p;
  '(h1, L1) ← match pv with
              | Some q => h1 ← set_next h q (Some p); Some (h1, L)
              | None => Some (h, {| m_size := m_size L; m_head := Some p;
                                    m_tail := m_tail L |})
              end;
  nx ← get_next h1 p;
  match nx with
  | Some q => h2 ← set_prev h1 q (Some p); Some (h2, L1)
  | None => Some (h1, {| m_size := m_size L1; m_head := m_head L1;
                         m_tail := Some p |})
  end.

(** [swap(pX, pY)], without the debug-only consistency check. *)
Definition swap (pX pY : nat) (h : heap) (L : GraphListBase)
  : option (heap * GraphListBase) :=
  xn ← get_next h pX;
  yn ← get_next h pY;
  h' ← (if decide (xn = Some pY) then
          h1 ← set_next h pX yn;
          xp ← get_prev h1 pX;
          h2 ← set_prev h1 pY xp;
          h3 ← set_next h2 pY (Some pX);
          set_prev h3 pX (Some pY)
        else if decide (yn = Some pX) then
          h1 ← set_next h pY xn;
          yp ← get_prev h1 pY;
          h2 ← set_prev h1 pX yp;
          h3 ← set_next h2 pX (Some pY);
          set_prev h3 pY (Some pX)
        else
          h1 ← set_next h pX yn;
          h2 ← set_next h1 pY xn;
          xp ← get_prev h2 pX;
          yp ← get_prev h2 pY;
          h3 ← set_prev h2 pX yp;
          set_prev h3 pY xp);
  '(h1, L1) ← relink pX h' L;
  relink pY h1 L1.

(** The loop of [consistencyCheck()]: [Some true] when every assertion
    holds, [Some false] when one fails, [None] when a pointer leads out of
    the elements or [fuel] rounds do not reach the end. *)
Fixpoint check_loop (fuel : nat) (h : heap) (L : GraphListBase) (pX : option nat)
  : option bool :=
  match pX with
  | None => Some true
  | Some x =>
      match fuel with
      | 0 => None
      | S fuel' =>
          pv ← get_prev h x;
          ok1 ← match pv with
                | Some q => qn ← get_next h q; Some (bool_decide (qn = Some x))
                | None => Some (bool_decide (m_head L = Some x))
                end;
          if (ok1 : bool) then
            nx ← get_next h x;
            ok2 ← match nx with
                  | Some q => qp ← get_prev h q; Some (bool_decide (qp = Some x))
                  | None => Some (bool_decide (m_tail L = Some x))
                  end;
            if (ok2 : bool) then check_loop fuel' h L nx else Some false
          else Some false
      end
  end.

(** [consistencyCheck()]. *)
Definition consistencyCheck (fuel : nat) (h : heap) (L : GraphListBase)
  : option bool :=
  if bool_decide ((m_head L = None) ↔ (m_tail L = None)) then
    match m_head L with
    | None => Some true
    | Some hd =>
        hp ← get_prev h hd;
        if bool_decide (hp = None) then
          t ← m_tail L;
          tn ← get_next h t;
          if bool_decide (tn = None) then check_loop fuel h L (Some hd)
          else Some false
        else Some false
    end
  else Some false.

(** *** [GraphList<T>] *)

(** [move(pX, L)]: from this list to the end of [L]. *)
Definition move (pX : nat) (h : heap) (this L : GraphListBase)
  : option (heap * GraphListBase * GraphListBase) :=
  '(h1, this') ← del pX h this;
  '(h2, L') ← pushBack pX h1 L;
  Some (h2, this', L').

Inductive Direction : Type := before | after.

(** [move(pX, L, pY, dir)]. *)
Definition move_to (pX : nat) (pY : nat) (dir : Direction) (h : heap)
    (this L : GraphListBase) : option (heap * GraphListBase * GraphListBase) :=
  '(h1, this') ← del pX h this;
  '(h2, L') ← match dir with
              | after => insertAfter pX pY h1 L
              | before => insertBefore pX pY h1 L
              end;
  Some (h2, this', L').

(** [moveAfter(pX, pY)] and [moveBefore(pX, pY)]. *)
Definition moveAfter (pX pY : nat) (h : heap) (L : GraphListBase)
  : option (heap * GraphListBase) :=
  '(h1, L1) ← del pX h L; insertAfter pX pY h1 L1.

Definition moveBefore (pX pY : nat) (h : heap) (L : GraphListBase)
  : option (heap * GraphListBase) :=
  '(h1, L1) ← del pX h L; insertBefore pX pY h1 L1.

(** [delPure(pX)]. *)
Definition delPure (pX : nat) (h : heap) (L : GraphListBase)
  : option (heap * GraphListBase) := del pX h L.

(** *** The list a [GraphListBase] stands for *)

Definition hd_or (l : list nat) (d : option nat) : option nat :=
  match l with [] => d | x :: _ => Some x end.

Definition last_or (l : list nat) (d : option nat) : option nat :=
  match last l with Some x => Some x | None => d end.

(** The elements of [l] are chained in this order, the first one pointing
    back to [p] and the last one on to [n]. *)
Fixpoint seg (h : heap) (p : option nat) (l : list nat) (n : option nat) : Prop :=
  match l with
  | [] => True
  | x :: l' =>
      h !! x = Some {| m_next := hd_or l' n; m_prev := p |}
      ∧ seg h (Some x) l' n
  end.

(** [L] is linked as the list [l]: [m_head] and [m_tail] are its ends and
    the elements are chained in its order, each of them once. *)
Definition linked (h : heap) (L : GraphListBase) (l : list nat) : Prop :=
  NoDup l ∧ seg h None l None
  ∧ m_head L = list.head l ∧ m_tail L = last l.

(** [L] stands for the list [l]: it is linked as [l] and [m_size], an
    [int], counts its elements. *)
Definition repr (h : heap) (L : GraphListBase) (l : list nat) : Prop :=
  NoDup l ∧ seg h None l None
  ∧ m_head L = list.head l ∧ m_tail L = last l
  ∧ m_size L = Z.of_nat (length l) ∧ (m_size L ≤ INT_MAX)%Z.

(** *** Segments *)

Lemma hd_or_app l1 l2 d : hd_or (l1 ++ l2) d = hd_or l1 (hd_or l2 d).
Proof. by destruct l1. Qed.

Lemma last_or_nil d : last_or [] d = d.
Proof. done. Qed.

Lemma last_or_cons x l d : last_or (x :: l) d = last_or l (Some x).
Proof.
  unfold last_or. destruct l as [|y l]; [done|].
  rewrite last_cons_cons. destruct (last (y :: l)) eqn:E; [done|].
  by apply last_None in E.
Qed.

Lemma last_or_app l1 l2 d : last_or (l1 ++ l2) d = last_or l2 (last_or l1 d).
Proof.
  revert d. induction l1 as [|x l1 IH]; intros d; [done|].
  simpl. by rewrite !last_or_cons, IH.
Qed.

Lemma last_or_snoc l x d : last_or (l ++ [x]) d = Some x.
Proof. by rewrite last_or_app. Qed.

Lemma last_or_None l : last_or l None = last l.
Proof. unfold last_or. by destruct (last l). Qed.

Lemma hd_or_None l : hd_or l None = list.head l.
Proof. by destruct l. Qed.

Lemma head_app_cons {A} (l1 l2 : list A) x y :
  list.head (l1 ++ x :: l2) = list.head (l1 ++ x :: y :: l2).
Proof. by destruct l1. Qed.

Lemma last_reverse_head (l : list nat) : last (list.reverse l) = list.head l.
Proof. destruct l as [|x l]; [done|]. by rewrite reverse_cons, last_snoc. Qed.

Lemma head_reverse_last (l : list nat) : list.head (list.reverse l) = last l.
Proof. by rewrite <- last_reverse_head, reverse_involutive. Qed.

Lemma seg_app h p l1 l2 n :
  seg h p (l1 ++ l2) n ↔ seg h p l1 (hd_or l2 n) ∧ seg h (last_or l1 p) l2 n.
Proof.
  revert p. induction l1 as [|x l1 IH]; intros p; simpl.
  - rewrite last_or_nil. tauto.
  - rewrite IH, hd_or_app, last_or_cons. tauto.
Qed.

(** A segment only depends on its own elements. *)
Lemma seg_frame h h' p l n :
  (∀ x, x ∈ l → h' !! x = h !! x) → seg h p l n → seg h' p l n.
Proof.
  revert p. induction l as [|x l IH]; intros p Hl; simpl; [done|].
  intros [Hx Hs]. split.
  - rewrite Hl; [done | by left].
  - apply IH; [|done]. intros y Hy. apply Hl. by right.
Qed.

Lemma seg_allocated h p l n x : seg h p l n → x ∈ l → is_Some (h !! x).
Proof.
  revert p. induction l as [|y l IH]; intros p; simpl; [by intros _ ?%elem_of_nil|].
  intros [Hy Hs] [->|Hx]%elem_of_cons; [by eexists | by eapply IH].
Qed.

(** The cell at a given position. *)
Lemma seg_lookup h p l n i x :
  seg h p l n → l !! i = Some x →
  h !! x = Some {| m_next := hd_or (drop (S i) l) n;
                   m_prev := match i with 0 => p | S j => l !! j end |}.
Proof.
  revert p i. induction l as [|y l IH]; intros p i; simpl; [done|].
  intros [Hy Hs]. destruct i as [|i]; simpl.
  - intros [= <-]. by rewrite drop_0.
  - intros Hx. rewrite (IH _ _ Hs Hx). by destruct i.
Qed.

(** A chain that starts with a null back pointer has no repetition. *)
Lemma seg_NoDup h l n : seg h None l n → NoDup l.
Proof.
  intros Hs. apply NoDup_alt. intros i. induction i as [|i IH]; intros j x Hi Hj.
  - destruct j as [|j]; [done|].
    pose proof (seg_lookup _ _ _ _ _ _ Hs Hi) as H1.
    pose proof (seg_lookup _ _ _ _ _ _ Hs Hj) as H2.
    rewrite H1 in H2. injection H2 as _ H2.
    destruct (lookup_lt_is_Some_2 l j) as [y Hy];
      [apply lookup_lt_Some in Hj; lia|]. congruence.
  - destruct j as [|j].
    + pose proof (seg_lookup _ _ _ _ _ _ Hs Hi) as H1.
      pose proof (seg_lookup _ _ _ _ _ _ Hs Hj) as H2.
      rewrite H1 in H2. injection H2 as _ H2.
      destruct (lookup_lt_is_Some_2 l i) as [y Hy];
        [apply lookup_lt_Some in Hi; lia|]. congruence.
    + f_equal.
      pose proof (seg_lookup _ _ _ _ _ _ Hs Hi) as H1.
      pose proof (seg_lookup _ _ _ _ _ _ Hs Hj) as H2.
      rewrite H1 in H2. injection H2 as _ H2.
      destruct (lookup_lt_is_Some_2 l i) as [y Hy];
        [apply lookup_lt_Some in Hi; lia|].
      apply (IH j y); [done | congruence].
Qed.

(** *** Reading and writing cells that are known *)

Lemma get_next_eq h p e : h !! p = Some e → get_next h p = Some (m_next e).
Proof. unfold get_next. by intros ->. Qed.

Lemma get_prev_eq h p e : h !! p = Some e → get_prev h p = Some (m_prev e).
Proof. unfold get_prev. by intros ->. Qed.

Lemma set_next_eq h p v e :
  h !! p = Some e →
  set_next h p v = Some (<[p := {| m_next := v; m_prev := m_prev e |}]> h).
Proof. unfold set_next. by intros ->. Qed.

Lemma set_prev_eq h p v e :
  h !! p = Some e →
  set_prev h p v = Some (<[p := {| m_next := m_next e; m_prev := v |}]> h).
Proof. unfold set_prev. by intros ->. Qed.

Lemma bind_Some {A B} (x : A) (f : A → option B) : Some x ≫= f = f x.
Proof. done. Qed.

(** Lookups in a heap that was written to at known addresses. *)
Ltac heap :=
  repeat first
    [ rewrite lookup_insert_eq
    | rewrite lookup_insert_ne by congruence ].

(** *** [int] arithmetic that stays in range *)

Lemma int_wrap_id (z : Z) : (INT_MIN ≤ z ≤ INT_MAX)%Z → int_wrap z = z.
Proof.
  unfold int_wrap, INT_MIN, INT_MAX. intros Hz.
  rewrite Z.mod_small by lia. lia.
Qed.

(** The counter after one more element, when there is room for it. *)
Lemma int_succ (sz : Z) (n : nat) :
  sz = Z.of_nat n → (sz < INT_MAX)%Z →
  int_wrap (sz + 1) = Z.of_nat (S n) ∧ (int_wrap (sz + 1) ≤ INT_MAX)%Z.
Proof.
  intros -> Hlt. rewrite int_wrap_id by (unfold INT_MIN; lia). lia.
Qed.

(** The counter after one element less. *)
Lemma int_pred (sz : Z) (n : nat) :
  sz = Z.of_nat (S n) → (sz ≤ INT_MAX)%Z →
  int_wrap (sz - 1) = Z.of_nat n ∧ (int_wrap (sz - 1) ≤ INT_MAX)%Z.
Proof.
  intros -> Hle. rewrite int_wrap_id by (unfold INT_MIN; lia). lia.
Qed.

Lemma int_succ' (sz : Z) (n m : nat) :
  sz = Z.of_nat n → (sz < INT_MAX)%Z → m = S n →
  int_wrap (sz + 1) = Z.of_nat m ∧ (int_wrap (sz + 1) ≤ INT_MAX)%Z.
Proof. intros Hsz Hlt ->. by apply int_succ. Qed.

Lemma int_pred' (sz : Z) (n m : nat) :
  sz = Z.of_nat n → (sz ≤ INT_MAX)%Z → n = S m →
  int_wrap (sz - 1) = Z.of_nat m ∧ (int_wrap (sz - 1) ≤ INT_MAX)%Z.
Proof. intros Hsz Hle ->. by apply int_pred. Qed.

Lemma repr_intro h L l :
  NoDup l → seg h None l None →
  m_head L = list.head l → m_tail L = last l →
  m_size L = Z.of_nat (length l) ∧ (m_size L ≤ INT_MAX)%Z →
  repr h L l.
Proof. intros ? ? ? ? [? ?]. by split_and!. Qed.

(** The lengths of two lists that differ by one element. *)
Ltac lengths := rewrite ?length_app; simpl; rewrite ?length_app; simpl; lia.

Lemma repr_linked h L l : repr h L l → linked h L l.
Proof. intros (? & ? & ? & ? & _). by split_and!. Qed.

(** *** [pushBack] *)

Lemma pushBack_repr h L l x :
  repr h L l → x ∉ l → is_Some (h !! x) → (m_size L < INT_MAX)%Z →
  ∃ h' L', pushBack x h L = Some (h', L')
    ∧ repr h' L' (l ++ [x])
    ∧ (∀ z, z ≠ x → Some z ≠ last l → h' !! z = h !! z).
Proof.
  intros (Hnd & Hs & Hhd & Htl & Hsz & _) Hx [e He] Hroom.
  unfold pushBack.
  rewrite (set_next_eq _ _ _ e He), bind_Some.
  rewrite (set_prev_eq _ _ _ (mkElement None (m_prev e))), bind_Some by (by heap).
  simpl. rewrite insert_insert_eq.
  destruct l as [|t l _] using rev_ind.
  - simpl in Hhd, Htl. rewrite Hhd, Htl. eexists _, _. split; [done|].
    split; [|by intros; heap].
    destruct (int_succ _ 0 Hsz Hroom) as [Hsz' Hint'].
    split_and!; cbn [m_head m_tail m_size app length]; try done.
    + apply NoDup_singleton.
    + simpl. split; [by heap | done].
  - rewrite last_snoc in Htl. rewrite Hhd, Htl.
    apply seg_app in Hs as [Hs1 Hs2]. simpl in Hs2. destruct Hs2 as [Ht _].
    apply NoDup_app in Hnd as (Hnd1 & Hdis & _).
    assert (Hxt : x ≠ t).
    { intros ->. apply Hx, elem_of_app. right. by left. }
    assert (Htl1 : t ∉ l).
    { intros Hin. apply (Hdis _ Hin). by left. }
    destruct (list.head (l ++ [t])) as [hd|] eqn:Hhead;
      [|by destruct l].
    rewrite bind_Some.
    rewrite (set_next_eq _ _ _ (mkElement None (last_or l None)))
      by (by heap).
    rewrite bind_Some. simpl. eexists _, _. split; [done|]. split.
    + destruct (int_succ _ _ Hsz Hroom) as [Hsz' Hint'].
      split_and!; cbn [m_head m_tail m_size].
      * apply NoDup_app. split_and!.
        -- apply NoDup_app. split_and!; [done | done | apply NoDup_singleton].
        -- intros y Hy ->%list_elem_of_singleton. done.
        -- apply NoDup_singleton.
      * rewrite <- app_assoc. apply seg_app. split.
        -- apply (seg_frame h); [|done]. intros y Hy.
           assert (y ≠ x) by (intros ->; apply Hx, elem_of_app; by left).
           assert (y ≠ t) by (by intros ->).
           by heap.
        -- simpl. split_and!; [by heap | by heap | done].
      * rewrite <- Hhead. by destruct l.
      * by rewrite last_snoc.
      * rewrite Hsz', !length_app. simpl. lia.
      * done.
    + intros z Hzx Hzt. rewrite last_snoc in Hzt. by heap.
Qed.

(** One read or write through a pointer whose cell is known. *)
Ltac known := heap; first [reflexivity | eassumption].

Ltac step :=
  first
    [ erewrite set_next_eq by known
    | erewrite set_prev_eq by known
    | erewrite get_next_eq by known
    | erewrite get_prev_eq by known ];
  rewrite ?bind_Some; cbv beta iota; cbn [m_next m_prev].

Lemma repr_split h L l1 y l2 :
  repr h L (l1 ++ y :: l2) →
  seg h None l1 (Some y)
  ∧ h !! y = Some {| m_next := hd_or l2 None; m_prev := last_or l1 None |}
  ∧ seg h (Some y) l2 None
  ∧ NoDup l1 ∧ NoDup l2
  ∧ (y ∉ l1) ∧ (y ∉ l2) ∧ (∀ z, z ∈ l1 → z ∉ l2).
Proof.
  intros (Hnd & Hs & _). apply seg_app in Hs as [Hs1 [Hy Hs2]].
  apply NoDup_app in Hnd as (Hnd1 & Hdis & Hnd2).
  apply NoDup_cons in Hnd2 as [Hy2 Hnd2].
  split_and!; try done.
  - intros Hin. apply (Hdis _ Hin). by left.
  - intros z Hz Hz2. apply (Hdis _ Hz). by right.
Qed.

Lemma NoDup_insert_middle (l1 l2 : list nat) (x y : nat) :
  NoDup (l1 ++ y :: l2) → x ∉ l1 ++ y :: l2 →
  NoDup (l1 ++ y :: x :: l2) ∧ NoDup (l1 ++ x :: y :: l2).
Proof.
  intros Hnd Hx.
  assert (Hp1 : l1 ++ y :: x :: l2 ≡ₚ x :: (l1 ++ y :: l2)).
  { rewrite (Permutation_middle l1 (y :: l2) x). apply Permutation_app_head.
    apply perm_swap. }
  assert (Hp2 : l1 ++ x :: y :: l2 ≡ₚ x :: (l1 ++ y :: l2)).
  { by rewrite (Permutation_middle l1 (y :: l2) x). }
  split; [rewrite Hp1 | rewrite Hp2]; by apply NoDup_cons.
Qed.

(** *** [insertAfter] and [insertBefore] *)

Lemma insertAfter_repr h L l1 y l2 x :
  repr h L (l1 ++ y :: l2) → x ∉ l1 ++ y :: l2 → is_Some (h !! x) →
  (m_size L < INT_MAX)%Z →
  ∃ h' L', insertAfter x y h L = Some (h', L')
    ∧ repr h' L' (l1 ++ y :: x :: l2)
    ∧ (∀ z, z ≠ x → z ≠ y → Some z ≠ list.head l2 → h' !! z = h !! z).
Proof.
  intros Hrepr Hx [e He] Hroom.
  destruct (repr_split _ _ _ _ _ Hrepr)
    as (Hs1 & Hy & Hs2 & Hnd1 & Hnd2 & Hy1 & Hy2 & Hdis).
  destruct (NoDup_insert_middle l1 l2 x y) as [Hnd' _]; [apply Hrepr | done |].
  destruct Hrepr as (_ & _ & Hhd & Htl & Hsz & Hint).
  assert (Hxy : x ≠ y).
  { intros ->. apply Hx, elem_of_app. right. by left. }
  assert (Hx1 : ∀ z, z ∈ l1 → z ≠ x ∧ z ≠ y).
  { intros z Hz. split; intros ->; [apply Hx, elem_of_app; by left | done]. }
  assert (Hx2 : ∀ z, z ∈ l2 → z ≠ x ∧ z ≠ y).
  { intros z Hz. split; intros ->; [|done].
    apply Hx, elem_of_app. right. by right. }
  unfold insertAfter. do 4 step.
  destruct l2 as [|n l2]; cbn [hd_or].
  - eexists _, _. split; [done|]. split.
    + apply repr_intro; cbn [m_head m_tail m_size]; [done | | | |].
      * apply seg_app. split.
        -- apply (seg_frame h); [|done]. intros z [? ?]%Hx1. by heap.
        -- simpl. split_and!; [by heap | by heap | done].
      * rewrite Hhd. by destruct l1.
      * by rewrite (last_app_cons l1), last_cons_cons.
      * apply (int_succ' _ _ _ Hsz Hroom). lengths.
    + intros z ? ? _. by heap.
  - destruct (Hx2 n) as [Hnx Hny]; [by left|].
    destruct Hs2 as [Hn Hs2]. apply NoDup_cons in Hnd2 as [Hn2 Hnd2].
    step. eexists _, _. split; [done|]. split.
    + apply repr_intro; cbn [m_head m_tail m_size]; [done | | | |].
      * apply seg_app. split.
        -- apply (seg_frame h); [|done]. intros z Hz.
           destruct (Hx1 z Hz). assert (z ≠ n).
           { intros ->. apply (Hdis n Hz). by left. }
           by heap.
        -- simpl. split_and!; [by heap | by heap | by heap |].
           apply (seg_frame h); [|done]. intros z Hz.
           destruct (Hx2 z) as [? ?]; [by right|].
           assert (z ≠ n) by (by intros ->). by heap.
      * rewrite Hhd. by destruct l1.
      * rewrite Htl. by rewrite ?(last_app_cons l1), ?last_cons_cons.
      * apply (int_succ' _ _ _ Hsz Hroom). lengths.
    + intros z ? ? Hzn. simpl in Hzn. assert (z ≠ n) by congruence. by heap.
Qed.

Lemma insertBefore_repr h L l1 y l2 x :
  repr h L (l1 ++ y :: l2) → x ∉ l1 ++ y :: l2 → is_Some (h !! x) →
  (m_size L < INT_MAX)%Z →
  ∃ h' L', insertBefore x y h L = Some (h', L')
    ∧ repr h' L' (l1 ++ x :: y :: l2)
    ∧ (∀ z, z ≠ x → z ≠ y → Some z ≠ last l1 → h' !! z = h !! z).
Proof.
  intros Hrepr Hx [e He] Hroom.
  destruct (repr_split _ _ _ _ _ Hrepr)
    as (Hs1 & Hy & Hs2 & Hnd1 & Hnd2 & Hy1 & Hy2 & Hdis).
  destruct (NoDup_insert_middle l1 l2 x y) as [_ Hnd']; [apply Hrepr | done |].
  destruct Hrepr as (_ & _ & Hhd & Htl & Hsz & Hint).
  assert (Hxy : x ≠ y).
  { intros ->. apply Hx, elem_of_app. right. by left. }
  assert (Hx1 : ∀ z, z ∈ l1 → z ≠ x ∧ z ≠ y).
  { intros z Hz. split; intros ->; [apply Hx, elem_of_app; by left | done]. }
  assert (Hx2 : ∀ z, z ∈ l2 → z ≠ x ∧ z ≠ y).
  { intros z Hz. split; intros ->; [|done].
    apply Hx, elem_of_app. right. by right. }
  assert (Hs2' : ∀ h', h' !! x = h' !! x → (∀ z, z ∈ l2 → h' !! z = h !! z) →
                       seg h' (Some y) l2 None).
  { intros h' _ Hh'. by apply (seg_frame h). }
  unfold insertBefore. do 4 step.
  destruct l1 as [|p l1 _] using rev_ind.
  - rewrite last_or_nil. eexists _, _. split; [done|]. split.
    + apply repr_intro; cbn [m_head m_tail m_size]; [done | | | |].
      * simpl. split_and!; [by heap | by heap |].
        apply Hs2'; [done|]. intros z [? ?]%Hx2. by heap.
      * done.
      * rewrite Htl. simpl. by rewrite ?last_cons_cons.
      * apply (int_succ' _ _ _ Hsz Hroom). lengths.
    + intros z ? ? _. by heap.
  - rewrite last_or_snoc.
    assert (Hpx : p ≠ x ∧ p ≠ y) by (apply Hx1, elem_of_app; right; by left).
    destruct Hpx as [Hpx Hpy].
    apply seg_app in Hs1 as [Hs1 [Hp _]]. cbn [hd_or] in Hs1, Hp.
    apply NoDup_app in Hnd1 as (Hnd1 & Hd1 & _).
    step. eexists _, _. split; [done|]. split.
    + apply repr_intro; cbn [m_head m_tail m_size]; [done | | | |].
      * rewrite <- app_assoc. apply seg_app. split.
        -- apply (seg_frame h); [|done]. intros z Hz.
           destruct (Hx1 z) as [? ?]; [apply elem_of_app; by left|].
           assert (z ≠ p).
           { intros ->. apply (Hd1 p Hz). by left. }
           by heap.
        -- simpl. split_and!; [by heap | by heap | by heap |].
           apply Hs2'; [done|]. intros z Hz. destruct (Hx2 z Hz).
           assert (z ≠ p).
           { intros ->. apply (Hdis p); [apply elem_of_app; right; by left | done]. }
           by heap.
      * rewrite Hhd. by destruct l1.
      * rewrite Htl. rewrite <- !app_assoc. simpl.
        by rewrite ?(last_app_cons l1), ?last_cons_cons.
      * apply (int_succ' _ _ _ Hsz Hroom). lengths.
    + intros z ? ? Hzp. rewrite last_snoc in Hzp.
      assert (z ≠ p) by congruence. by heap.
Qed.

(** *** [del] *)

Lemma del_repr h L l1 x l2 :
  repr h L (l1 ++ x :: l2) →
  ∃ h' L', del x h L = Some (h', L')
    ∧ repr h' L' (l1 ++ l2)
    ∧ h' !! x = h !! x
    ∧ (∀ z, Some z ≠ last l1 → Some z ≠ list.head l2 → h' !! z = h !! z).
Proof.
  intros Hrepr.
  destruct (repr_split _ _ _ _ _ Hrepr)
    as (Hs1 & Hx & Hs2 & Hnd1 & Hnd2 & Hx1 & Hx2 & Hdis).
  destruct Hrepr as (Hnd & _ & Hhd & Htl & Hsz & Hint).
  assert (Hnd' : NoDup (l1 ++ l2)).
  { apply NoDup_app. split_and!; try done. }
  unfold del. do 2 step.
  destruct l1 as [|p l1 _] using rev_ind; destruct l2 as [|n l2];
    rewrite ?last_or_nil, ?last_or_snoc; cbn [hd_or]; cbv beta iota;
    rewrite ?bind_Some; cbv beta iota.
  - eexists _, _. split; [done|].
    split; [|by split].
    apply repr_intro; cbn [m_head m_tail m_size]; [done | done | done | done |].
    apply (int_pred' _ _ _ Hsz Hint). lengths.
  - destruct Hs2 as [Hn Hs2]. apply NoDup_cons in Hnd2 as [Hn2 Hnd2].
    assert (Hnx : n ≠ x) by (intros ->; apply Hx2; by left).
    step.
    eexists _, _. split; [done|]. split; [|split].
    + apply repr_intro; cbn [m_head m_tail m_size]; [done | | | |].
      * simpl. split; [by heap|]. apply (seg_frame h); [|done].
        intros z Hz. assert (z ≠ n) by (by intros ->). by heap.
      * done.
      * rewrite Htl. simpl. by rewrite ?last_cons_cons.
      * apply (int_pred' _ _ _ Hsz Hint). lengths.
    + by heap.
    + intros z _ Hzn. simpl in Hzn. assert (z ≠ n) by congruence. by heap.
  - apply seg_app in Hs1 as [Hs1 [Hp _]]. cbn [hd_or] in Hs1, Hp.
    apply NoDup_app in Hnd1 as (Hnd1 & Hd1 & _).
    assert (Hpx : p ≠ x) by (intros ->; apply Hx1, elem_of_app; right; by left).
    step.
    eexists _, _. split; [done|]. split; [|split].
    + rewrite app_nil_r in Hnd' |- *. apply repr_intro; cbn [m_head m_tail m_size]; [done | | | |].
      * apply seg_app. split.
        -- apply (seg_frame h); [|done]. intros z Hz.
           assert (z ≠ p).
           { intros ->. apply (Hd1 p Hz). by left. }
           by heap.
        -- simpl. split; [by heap | done].
      * rewrite Hhd. by destruct l1.
      * by rewrite last_snoc.
      * apply (int_pred' _ _ _ Hsz Hint). lengths.
    + by heap.
    + intros z Hzp _. rewrite last_snoc in Hzp.
      assert (z ≠ p) by congruence. by heap.
  - apply seg_app in Hs1 as [Hs1 [Hp _]]. cbn [hd_or] in Hs1, Hp.
    apply NoDup_app in Hnd1 as (Hnd1 & Hd1 & _).
    destruct Hs2 as [Hn Hs2]. apply NoDup_cons in Hnd2 as [Hn2 Hnd2].
    assert (Hpx : p ≠ x) by (intros ->; apply Hx1, elem_of_app; right; by left).
    assert (Hnx : n ≠ x) by (intros ->; apply Hx2; by left).
    assert (Hpn : p ≠ n).
    { intros ->. apply (Hdis n); [apply elem_of_app; right; by left | by left]. }
    step. step.
    eexists _, _. split; [done|]. split; [|split].
    + apply repr_intro; cbn [m_head m_tail m_size]; [done | | | |].
      * rewrite <- app_assoc. apply seg_app. split.
        -- apply (seg_frame h); [|done]. intros z Hz.
           assert (z ≠ p).
           { intros ->. apply (Hd1 p Hz). by left. }
           assert (z ≠ n).
           { intros ->. apply (Hdis n); [apply elem_of_app; by left | by left]. }
           by heap.
        -- simpl. split_and!; [by heap | by heap |].
           apply (seg_frame h); [|done]. intros z Hz.
           assert (z ≠ n) by (by intros ->).
           assert (z ≠ p).
           { intros ->. apply (Hdis p); [apply elem_of_app; right; by left | by right]. }
           by heap.
      * rewrite Hhd. by destruct l1.
      * rewrite Htl. rewrite <- !app_assoc. simpl.
        by rewrite ?(last_app_cons l1), ?last_cons_cons.
      * apply (int_pred' _ _ _ Hsz Hint). lengths.
    + by heap.
    + intros z Hzp Hzn. rewrite last_snoc in Hzp. simpl in Hzn.
      assert (z ≠ p) by congruence. assert (z ≠ n) by congruence. by heap.
Qed.

Lemma repr_frame h h' L l :
  (∀ z, z ∈ l → h' !! z = h !! z) → repr h L l → repr h' L l.
Proof.
  intros Hf (Hnd & Hs & Hrest). split; [done|]. split; [|done].
  by apply (seg_frame h).
Qed.

Lemma last_elem_of (l : list nat) z : last l = Some z → z ∈ l.
Proof.
  destruct l as [|x l _] using rev_ind; [done|].
  rewrite last_snoc. intros [= ->]. apply elem_of_app. right. by left.
Qed.

Lemma head_elem_of (l : list nat) z : list.head l = Some z → z ∈ l.
Proof. destruct l; [done|]. intros [= ->]. by left. Qed.

(** *** [reverse] *)

Lemma reverse_loop_spec l fuel h p :
  NoDup l → seg h p l None → length l ≤ fuel →
  ∃ h', reverse_loop fuel h (hd_or l None) = Some h'
    ∧ seg h' None (list.reverse l) p
    ∧ (∀ z, z ∉ l → h' !! z = h !! z).
Proof.
  revert fuel h p. induction l as [|x l IH]; intros fuel h p Hnd Hs Hfuel.
  - exists h. by destruct fuel.
  - destruct fuel as [|fuel]; [simpl in Hfuel; lia|].
    apply NoDup_cons in Hnd as [Hx Hnd]. destruct Hs as [Hc Hs].
    cbn [hd_or reverse_loop]. do 4 step. rewrite insert_insert_eq.
    destruct (IH fuel (<[x := mkElement p (hd_or l None)]> h) (Some x))
      as (h' & Hloop & Hs' & Hf'); [done | | simpl in Hfuel; lia |].
    { apply (seg_frame h); [|done]. intros z Hz.
      assert (z ≠ x) by (by intros ->). by heap. }
    exists h'. split; [done|]. split.
    + rewrite reverse_cons. apply seg_app. split; [done|].
      simpl. split; [|done]. rewrite Hf' by done. heap.
      by rewrite last_or_None, last_reverse_head, hd_or_None.
    + intros z Hz. apply not_elem_of_cons in Hz as [Hzx Hz].
      rewrite Hf' by done. by heap.
Qed.

Lemma reverse_repr h L l fuel :
  repr h L l → length l ≤ fuel →
  ∃ h' L', reverse fuel h L = Some (h', L')
    ∧ repr h' L' (list.reverse l)
    ∧ (∀ z, z ∉ l → h' !! z = h !! z).
Proof.
  intros (Hnd & Hs & Hhd & Htl & Hsz & Hint) Hfuel.
  destruct (reverse_loop_spec l fuel h None Hnd Hs Hfuel) as (h' & Hloop & Hs' & Hf).
  unfold reverse. rewrite Hhd, <- hd_or_None, Hloop, bind_Some.
  eexists _, _. split; [done|]. split; [|done].
  split_and!; cbn [m_head m_tail m_size].
  - by rewrite reverse_Permutation.
  - done.
  - by rewrite Htl, head_reverse_last.
  - by rewrite hd_or_None, last_reverse_head.
  - by rewrite length_reverse.
  - done.
Qed.

(** *** [sort] *)

Lemma seg_set_last h p l t n e :
  NoDup (l ++ [t]) → h !! t = Some e →
  (∃ n', seg h p (l ++ [t]) n') →
  seg (<[t := {| m_next := n; m_prev := m_prev e |}]> h) p (l ++ [t]) n.
Proof.
  intros Hnd He [n' Hs]. apply seg_app in Hs as [Hs1 [Ht _]].
  apply NoDup_app in Hnd as (_ & Hdis & _).
  apply seg_app. split.
  - apply (seg_frame h); [|done]. intros z Hz.
    assert (z ≠ t) by (intros ->; apply (Hdis t Hz); by left). by heap.
  - simpl. split; [|done]. heap. rewrite He in Ht. by injection Ht as ->.
Qed.

Lemma sort_loop_spec order done h n :
  NoDup (done ++ order) → seg h None done n →
  (∀ x, x ∈ order → is_Some (h !! x)) →
  ∃ h' n', sort_loop h (last_or done None) order
           = Some (h', last_or order (last_or done None))
    ∧ seg h' None (done ++ order) n'
    ∧ (∀ z, z ∉ done ++ order → h' !! z = h !! z).
Proof.
  revert done h n. induction order as [|p rest IH]; intros done h n Hnd Hs Hal.
  - exists h, n. rewrite app_nil_r. by split_and!.
  - destruct (Hal p) as [e He]; [by left|].
    assert (Hnd' : NoDup ((done ++ [p]) ++ rest)) by (by rewrite <- app_assoc).
    pose proof Hnd as Hnd0.
    apply NoDup_app in Hnd as (Hndd & Hdis & Hndr).
    assert (Hpd : p ∉ done).
    { intros Hin. apply (Hdis p Hin). by left. }
    cbn [sort_loop]. step.
    assert (Hstep : ∃ h2,
              match last_or done None with
              | Some q => set_next (<[p := mkElement (m_next e) (last_or done None)]> h)
                            q (Some p)
              | None => Some (<[p := mkElement (m_next e) (last_or done None)]> h)
              end = Some h2
              ∧ seg h2 None (done ++ [p]) (m_next e)
              ∧ (∀ z, z ∉ done ++ [p] → h2 !! z = h !! z)
              ∧ (∀ z, is_Some (h !! z) → is_Some (h2 !! z))).
    { destruct done as [|q d _] using rev_ind.
      - rewrite last_or_nil. eexists. split; [done|]. split_and!.
        + simpl. split; [by heap | done].
        + intros z Hz. assert (z ≠ p).
          { intros ->. apply Hz. by left. }
          by heap.
        + intros z Hz. destruct (decide (z = p)) as [->|]; heap; [by eexists | done].
      - rewrite last_or_snoc.
        apply seg_app in Hs as [Hs1 [Hq _]]. cbn [hd_or] in Hs1, Hq.
        assert (Hqp : q ≠ p).
        { intros ->. apply Hpd, elem_of_app. right. by left. }
        apply NoDup_app in Hndd as (_ & Hdq & _).
        step. eexists. split; [done|]. split_and!.
        + rewrite <- app_assoc. apply seg_app. split.
          * apply (seg_frame h); [|done]. intros z Hz.
            assert (z ≠ q) by (intros ->; apply (Hdq q Hz); by left).
            assert (z ≠ p).
            { intros ->. apply Hpd, elem_of_app. by left. }
            by heap.
          * simpl. split_and!; [by heap | by heap | done].
        + intros z Hz.
          assert (z ≠ p).
          { intros ->. apply Hz, elem_of_app. right. by left. }
          assert (z ≠ q).
          { intros ->. apply Hz, elem_of_app. left. apply elem_of_app. right. by left. }
          by heap.
        + intros z Hz. destruct (decide (z = q)) as [->|]; heap; [by eexists|].
          destruct (decide (z = p)) as [->|]; heap; [by eexists | done]. }
    destruct Hstep as (h2 & -> & Hs2 & Hf2 & Hal2). rewrite bind_Some.
    destruct (IH (done ++ [p]) h2 (m_next e) Hnd' Hs2) as (h' & n' & Hl & Hs' & Hf').
    { intros x Hx. apply Hal2, Hal. by right. }
    rewrite last_or_snoc in Hl. exists h', n'. split_and!.
    + by rewrite last_or_cons.
    + by rewrite <- app_assoc in Hs'.
    + intros z Hz. rewrite Hf', Hf2; [done | |].
      * intros Hin. apply Hz. rewrite elem_of_app in Hin |- *.
        destruct Hin as [?| ->%list_elem_of_singleton]; [by left|]. right. by left.
      * by rewrite <- app_assoc.
Qed.

Lemma sort_repr h L l newOrder :
  repr h L l → newOrder ≡ₚ l →
  ∃ h' L', sort newOrder h L = Some (h', L')
    ∧ repr h' L' newOrder
    ∧ (∀ z, z ∉ l → h' !! z = h !! z).
Proof.
  intros (Hnd & Hs & Hhd & Htl & Hsz & Hint) Hperm.
  destruct newOrder as [|first rest _] using rev_ind.
  - symmetry in Hperm. apply Permutation_nil_r in Hperm as ->.
    exists h, L. by split_and!.
  - assert (Hnd' : NoDup (rest ++ [first])) by (by rewrite Hperm).
    destruct (sort_loop_spec (rest ++ [first]) [] h None)
      as (h1 & n1 & Hl & Hs1 & Hf1); [done | done | |].
    { intros x Hx. apply (seg_allocated _ _ _ _ _ Hs). by rewrite <- Hperm. }
    rewrite last_or_nil, last_or_snoc in Hl. simpl in Hs1.
    unfold sort. destruct (rest ++ [first]) as [|x0 l0] eqn:Hl0;
      [by destruct rest|].
    rewrite Hl, ?bind_Some; cbv beta iota; rewrite ?bind_Some.
    rewrite <- Hl0 in *.
    destruct (seg_allocated _ _ _ _ first Hs1) as [e He];
      [apply elem_of_app; right; by left|].
    step. eexists _, _. split; [done|]. split.
    + split_and!; cbn [m_head m_tail m_size].
      * done.
      * apply seg_set_last; [done | done | by exists n1].
      * by rewrite Hl0.
      * by rewrite last_snoc.
      * by rewrite Hsz, Hperm.
      * done.
    + intros z Hz. assert (z ≠ first).
      { intros ->. apply Hz. rewrite <- Hperm. apply elem_of_app. right. by left. }
      heap. apply Hf1. simpl. by rewrite Hperm.
Qed.

(** *** [consistencyCheck] *)

Lemma check_loop_complete h L l1 l2 fuel :
  seg h None (l1 ++ l2) None →
  m_head L = list.head (l1 ++ l2) → m_tail L = last (l1 ++ l2) →
  length l2 ≤ fuel →
  check_loop fuel h L (hd_or l2 None) = Some true.
Proof.
  revert l1 fuel. induction l2 as [|x l2 IH]; intros l1 fuel Hs Hhd Htl Hfuel.
  - by destruct fuel.
  - destruct fuel as [|fuel]; [simpl in Hfuel; lia|].
    pose proof Hs as Hs0.
    apply seg_app in Hs as [Hs1 [Hx Hs2]].
    cbn [hd_or check_loop]. do 2 step.
    match goal with |- ?m ≫= _ = _ => assert (Hok1 : m = Some true) end.
    { destruct l1 as [|q l1 _] using rev_ind.
      - rewrite last_or_nil, Hhd. simpl. by rewrite bool_decide_eq_true_2.
      - rewrite last_or_snoc. apply seg_app in Hs1 as [_ [Hq _]].
        cbn [hd_or] in Hq. step. by rewrite bool_decide_eq_true_2. }
    rewrite Hok1, bind_Some. clear Hok1. cbv beta iota.
    match goal with |- ?m ≫= _ = _ => assert (Hok2 : m = Some true) end.
    { destruct l2 as [|q l2].
      - cbn [hd_or]. rewrite Htl, last_snoc. by rewrite bool_decide_eq_true_2.
      - cbn [hd_or]. destruct Hs2 as [Hq _]. step.
        by rewrite bool_decide_eq_true_2. }
    rewrite Hok2, bind_Some. clear Hok2. cbv beta iota.
    apply (IH (l1 ++ [x])); rewrite <- ?app_assoc; try done.
    simpl in Hfuel. lia.
Qed.

Lemma check_loop_sound fuel h L x e :
  check_loop fuel h L (Some x) = Some true → h !! x = Some e →
  ∃ l, seg h (m_prev e) (x :: l) None
       ∧ last (x :: l) = m_tail L ∧ length (x :: l) ≤ fuel.
Proof.
  revert x e. induction fuel as [|fuel IH]; intros x e Hc He; [done|].
  cbn [check_loop] in Hc. rewrite (get_prev_eq _ _ _ He), bind_Some in Hc.
  destruct (match m_prev e with
            | Some q => _
            | None => _
            end) as [[]|]; try done.
  rewrite bind_Some in Hc. rewrite (get_next_eq _ _ _ He), bind_Some in Hc.
  destruct e as [nx pv]. cbn [m_next m_prev] in *.
  destruct nx as [q|].
  - destruct (get_prev h q) as [qp|] eqn:Hq; [|done]. rewrite bind_Some in Hc.
    case_bool_decide as Hqp; [|done]. subst qp.
    unfold get_prev in Hq. destruct (h !! q) as [eq|] eqn:Heq; [|done].
    injection Hq as Hq.
    destruct (IH q eq Hc Heq) as (l & Hs & Hl & Hlen).
    exists (q :: l). rewrite Hq in Hs. split_and!.
    + simpl. split; [done|]. apply Hs.
    + by rewrite last_cons_cons.
    + simpl in *. lia.
  - rewrite bind_Some in Hc. case_bool_decide as Ht; [|done].
    exists []. split_and!; simpl; [done | done | lia].
Qed.

(** *** Moving an element *)

Lemma move_repr h this L l1 x l2 k :
  repr h this (l1 ++ x :: l2) → repr h L k →
  (∀ z, z ∈ k → z ∉ l1 ++ x :: l2) → (m_size L < INT_MAX)%Z →
  ∃ h' this' L', move x h this L = Some (h', this', L')
    ∧ repr h' this' (l1 ++ l2) ∧ repr h' L' (k ++ [x]).
Proof.
  intros Hthis HL Hdis Hroom.
  assert (Hnd : NoDup (l1 ++ x :: l2)) by apply Hthis.
  destruct (del_repr _ _ _ _ _ Hthis) as (h1 & this' & Hdel & Hthis' & Hx & Hf1).
  assert (HL1 : repr h1 L k).
  { apply (repr_frame h); [|done]. intros z Hz. apply Hf1.
    - intros Hl%eq_sym%last_elem_of. apply (Hdis z Hz), elem_of_app. by left.
    - intros Hl%eq_sym%head_elem_of. apply (Hdis z Hz), elem_of_app.
      right. by right. }
  assert (Hxk : x ∉ k).
  { intros Hin. apply (Hdis x Hin), elem_of_app. right. by left. }
  assert (Hxal : is_Some (h1 !! x)).
  { rewrite Hx. destruct Hthis as (_ & Hs & _).
    apply (seg_allocated _ _ _ _ _ Hs), elem_of_app. right. by left. }
  destruct (pushBack_repr _ _ _ _ HL1 Hxk Hxal Hroom) as (h2 & L' & Hpush & HL' & Hf2).
  unfold move. rewrite Hdel, bind_Some. cbv beta iota.
  rewrite Hpush, bind_Some. cbv beta iota.
  eexists _, _, _. split; [done|]. split; [|done].
  apply (repr_frame h1); [|done]. intros z Hz. apply Hf2.
  - intros ->. apply NoDup_app in Hnd as (_ & Hd & Hnd2).
    apply NoDup_cons in Hnd2 as [Hx2 _].
    apply elem_of_app in Hz as [Hz|Hz]; [|done]. apply (Hd x Hz). by left.
  - intros Hl%eq_sym%last_elem_of. apply (Hdis z Hl).
    apply elem_of_app in Hz as [Hz|Hz]; apply elem_of_app; [by left|].
    right. by right.
Qed.

Lemma moveAfter_repr h L l1 x l2 m1 y m2 :
  repr h L (l1 ++ x :: l2) → l1 ++ l2 = m1 ++ y :: m2 →
  ∃ h' L', moveAfter x y h L = Some (h', L')
    ∧ repr h' L' (m1 ++ y :: x :: m2).
Proof.
  intros Hrepr Heq.
  assert (Hnd : NoDup (l1 ++ x :: l2)) by apply Hrepr.
  destruct (del_repr _ _ _ _ _ Hrepr) as (h1 & L1 & Hdel & HL1 & Hx & _).
  rewrite Heq in HL1.
  assert (Hxm : x ∉ m1 ++ y :: m2).
  { rewrite <- Heq. apply NoDup_app in Hnd as (_ & Hd & Hnd2).
    apply NoDup_cons in Hnd2 as [Hx2 _].
    intros [Hin|Hin]%elem_of_app; [|done]. apply (Hd x Hin). by left. }
  assert (Hxal : is_Some (h1 !! x)).
  { rewrite Hx. destruct Hrepr as (_ & Hs & _).
    apply (seg_allocated _ _ _ _ _ Hs), elem_of_app. right. by left. }
  assert (Hroom : (m_size L1 < INT_MAX)%Z).
  { destruct Hrepr as (_ & _ & _ & _ & Hsz & Hint).
    destruct HL1 as (_ & _ & _ & _ & Hsz1 & _).
    rewrite Hsz1, <- Heq. rewrite Hsz in Hint. revert Hint.
    rewrite !length_app. simpl. lia. }
  destruct (insertAfter_repr _ _ _ _ _ _ HL1 Hxm Hxal Hroom) as (h2 & L2 & Hins & HL2 & _).
  unfold moveAfter. rewrite Hdel, bind_Some. cbv beta iota.
  eexists _, _. by split.
Qed.

Lemma moveBefore_repr h L l1 x l2 m1 y m2 :
  repr h L (l1 ++ x :: l2) → l1 ++ l2 = m1 ++ y :: m2 →
  ∃ h' L', moveBefore x y h L = Some (h', L')
    ∧ repr h' L' (m1 ++ x :: y :: m2).
Proof.
  intros Hrepr Heq.
  assert (Hnd : NoDup (l1 ++ x :: l2)) by apply Hrepr.
  destruct (del_repr _ _ _ _ _ Hrepr) as (h1 & L1 & Hdel & HL1 & Hx & _).
  rewrite Heq in HL1.
  assert (Hxm : x ∉ m1 ++ y :: m2).
  { rewrite <- Heq. apply NoDup_app in Hnd as (_ & Hd & Hnd2).
    apply NoDup_cons in Hnd2 as [Hx2 _].
    intros [Hin|Hin]%elem_of_app; [|done]. apply (Hd x Hin). by left. }
  assert (Hxal : is_Some (h1 !! x)).
  { rewrite Hx. destruct Hrepr as (_ & Hs & _).
    apply (seg_allocated _ _ _ _ _ Hs), elem_of_app. right. by left. }
  assert (Hroom : (m_size L1 < INT_MAX)%Z).
  { destruct Hrepr as (_ & _ & _ & _ & Hsz & Hint).
    destruct HL1 as (_ & _ & _ & _ & Hsz1 & _).
    rewrite Hsz1, <- Heq. rewrite Hsz in Hint. revert Hint.
    rewrite !length_app. simpl. lia. }
  destruct (insertBefore_repr _ _ _ _ _ _ HL1 Hxm Hxal Hroom) as (h2 & L2 & Hins & HL2 & _).
  unfold moveBefore. rewrite Hdel, bind_Some. cbv beta iota.
  eexists _, _. by split.
Qed.

(** *** What the operations do to the list *)

(** A chain fixes the cells of its elements. *)
Lemma seg_unique h h' p l n x :
  seg h p l n → seg h' p l n → x ∈ l → h' !! x = h !! x.
Proof.
  revert p. induction l as [|y l IH]; intros p; simpl; [by intros _ _ ?%elem_of_nil|].
  intros [Hy Hs] [Hy' Hs'] [->|Hx]%elem_of_cons; [congruence | by eapply IH].
Qed.

Lemma repr_empty h L l :
  repr h L l → size L = Z.of_nat (length l) ∧ (empty L = true ↔ l = []).
Proof.
  intros (_ & _ & _ & _ & Hsz & _). split; [done|]. unfold empty. rewrite Hsz.
  rewrite bool_decide_eq_true. destruct l; simpl; [done|]. split; [lia | done].
Qed.

(** [pushBack(pX)] appends [pX]: the list is the old one followed by
    [pX], which is the new tail; the size grows by one, as long as the
    counter is below [INT_MAX]; no element other than [pX] and the old tail
    is written to. *)
Theorem pushBack_appends (h : heap) (L : GraphListBase) (l : list nat) (pX : nat) :
  repr h L l → pX ∉ l → is_Some (h !! pX) → (size L < INT_MAX)%Z →
  ∃ h' L',
    pushBack pX h L = Some (h', L')
    ∧ repr h' L' (l ++ [pX])
    ∧ tail L' = Some pX
    ∧ size L' = (size L + 1)%Z
    ∧ empty L' = false
    ∧ (∀ z, z ≠ pX → Some z ≠ tail L → h' !! z = h !! z).
Proof.
  intros Hrepr Hx Hal Hroom.
  destruct (pushBack_repr h L l pX Hrepr Hx Hal Hroom) as (h' & L' & Hp & Hr' & Hf).
  exists h', L'. destruct (repr_empty _ _ _ Hr') as [Hsz' Hem'].
  destruct (repr_empty _ _ _ Hrepr) as [Hsz _].
  pose proof Hr' as (_ & _ & _ & Htl' & _). pose proof Hrepr as (_ & _ & _ & Htl & _).
  split_and!; try done.
  - unfold tail. by rewrite Htl', last_snoc.
  - rewrite Hsz', Hsz, length_app. simpl. lia.
  - apply not_true_is_false. intros He%Hem'. by destruct l.
  - intros z Hzx Hzt. apply Hf; [done|]. unfold tail in Hzt. by rewrite <- Htl.
Qed.

(** [insertAfter(pX, pY)] and [insertBefore(pX, pY)] put [pX] next to [pY],
    behind it or in front of it, and keep the order of the others; the size
    grows by one, as long as the counter is below [INT_MAX]. *)
Theorem insert_next_to (h : heap) (L : GraphListBase) (l1 l2 : list nat)
    (pX pY : nat) :
  repr h L (l1 ++ pY :: l2) → pX ∉ l1 ++ pY :: l2 → is_Some (h !! pX) →
  (size L < INT_MAX)%Z →
  (∃ h' L', insertAfter pX pY h L = Some (h', L')
            ∧ repr h' L' (l1 ++ pY :: pX :: l2)
            ∧ size L' = (size L + 1)%Z)
  ∧ (∃ h' L', insertBefore pX pY h L = Some (h', L')
              ∧ repr h' L' (l1 ++ pX :: pY :: l2)
              ∧ size L' = (size L + 1)%Z).
Proof.
  intros Hrepr Hx Hal Hroom. destruct (repr_empty _ _ _ Hrepr) as [Hsz _]. split.
  - destruct (insertAfter_repr h L l1 pY l2 pX Hrepr Hx Hal Hroom) as (h' & L' & Hi & Hr' & _).
    exists h', L'. split_and!; [done | done |].
    destruct (repr_empty _ _ _ Hr') as [-> _]. rewrite Hsz, !length_app. simpl. lia.
  - destruct (insertBefore_repr h L l1 pY l2 pX Hrepr Hx Hal Hroom) as (h' & L' & Hi & Hr' & _).
    exists h', L'. split_and!; [done | done |].
    destruct (repr_empty _ _ _ Hr') as [-> _]. rewrite Hsz, !length_app. simpl. lia.
Qed.

(** [del(pX)] takes [pX] out of the list and keeps the order of the others;
    the size shrinks by one.  The element itself is not written to: its two
    pointers still lead to its former neighbours. *)
Theorem del_removes (h : heap) (L : GraphListBase) (l1 l2 : list nat) (pX : nat) :
  repr h L (l1 ++ pX :: l2) →
  ∃ h' L',
    del pX h L = Some (h', L')
    ∧ repr h' L' (l1 ++ l2)
    ∧ size L' = (size L - 1)%Z
    ∧ h' !! pX = Some {| m_next := list.head l2; m_prev := last l1 |}.
Proof.
  intros Hrepr. destruct (repr_empty _ _ _ Hrepr) as [Hsz _].
  destruct (repr_split _ _ _ _ _ Hrepr) as (_ & Hx & _).
  destruct (del_repr h L l1 pX l2 Hrepr) as (h' & L' & Hd & Hr' & Hx' & _).
  exists h', L'. split_and!; [done | done | |].
  - destruct (repr_empty _ _ _ Hr') as [-> _]. rewrite Hsz, !length_app. simpl. lia.
  - by rewrite Hx', Hx, hd_or_None, last_or_None.
Qed.

(** [reverse()] ends after one round per element and leaves the list in
    the opposite order; doing it twice restores every cell and the list
    record. *)
Theorem reverse_reverses (h : heap) (L : GraphListBase) (l : list nat) (fuel : nat) :
  repr h L l → length l ≤ fuel →
  ∃ h' L',
    reverse fuel h L = Some (h', L')
    ∧ repr h' L' (list.reverse l)
    ∧ (∀ z, z ∉ l → h' !! z = h !! z)
    ∧ reverse fuel h' L' = Some (h, L).
Proof.
  intros Hrepr Hfuel.
  destruct (reverse_repr h L l fuel Hrepr Hfuel) as (h' & L' & Hr & Hrepr' & Hf).
  exists h', L'. split_and!; try done.
  destruct (reverse_repr h' L' (list.reverse l) fuel Hrepr') as (h2 & L2 & Hr2 & Hrepr2 & Hf2);
    [by rewrite length_reverse|].
  rewrite Hr2. f_equal. f_equal.
  - apply map_eq. intros z. destruct (decide (z ∈ l)) as [Hz|Hz].
    + rewrite reverse_involutive in Hrepr2.
      destruct Hrepr as (_ & Hs & _), Hrepr2 as (_ & Hs2 & _).
      by apply (seg_unique h h2 None l None).
    + rewrite Hf2, Hf; [done | done |]. by rewrite elem_of_reverse.
  - unfold reverse in Hr, Hr2.
    destruct (reverse_loop fuel h (m_head L)); [|done].
    destruct (reverse_loop fuel h' (m_head L')); [|done].
    injection Hr as _ <-. injection Hr2 as _ <-. by destruct L.
Qed.

(** [sort(newOrder)], for a sequence that holds the elements of the list
    once each, links them in that order. *)
Theorem sort_relinks (h : heap) (L : GraphListBase) (l newOrder : list nat) :
  repr h L l → newOrder ≡ₚ l →
  ∃ h' L',
    sort newOrder h L = Some (h', L')
    ∧ repr h' L' newOrder
    ∧ size L' = size L
    ∧ (∀ z, z ∉ l → h' !! z = h !! z).
Proof.
  intros Hrepr Hperm.
  destruct (sort_repr h L l newOrder Hrepr Hperm) as (h' & L' & Hs & Hr' & Hf).
  exists h', L'. split_and!; try done.
  destruct (repr_empty _ _ _ Hr') as [-> _].
  destruct (repr_empty _ _ _ Hrepr) as [-> _]. by rewrite Hperm.
Qed.

(** [consistencyCheck()] passes on every list that is linked as it should
    be, and when it passes the elements reached from [m_head] form such a
    list, without repetition, that ends in [m_tail]; [m_size] is not looked
    at. *)
Theorem consistencyCheck_passes_iff (h : heap) (L : GraphListBase) :
  (∀ l fuel, linked h L l → length l ≤ fuel →
             consistencyCheck fuel h L = Some true)
  ∧ (∀ fuel, consistencyCheck fuel h L = Some true →
       ∃ l, linked h L l ∧ length l ≤ fuel)
  ∧ (∀ fuel sz, consistencyCheck fuel h L
                = consistencyCheck fuel h
                    {| m_size := sz; m_head := m_head L; m_tail := m_tail L |}).
Proof.
  split_and!.
  - intros l fuel (Hnd & Hs & Hhd & Htl) Hfuel. unfold consistencyCheck.
    destruct l as [|x l].
    + rewrite Hhd, Htl. simpl. first [done | by rewrite bool_decide_eq_true_2].
    + assert (Hlast : is_Some (last (x :: l))).
      { destruct (last (x :: l)) eqn:E; [by eexists|]. by apply last_None in E. }
      destruct Hlast as [t Ht].
      rewrite bool_decide_eq_true_2 by (rewrite Hhd, Htl, Ht; by split).
      rewrite Hhd. simpl. destruct Hs as [Hx Hs0].
      step. rewrite bool_decide_eq_true_2 by done.
      rewrite Htl, Ht, bind_Some.
      assert (Htc : ∃ e, h !! t = Some e ∧ m_next e = None).
      { assert (Hseg : seg h None (x :: l) None) by (by split).
        apply last_Some in Ht as [l0 Hl0]. rewrite Hl0 in Hseg.
        apply seg_app in Hseg as [_ [Hc _]]. by eexists. }
      destruct Htc as (e & He & Hen). step. rewrite Hen.
      rewrite bool_decide_eq_true_2 by done.
      apply (check_loop_complete h L [] (x :: l)); simpl; done.
  - intros fuel Hc. unfold consistencyCheck in Hc.
    case_bool_decide as Hiff; [|done].
    destruct (m_head L) as [hd|] eqn:Hhd.
    + destruct (get_prev h hd) as [hp|] eqn:Hp; [|done]. rewrite bind_Some in Hc.
      case_bool_decide as Hhp; [|done]. subst hp.
      destruct (m_tail L) as [t|] eqn:Ht; [|done]. rewrite bind_Some in Hc.
      destruct (get_next h t) as [tn|]; [|done]. rewrite bind_Some in Hc.
      case_bool_decide; [|done].
      unfold get_prev in Hp. destruct (h !! hd) as [e|] eqn:He; [|done].
      injection Hp as Hp.
      destruct (check_loop_sound fuel h L hd e Hc He) as (l & Hs & Hl & Hlen).
      rewrite Hp in Hs. exists (hd :: l). split; [|done].
      split_and!; try done. by eapply seg_NoDup.
    + assert (m_tail L = None) as Ht by (by apply Hiff).
      exists []. split; [|simpl; lia].
      split_and!; try done. constructor.
  - intros fuel sz. unfold consistencyCheck. cbn [m_head m_tail].
    assert (Hloop : ∀ fuel pX,
              check_loop fuel h L pX
              = check_loop fuel h
                  {| m_size := sz; m_head := m_head L; m_tail := m_tail L |} pX).
    { clear fuel. intros fuel. induction fuel as [|fuel IH]; intros pX; [done|].
      destruct pX as [x|]; [|done]. cbn [check_loop m_head m_tail].
      destruct (get_prev h x) as [pv|]; [|done]. rewrite !bind_Some.
      destruct (match pv with Some q => _ | None => _ end) as [[]|]; try done.
      rewrite !bind_Some. destruct (get_next h x) as [nx|]; [|done].
      rewrite !bind_Some.
      destruct (match nx with Some q => _ | None => _ end) as [[]|]; try done.
      rewrite !bind_Some. apply IH. }
    case_bool_decide; [|done]. destruct (m_head L) as [hd|]; [|done].
    destruct (get_prev h hd) as [hp|]; [|done]. rewrite !bind_Some.
    case_bool_decide; [|done]. destruct (m_tail L) as [t|]; [|done].
    rewrite !bind_Some. destruct (get_next h t) as [tn|]; [|done].
    rewrite !bind_Some. case_bool_decide; [|done]. apply Hloop.
Qed.

(** [move(pX, L)] takes [pX] out of this list and appends it to [L], whose
    counter is below [INT_MAX]; both lists are linked as they should be
    afterwards. *)
Theorem move_between_lists (h : heap) (this L : GraphListBase)
    (l1 l2 k : list nat) (pX : nat) :
  repr h this (l1 ++ pX :: l2) → repr h L k →
  (∀ z, z ∈ k → z ∉ l1 ++ pX :: l2) → (size L < INT_MAX)%Z →
  ∃ h' this' L',
    move pX h this L = Some (h', this', L')
    ∧ repr h' this' (l1 ++ l2) ∧ repr h' L' (k ++ [pX])
    ∧ (size this' + size L' = size this + size L)%Z.
Proof.
  intros Hthis HL Hdis Hroom.
  destruct (move_repr h this L l1 pX l2 k Hthis HL Hdis Hroom)
    as (h' & this' & L' & Hm & Hr1 & Hr2).
  exists h', this', L'. split_and!; try done.
  destruct (repr_empty _ _ _ Hr1) as [-> _], (repr_empty _ _ _ Hr2) as [-> _].
  destruct (repr_empty _ _ _ Hthis) as [-> _], (repr_empty _ _ _ HL) as [-> _].
  rewrite !length_app. simpl. lia.
Qed.

(** [moveAfter(pX, pY)] and [moveBefore(pX, pY)] take [pX] from its place
    and put it behind or in front of another element [pY] of the list; the
    size is what it was. *)
Theorem move_within_list (h : heap) (L : GraphListBase)
    (l1 l2 m1 m2 : list nat) (pX pY : nat) :
  repr h L (l1 ++ pX :: l2) → l1 ++ l2 = m1 ++ pY :: m2 →
  (∃ h' L', moveAfter pX pY h L = Some (h', L')
            ∧ repr h' L' (m1 ++ pY :: pX :: m2) ∧ size L' = size L)
  ∧ (∃ h' L', moveBefore pX pY h L = Some (h', L')
              ∧ repr h' L' (m1 ++ pX :: pY :: m2) ∧ size L' = size L).
Proof.
  intros Hrepr Heq. destruct (repr_empty _ _ _ Hrepr) as [Hsz _].
  assert (Hlen : length (l1 ++ pX :: l2) = S (length (m1 ++ pY :: m2))).
  { rewrite <- Heq, !length_app. simpl. lia. }
  split.
  - destruct (moveAfter_repr h L l1 pX l2 m1 pY m2 Hrepr Heq) as (h' & L' & Hm & Hr').
    exists h', L'. split_and!; [done | done |].
    destruct (repr_empty _ _ _ Hr') as [-> _]. rewrite Hsz, Hlen, !length_app.
    simpl. lia.
  - destruct (moveBefore_repr h L l1 pX l2 m1 pY m2 Hrepr Heq) as (h' & L' & Hm & Hr').
    exists h', L'. split_and!; [done | done |].
    destruct (repr_empty _ _ _ Hr') as [-> _]. rewrite Hsz, Hlen, !length_app.
    simpl. lia.
Qed.

(** *** [swap] *)

Lemma seg_app_cons h p l1 x l2 n :
  seg h p (l1 ++ x :: l2) n
  ↔ seg h p l1 (Some x)
    ∧ h !! x = Some {| m_next := hd_or l2 n; m_prev := last_or l1 p |}
    ∧ seg h (Some x) l2 n.
Proof. rewrite seg_app. simpl. tauto. Qed.

Lemma hd_or_app_cons l x l' d : hd_or (l ++ x :: l') d = hd_or l (Some x).
Proof. by destruct l. Qed.

Lemma last_cons_app_cons (a : nat) l x l' :
  last (a :: l ++ x :: l') = last (x :: l').
Proof. by rewrite app_comm_cons, last_app_cons. Qed.

Lemma head_app_cons_same (l : list nat) x r r' :
  list.head (l ++ x :: r) = list.head (l ++ x :: r').
Proof. by destruct l. Qed.

Lemma swap_Permutation (l1 l2 l3 : list nat) x y :
  l1 ++ y :: l2 ++ x :: l3 ≡ₚ l1 ++ x :: l2 ++ y :: l3.
Proof.
  apply Permutation_app_head.
  rewrite !(Permutation_middle l2), !(Permutation_app_comm l2).
  simpl. apply perm_swap.
Qed.

(** Everything a repetition-free list says about its named elements. *)
Ltac nodup_facts H :=
  repeat first
    [ rewrite <- app_assoc in H
    | progress cbn [app] in H
    | rewrite NoDup_app in H
    | rewrite NoDup_cons in H
    | rewrite not_elem_of_app in H
    | rewrite not_elem_of_cons in H
    | setoid_rewrite not_elem_of_app in H
    | setoid_rewrite not_elem_of_cons in H ];
  destruct_and?.

(** The cells and the sub-chains of a chain with named elements. *)
Ltac seg_facts H :=
  repeat first
    [ rewrite <- app_assoc in H
    | progress cbn [app seg hd_or] in H
    | rewrite seg_app_cons in H
    | rewrite hd_or_app_cons in H
    | rewrite last_or_snoc in H
    | rewrite last_or_nil in H ];
  destruct_and?.

Ltac ne := first [ congruence | by intros -> | by intros <- ].

Ltac lookups :=
  repeat first
    [ rewrite lookup_insert_eq
    | rewrite lookup_insert_ne by ne ].

Ltac known_cell := lookups; first [reflexivity | eassumption].

Ltac run :=
  repeat first
    [ erewrite set_next_eq by known_cell
    | erewrite set_prev_eq by known_cell
    | erewrite get_next_eq by known_cell
    | erewrite get_prev_eq by known_cell
    | rewrite bind_Some
    | rewrite decide_True by done
    | rewrite decide_False by ne
    | progress cbv beta iota
    | progress cbn [m_next m_prev m_head m_tail m_size] ].

(** An untouched sub-chain. *)
Ltac unchanged h :=
  apply (seg_frame h); [|eassumption];
  let z := fresh "z" in let Hz := fresh "Hz" in
  intros z Hz;
  repeat match goal with
         | H : ∀ x, x ∈ ?l → _, Hz : z ∈ ?l |- _ => pose proof (H z Hz); clear H
         end;
  destruct_and?; by lookups.

Ltac last_norm :=
  repeat first
    [ rewrite <- app_assoc
    | progress cbn [app]
    | rewrite last_app_cons
    | rewrite last_cons_cons
    | rewrite last_cons_app_cons ].

Ltac swap_case h Hnd Hnd' Hs Hhd Htl Hsz Hint :=
  nodup_facts Hnd; seg_facts Hs;
  unfold swap, relink; run;
  eexists _, _; split; [reflexivity|];
  apply repr_intro; cbn [m_head m_tail m_size];
  [ exact Hnd'
  | repeat first
      [ rewrite <- app_assoc
      | progress cbn [app seg hd_or]
      | rewrite seg_app_cons
      | rewrite hd_or_app_cons
      | rewrite last_or_snoc
      | rewrite last_or_nil ];
    split_and?; first [ done | by lookups | unchanged h ]
  | first [ done
          | rewrite Hhd; repeat first [rewrite <- app_assoc | progress cbn [app]];
            first [done | apply head_app_cons_same] ]
  | first [ done | rewrite ?Htl; last_norm; done ]
  | exact (conj Hsz Hint) ].

(** [swap(pX, pY)] exchanges the places of two elements of the list, in
    whichever order they are named and whether or not they are neighbours,
    and keeps the places of the others and the size. *)
Theorem swap_exchanges (h : heap) (L : GraphListBase) (l1 l2 l3 : list nat)
    (pX pY : nat) :
  repr h L (l1 ++ pX :: l2 ++ pY :: l3) →
  (∃ h' L', swap pX pY h L = Some (h', L')
            ∧ repr h' L' (l1 ++ pY :: l2 ++ pX :: l3) ∧ size L' = size L)
  ∧ (∃ h' L', swap pY pX h L = Some (h', L')
              ∧ repr h' L' (l1 ++ pY :: l2 ++ pX :: l3) ∧ size L' = size L).
Proof.
  intros Hrepr.
  assert (Hsize : ∀ h' L', repr h' L' (l1 ++ pY :: l2 ++ pX :: l3) →
                           size L' = size L).
  { intros h' L' Hr'. destruct (repr_empty _ _ _ Hr') as [-> _].
    destruct (repr_empty _ _ _ Hrepr) as [-> _].
    by rewrite (Permutation_length (swap_Permutation l1 l2 l3 pX pY)). }
  enough ((∃ h' L', swap pX pY h L = Some (h', L')
                    ∧ repr h' L' (l1 ++ pY :: l2 ++ pX :: l3))
          ∧ (∃ h' L', swap pY pX h L = Some (h', L')
                      ∧ repr h' L' (l1 ++ pY :: l2 ++ pX :: l3)))
    as [(h1 & L1 & ? & ?) (h2 & L2 & ? & ?)].
  { split; [exists h1, L1 | exists h2, L2]; split_and!; eauto. }
  clear Hsize. destruct Hrepr as (Hnd & Hs & Hhd & Htl & Hsz & Hint).
  assert (Hnd' : NoDup (l1 ++ pY :: l2 ++ pX :: l3))
    by (by rewrite swap_Permutation).
  rewrite <- (Permutation_length (swap_Permutation l1 l2 l3 pX pY)) in Hsz.
  destruct l1 as [|p l1 _] using rev_ind; destruct l3 as [|n l3];
    (destruct l2 as [|a l2]; [|destruct l2 as [|b l2 _] using rev_ind]);
    (split; [ pose proof Hnd as Hnd0; pose proof Hs as Hs0;
              swap_case h Hnd0 Hnd' Hs0 Hhd Htl Hsz Hint
            | swap_case h Hnd Hnd' Hs Hhd Htl Hsz Hint ]).
Qed.

(** Swapping an element with itself changes neither a cell nor the list
    record. *)
Theorem swap_with_itself (h : heap) (L : GraphListBase) (l1 l2 : list nat)
    (pX : nat) :
  repr h L (l1 ++ pX :: l2) → swap pX pX h L = Some (h, L).
Proof.
  intros (Hnd & Hs & Hhd & Htl & Hsz & Hint).
  assert (Hid : ∀ (k : nat) (e : GraphElement) (h' : heap),
            h' !! k = Some e → <[k := e]> h' = h').
  { intros k e h' Hk. by apply insert_id. }
  destruct L as [sz hd tl]. cbn [m_head m_tail m_size] in *.
  destruct l1 as [|p l1 _] using rev_ind; destruct l2 as [|n l2];
    nodup_facts Hnd; seg_facts Hs;
    unfold swap, relink; run;
    repeat (rewrite Hid by known_cell);
    repeat f_equal; revert Hhd Htl;
    repeat first [rewrite <- app_assoc | progress cbn [app]];
    rewrite ?last_app_cons, ?last_cons_cons; try done;
    try (by destruct l1).
Qed.

(** [move(pX, L, pY, dir)] takes [pX] out of this list and puts it into
    [L], whose counter is below [INT_MAX], next to [pY], behind it or in
    front of it. *)
Theorem move_next_to (h : heap) (this L : GraphListBase)
    (l1 l2 k1 k2 : list nat) (pX pY : nat) (dir : Direction) :
  repr h this (l1 ++ pX :: l2) → repr h L (k1 ++ pY :: k2) →
  (∀ z, z ∈ k1 ++ pY :: k2 → z ∉ l1 ++ pX :: l2) → (size L < INT_MAX)%Z →
  ∃ h' this' L',
    move_to pX pY dir h this L = Some (h', this', L')
    ∧ repr h' this' (l1 ++ l2)
    ∧ repr h' L' (match dir with
                  | after => k1 ++ pY :: pX :: k2
                  | before => k1 ++ pX :: pY :: k2
                  end).
Proof.
  intros Hthis HL Hdis Hroom.
  assert (Hnd : NoDup (l1 ++ pX :: l2)) by apply Hthis.
  destruct (del_repr _ _ _ _ _ Hthis) as (h1 & this' & Hdel & Hthis' & Hx & Hf1).
  assert (HL1 : repr h1 L (k1 ++ pY :: k2)).
  { apply (repr_frame h); [|done]. intros z Hz. apply Hf1.
    - intros Hl%eq_sym%last_elem_of. apply (Hdis z Hz), elem_of_app. by left.
    - intros Hl%eq_sym%head_elem_of. apply (Hdis z Hz), elem_of_app.
      right. by right. }
  assert (Hxk : pX ∉ k1 ++ pY :: k2).
  { intros Hin. apply (Hdis pX Hin), elem_of_app. right. by left. }
  assert (Hxal : is_Some (h1 !! pX)).
  { rewrite Hx. destruct Hthis as (_ & Hs & _).
    apply (seg_allocated _ _ _ _ _ Hs), elem_of_app. right. by left. }
  assert (Hrest : ∀ z, z ∈ l1 ++ l2 →
            z ≠ pX ∧ z ≠ pY ∧ Some z ≠ list.head k2 ∧ Some z ≠ last k1).
  { intros z Hz.
    assert (Hz' : z ∈ l1 ++ pX :: l2).
    { apply elem_of_app in Hz as [?|?]; apply elem_of_app; [by left|].
      right. by right. }
    split_and!.
    - intros ->. apply NoDup_app in Hnd as (_ & Hd & Hnd2).
      apply NoDup_cons in Hnd2 as [Hx2 _].
      apply elem_of_app in Hz as [Hz|Hz]; [|done]. apply (Hd pX Hz). by left.
    - intros ->. apply (Hdis pY); [|done]. apply elem_of_app. right. by left.
    - intros Hl%eq_sym%head_elem_of. apply (Hdis z); [|done].
      apply elem_of_app. right. by right.
    - intros Hl%eq_sym%last_elem_of. apply (Hdis z); [|done].
      apply elem_of_app. by left. }
  unfold move_to. rewrite Hdel, bind_Some. cbv beta iota.
  destruct dir.
  - destruct (insertBefore_repr _ _ _ _ _ _ HL1 Hxk Hxal Hroom) as (h2 & L' & Hi & HL' & Hf2).
    rewrite Hi, bind_Some. cbv beta iota.
    eexists _, _, _. split; [done|]. split; [|done].
    apply (repr_frame h1); [|done]. intros z Hz.
    destruct (Hrest z Hz) as (? & ? & ? & ?). by apply Hf2.
  - destruct (insertAfter_repr _ _ _ _ _ _ HL1 Hxk Hxal Hroom) as (h2 & L' & Hi & HL' & Hf2).
    rewrite Hi, bind_Some. cbv beta iota.
    eexists _, _, _. split; [done|]. split; [|done].
    apply (repr_frame h1); [|done]. intros z Hz.
    destruct (Hrest z Hz) as (? & ? & ? & ?). by apply Hf2.
Qed.

End GraphListBase.

(** Elements 1 to 5; the first list holds 1, 2, 3 in this order, the second
    one 4; element 5 is in no list. *)
Module GraphListExample.
Import GraphListBase.

Definition h0 : heap :=
  {[ 1 := mkElement (Some 2) None; 2 := mkElement (Some 3) (Some 1);
     3 := mkElement None (Some 2); 4 := mkElement None None;
     5 := mkElement (Some 1) (Some 1) ]}.

Definition L0 : GraphListBase := {| m_size := 3; m_head := Some 1; m_tail := Some 3 |}.
Definition K0 : GraphListBase := {| m_size := 1; m_head := Some 4; m_tail := Some 4 |}.

Lemma repr_L0 : repr h0 L0 [1; 2; 3].
Proof.
  apply repr_intro; [| | reflexivity | reflexivity | by split].
  - apply (bool_decide_unpack _). vm_compute. exact I.
  - simpl. split_and!; reflexivity || exact I.
Qed.

Lemma repr_K0 : repr h0 K0 [4].
Proof.
  apply repr_intro; [| | reflexivity | reflexivity | by split].
  - apply NoDup_singleton.
  - simpl. split_and!; reflexivity || exact I.
Qed.

Lemma room_L0 : (size L0 < INT_MAX)%Z.
Proof. reflexivity. Qed.

Lemma room_K0 : (size K0 < INT_MAX)%Z.
Proof. reflexivity. Qed.

Lemma not_in_L0 : 5 ∉ [1; 2; 3].
Proof. apply (bool_decide_unpack _). vm_compute. exact I. Qed.

Lemma allocated_5 : is_Some (h0 !! 5).
Proof. by eexists. Qed.

Example pushBack_run :
  (fun s => (map_to_list s.1, s.2)) <$> pushBack 5 h0 L0
  = Some ([(4, mkElement None None); (2, mkElement (Some 3) (Some 1));
           (5, mkElement None (Some 3)); (3, mkElement (Some 5) (Some 2));
           (1, mkElement (Some 2) None)],
          {| m_size := 4; m_head := Some 1; m_tail := Some 5 |}).
Proof. vm_compute. reflexivity. Qed.

(** At [INT_MAX] the counter of [pushBack] wraps around. *)
Example pushBack_at_INT_MAX :
  (fun s => m_size s.2)
    <$> pushBack 5 h0 {| m_size := INT_MAX; m_head := Some 1; m_tail := Some 3 |}
  = Some INT_MIN.
Proof. vm_compute. reflexivity. Qed.

Lemma pushBack_appends_witness :
  repr h0 L0 [1; 2; 3] ∧ (5 ∉ [1; 2; 3]) ∧ is_Some (h0 !! 5)
  ∧ (size L0 < INT_MAX)%Z
  ∧ ∃ h' L', pushBack 5 h0 L0 = Some (h', L') ∧ repr h' L' [1; 2; 3; 5]
             ∧ size L' = 4%Z.
Proof.
  split; [exact repr_L0|]. split; [exact not_in_L0|]. split; [exact allocated_5|].
  split; [reflexivity|].
  destruct (pushBack_appends h0 L0 [1; 2; 3] 5 repr_L0 not_in_L0 allocated_5
              room_L0)
    as (h' & L' & Hp & Hr & _ & Hsz & _).
  exists h', L'. split; [exact Hp|]. split; [exact Hr | exact Hsz].
Defined.

Lemma insert_next_to_witness :
  repr h0 L0 ([1] ++ 2 :: [3]) ∧ (5 ∉ [1] ++ 2 :: [3]) ∧ is_Some (h0 !! 5)
  ∧ (size L0 < INT_MAX)%Z
  ∧ (∃ h' L', insertAfter 5 2 h0 L0 = Some (h', L') ∧ repr h' L' [1; 2; 5; 3])
  ∧ (∃ h' L', insertBefore 5 2 h0 L0 = Some (h', L') ∧ repr h' L' [1; 5; 2; 3]).
Proof.
  split; [exact repr_L0|]. split; [exact not_in_L0|]. split; [exact allocated_5|].
  split; [reflexivity|].
  destruct (insert_next_to h0 L0 [1] [3] 5 2 repr_L0 not_in_L0 allocated_5
              room_L0)
    as [(h1 & L1 & Ha & Hra & _) (h2 & L2 & Hb & Hrb & _)].
  split; [exists h1, L1 | exists h2, L2]; split; assumption.
Defined.

Lemma del_removes_witness :
  repr h0 L0 ([1] ++ 2 :: [3])
  ∧ ∃ h' L', del 2 h0 L0 = Some (h', L') ∧ repr h' L' [1; 3]
             ∧ h' !! 2 = Some (mkElement (Some 3) (Some 1)).
Proof.
  split; [exact repr_L0|].
  destruct (del_removes h0 L0 [1] [3] 2 repr_L0) as (h' & L' & Hd & Hr & _ & Hx).
  exists h', L'. split; [exact Hd|]. split; [exact Hr | exact Hx].
Defined.

Lemma reverse_reverses_witness :
  repr h0 L0 [1; 2; 3] ∧ length [1; 2; 3] ≤ 3
  ∧ ∃ h' L', reverse 3 h0 L0 = Some (h', L') ∧ repr h' L' [3; 2; 1]
             ∧ reverse 3 h' L' = Some (h0, L0).
Proof.
  split; [exact repr_L0|]. split; [simpl; lia|].
  destruct (reverse_reverses h0 L0 [1; 2; 3] 3 repr_L0 (le_n 3))
    as (h' & L' & Hr & Hrepr & _ & Hback).
  exists h', L'. split; [exact Hr|]. split; [exact Hrepr | exact Hback].
Defined.

Lemma perm_312 : [3; 1; 2] ≡ₚ [1; 2; 3].
Proof.
  transitivity [1; 3; 2]; [apply perm_swap|]. apply perm_skip, perm_swap.
Qed.

Lemma sort_relinks_witness :
  repr h0 L0 [1; 2; 3] ∧ [3; 1; 2] ≡ₚ [1; 2; 3]
  ∧ ∃ h' L', sort [3; 1; 2] h0 L0 = Some (h', L') ∧ repr h' L' [3; 1; 2].
Proof.
  split; [exact repr_L0|]. split; [exact perm_312|].
  destruct (sort_relinks h0 L0 [1; 2; 3] [3; 1; 2] repr_L0 perm_312)
    as (h' & L' & Hs & Hr & _).
  exists h', L'. split; [exact Hs | exact Hr].
Defined.

Lemma disjoint_K0 : ∀ z, z ∈ [4] → z ∉ [1] ++ 2 :: [3].
Proof.
  intros z ->%list_elem_of_singleton. apply (bool_decide_unpack _).
  vm_compute. exact I.
Qed.

Lemma move_between_lists_witness :
  repr h0 L0 ([1] ++ 2 :: [3]) ∧ repr h0 K0 [4]
  ∧ (∀ z, z ∈ [4] → z ∉ [1] ++ 2 :: [3])
  ∧ (size K0 < INT_MAX)%Z
  ∧ ∃ h' this' L', move 2 h0 L0 K0 = Some (h', this', L')
                   ∧ repr h' this' [1; 3] ∧ repr h' L' [4; 2].
Proof.
  split; [exact repr_L0|]. split; [exact repr_K0|]. split; [exact disjoint_K0|].
  split; [reflexivity|].
  destruct (move_between_lists h0 L0 K0 [1] [3] [4] 2 repr_L0 repr_K0 disjoint_K0
              room_K0)
    as (h' & this' & L' & Hm & Hr1 & Hr2 & _).
  exists h', this', L'. split; [exact Hm|]. split; [exact Hr1 | exact Hr2].
Defined.

Lemma move_within_list_witness :
  repr h0 L0 ([] ++ 1 :: [2; 3]) ∧ [] ++ [2; 3] = [2] ++ 3 :: []
  ∧ (∃ h' L', moveAfter 1 3 h0 L0 = Some (h', L') ∧ repr h' L' [2; 3; 1])
  ∧ (∃ h' L', moveBefore 1 3 h0 L0 = Some (h', L') ∧ repr h' L' [2; 1; 3]).
Proof.
  split; [exact repr_L0|]. split; [reflexivity|].
  destruct (move_within_list h0 L0 [] [2; 3] [2] [] 1 3 repr_L0 eq_refl)
    as [(h1 & L1 & Ha & Hra & _) (h2 & L2 & Hb & Hrb & _)].
  split; [exists h1, L1 | exists h2, L2]; split; assumption.
Defined.

Lemma swap_exchanges_witness :
  repr h0 L0 ([] ++ 1 :: [2] ++ 3 :: [])
  ∧ (∃ h' L', swap 1 3 h0 L0 = Some (h', L') ∧ repr h' L' [3; 2; 1])
  ∧ (∃ h' L', swap 3 1 h0 L0 = Some (h', L') ∧ repr h' L' [3; 2; 1]).
Proof.
  split; [exact repr_L0|].
  destruct (swap_exchanges h0 L0 [] [2] [] 1 3 repr_L0)
    as [(h1 & L1 & Ha & Hra & _) (h2 & L2 & Hb & Hrb & _)].
  split; [exists h1, L1 | exists h2, L2]; split; assumption.
Defined.

Lemma swap_with_itself_witness :
  repr h0 L0 ([1] ++ 2 :: [3]) ∧ swap 2 2 h0 L0 = Some (h0, L0).
Proof.
  split; [exact repr_L0|]. exact (swap_with_itself h0 L0 [1] [3] 2 repr_L0).
Defined.

Lemma disjoint_K0' : ∀ z, z ∈ [] ++ 4 :: [] → z ∉ [1] ++ 2 :: [3].
Proof. exact disjoint_K0. Qed.

Lemma move_next_to_witness :
  repr h0 L0 ([1] ++ 2 :: [3]) ∧ repr h0 K0 ([] ++ 4 :: [])
  ∧ (∀ z, z ∈ [] ++ 4 :: [] → z ∉ [1] ++ 2 :: [3])
  ∧ (size K0 < INT_MAX)%Z
  ∧ ∃ h' this' L', move_to 2 4 before h0 L0 K0 = Some (h', this', L')
                   ∧ repr h' this' [1; 3] ∧ repr h' L' [2; 4].
Proof.
  split; [exact repr_L0|]. split; [exact repr_K0|]. split; [exact disjoint_K0'|].
  split; [reflexivity|].
  destruct (move_next_to h0 L0 K0 [1] [3] [] [] 2 4 before repr_L0 repr_K0
              disjoint_K0' room_K0)
    as (h' & this' & L' & Hm & Hr1 & Hr2).
  exists h', this', L'. split; [exact Hm|]. split; [exact Hr1 | exact Hr2].
Defined.

(** A list whose last element does not point back to its predecessor fails
    the check. *)
Example consistencyCheck_fails :
  consistencyCheck 3
    (<[3 := mkElement None (Some 1)]> h0) L0 = Some false.
Proof. vm_compute. reflexivity. Qed.

End GraphListExample.
(** ** The order of the engine calls *)

Module EntryPointProtocol.
Import ClusterPlanarityModule.

Section Protocol.
Context {Graph ClusterGraph Engine AdjEntry Cluster Exn : Type}.

(** The engine of the two entry points that work on the caller's objects. *)
Variable SyncPlan_new :
  Graph → ClusterGraph → @Augmentation AdjEntry
  → @SyncPlan Graph ClusterGraph Engine AdjEntry.
Variable makeReduced solveReduced :
  @SyncPlan Graph ClusterGraph Engine AdjEntry
  → outcome Exn bool * @SyncPlan Graph ClusterGraph Engine AdjEntry.
Variable embed :
  @SyncPlan Graph ClusterGraph Engine AdjEntry
  → outcome Exn unit * @SyncPlan Graph ClusterGraph Engine AdjEntry.

(** The engine of [clusterPlanarEmbed], on a store, and the collaborators
    of that entry point. *)
Abbreviation store := (@ClusterPlanarEmbed.store Graph ClusterGraph AdjEntry).
Variable SyncPlan_new_at : nat → nat → option nat → store → Engine * store.
Variable makeReduced_at solveReduced_at :
  @ClusterPlanarEmbed.SyncPlan Engine → store → outcome Exn bool * Engine * store.
Variable embed_at :
  @ClusterPlanarEmbed.SyncPlan Engine → store → outcome Exn unit * Engine * store.
Variable emptyGraph : Graph.
Variable constGraph : ClusterGraph → nat.
Variable copyClusterGraph :
  ClusterGraph → Graph → Graph → nat → Graph * ClusterGraph.
Variable clusters : ClusterGraph → list Cluster.
Variable copyC : ClusterGraph → Cluster → Cluster.
Variable origE_mapEndpoint : Graph → Graph → AdjEntry → AdjEntry.
Variable adjAvailable : ClusterGraph → bool → ClusterGraph.
Variable copyEmbedding : Graph → Graph → (AdjEntry → AdjEntry) → Graph.
Variable cluster_adjEntries : ClusterGraph → Cluster → list AdjEntry.
Variable set_cluster_adjEntries :
  ClusterGraph → Cluster → list AdjEntry → ClusterGraph.

Definition destructive := isClusterPlanarDestructive SyncPlan_new makeReduced solveReduced.

Definition embedClusterPlanar :=
  clusterPlanarEmbedClusterPlanarGraph SyncPlan_new makeReduced solveReduced embed.

Definition embedCopy :=
  ClusterPlanarEmbed.clusterPlanarEmbed
    SyncPlan_new_at makeReduced_at solveReduced_at embed_at
    emptyGraph constGraph copyClusterGraph clusters copyC origE_mapEndpoint
    adjAvailable copyEmbedding cluster_adjEntries set_cluster_adjEntries.

Abbreviation protocol := ClusterPlanarEmbed.protocol.

Lemma conj_trace r :
  run_trace r = [] →
  protocol false
    (run_trace (makeReduced_and_solveReduced makeReduced solveReduced r).2).
Proof.
  intros Hr. rewrite conj_run, Hr. unfold ClusterPlanarEmbed.protocol.
  destruct (makeReduced (run_SP r)) as [[[]|e] sp1]; simpl; [|by left..].
  destruct (solveReduced sp1) as [o sp2]. simpl. tauto.
Qed.

Lemma embed_if_solved_trace r :
  run_trace r = [] →
  protocol true (run_trace (embed_if_solved makeReduced solveReduced embed r).2)
  ∧ ((embed_if_solved makeReduced solveReduced embed r).1 = Returned true →
     run_trace (embed_if_solved makeReduced solveReduced embed r).2
     = [EvMakeReduced; EvSolveReduced; EvEmbed]).
Proof.
  intros Hr. rewrite embed_if_solved_run, conj_run, Hr.
  unfold ClusterPlanarEmbed.protocol.
  destruct (makeReduced (run_SP r)) as [[[]|e] sp1]; simpl; [|by split; [left|]..].
  destruct (solveReduced sp1) as [[[]|e] sp2]; simpl;
    [|by split; [right; left|]..].
  destruct (embed sp2) as [o sp3]. simpl. split; [|done]. right. right. done.
Qed.

(** Every entry point calls [makeReduced] first and once, [solveReduced]
    at most once and right after it, [embed] at most once and last;
    [isClusterPlanarDestructive] never calls [embed]; an entry point that
    embeds returns [true] only after all three calls. *)
Theorem entry_point_protocol (c : @caller Graph ClusterGraph AdjEntry)
    (aug : option nat) (CG G : nat) (σ : store) :
  protocol false (destructive c).2
  ∧ protocol true (embedClusterPlanar c).2
  ∧ ((embedClusterPlanar c).1.1 = Returned true →
     (embedClusterPlanar c).2 = [EvMakeReduced; EvSolveReduced; EvEmbed])
  ∧ (∀ o σ' t, embedCopy aug CG G σ = Some (o, σ', t) →
       protocol true t
       ∧ (o = Returned true → t = [EvMakeReduced; EvSolveReduced; EvEmbed])).
Proof.
  split_and!.
  - unfold destructive, isClusterPlanarDestructive.
    pose proof (conj_trace (start SyncPlan_new (c_G c) (c_CG c) None) eq_refl) as H1.
    by destruct (makeReduced_and_solveReduced _ _ _) as [o1 r1].
  - unfold embedClusterPlanar, clusterPlanarEmbedClusterPlanarGraph.
    pose proof (embed_if_solved_trace
                  (start SyncPlan_new (c_G c) (c_CG c) (m_augmentation c)) eq_refl)
      as [H2 _].
    by destruct (embed_if_solved _ _ _ _) as [o2 r2].
  - unfold embedClusterPlanar, clusterPlanarEmbedClusterPlanarGraph.
    pose proof (embed_if_solved_trace
                  (start SyncPlan_new (c_G c) (c_CG c) (m_augmentation c)) eq_refl)
      as [_ H3].
    by destruct (embed_if_solved _ _ _ _) as [o2 r2].
  - intros o σ' t Hrun. unfold embedCopy, ClusterPlanarEmbed.clusterPlanarEmbed in Hrun.
    destruct (ClusterPlanarEmbed.clusterGraphs σ !! CG) as [cg|]; [|done].
    destruct (ClusterPlanarEmbed.graphs σ !! G) as [g|]; [|done]. simpl in Hrun.
    destruct (decide (constGraph cg = G)) as [_|]; [|done].
    destruct (copyClusterGraph _ _ _ _) as [gcopy cgcopy].
    destruct (SyncPlan_new_at _ _ _ _) as [e σ2].
    match type of Hrun with
    | context [ClusterPlanarEmbed.embed_if_solved _ _ _ ?r] =>
        pose proof (ClusterPlanarEmbed.embed_if_solved_on_copies_trace
                      makeReduced_at solveReduced_at embed_at r eq_refl) as [H4 H5];
        destruct (ClusterPlanarEmbed.embed_if_solved
                    makeReduced_at solveReduced_at embed_at r) as [o' r']
    end.
    simpl in H4, H5.
    destruct o' as [[]|e']; [|by simplify_eq..].
    repeat match type of Hrun with
           | (?m ≫= _) = Some _ => destruct m; simpl in Hrun; [|done]
           end.
    simplify_eq. split; [done|]. intros _. by apply H5.
Qed.

End Protocol.
End EntryPointProtocol.
